(** * Catalog lookup utilities of the event-catalog SDK

    A shallow embedding of [src/internal/utils.ts]: [versionExists],
    [findFileById], [getFiles], [searchFilesForId], [copyDir] and
    [uniqueMessages], with the properties of the specification stated and
    settled against it.

    Strings are [string] (sequences of code units below 256; the source's
    strings are UTF-16, the two agree on ASCII text).  A rejected promise
    or a thrown exception is the [Err] branch of [result]. *)

From Stdlib Require Import String Ascii List Bool Arith ZArith Lia.
From stdpp Require Import base option list strings pretty gmap sets.

Import ListNotations.
Local Open Scope string_scope.
Local Open Scope list_scope.

(** ** Outcomes *)

(** What a call can throw.  [Unmodelled] is not an error of the program: it
    marks an input on which a collaborator (the pattern syntax of the
    regular-expression engine, of the glob library) lies outside the
    fragment this development describes, so that nothing is claimed there. *)
Inductive error : Type :=
  | SyntaxError      (* new RegExp on an invalid pattern *)
  | ENOENT           (* no such file or directory *)
  | EEXIST           (* a regular file where a directory is needed *)
  | FileSearchError  (* "Error finding files: ..." *)
  | CopyError        (* fs-extra refuses the copy *)
  | Unmodelled.

Inductive result (A : Type) : Type :=
  | Ok (a : A)
  | Err (e : error).
Arguments Ok {A} a.
Arguments Err {A} e.

Definition bind {A B : Type} (r : result A) (k : A -> result B) : result B :=
  match r with
  | Ok a => k a
  | Err e => Err e
  end.

Notation "'let*' x ':=' r 'in' k" := (bind r (fun x => k))
  (at level 10, x name, r at level 100, k at level 200).

(** [xs.map(f)] for an [f] that can throw, and
    [await Promise.all(xs.map(f))] for an asynchronous one: the results in
    the order of [xs], or the failure of the whole. *)
Fixpoint traverse {A B : Type} (f : A -> result B) (xs : list A)
  : result (list B) :=
  match xs with
  | [] => Ok []
  | x :: xs' =>
      let* y := f x in
      let* ys := traverse f xs' in
      Ok (y :: ys)
  end.

(** ** Characters and strings *)

Definition chars (s : string) : list ascii := list_ascii_of_string s.

Definition code (c : ascii) : nat := nat_of_ascii c.

Definition dquote : ascii := ascii_of_nat 34.
Definition squote : ascii := ascii_of_nat 39.
Definition backslash : ascii := ascii_of_nat 92.
Definition LF : ascii := ascii_of_nat 10.
Definition CR : ascii := ascii_of_nat 13.

Definition str (c : ascii) : string := String c EmptyString.

Definition in_range (lo hi : nat) (c : ascii) : bool :=
  Nat.leb lo (code c) && Nat.leb (code c) hi.

(** LineTerminator of the language: LF and CR (the two others are not
    ASCII). *)
Definition is_line_terminator (c : ascii) : bool :=
  Nat.eqb (code c) 10 || Nat.eqb (code c) 13.

(** WhiteSpace and LineTerminator, as [\s] sees them on ASCII text. *)
Definition is_space (c : ascii) : bool :=
  in_range 9 13 c || Nat.eqb (code c) 32.

Definition is_digit (c : ascii) : bool := in_range 48 57 c.

Definition is_alpha (c : ascii) : bool :=
  in_range 65 90 c || in_range 97 122 c.

Definition is_word (c : ascii) : bool :=
  is_alpha c || is_digit c || Nat.eqb (code c) 95.

(** [s.includes(sub)] *)
Fixpoint includes (sub s : string) : bool :=
  String.prefix sub s ||
  match s with
  | EmptyString => false
  | String _ s' => includes sub s'
  end.

(** [s.split(sep)] for a one-character separator. *)
Fixpoint split_go (sep : ascii) (cur : string) (s : string) : list string :=
  match s with
  | EmptyString => [String.rev cur]
  | String c s' =>
      if Ascii.eqb c sep then String.rev cur :: split_go sep EmptyString s'
      else split_go sep (String c cur) s'
  end.

Definition split (sep : ascii) (s : string) : list string :=
  split_go sep EmptyString s.

Definition segments (p : string) : list string := split "/"%char p.

(** ** Regular expressions

    A model of the host's regular expressions on ASCII subjects: the
    patterns [new RegExp(source, 'm')] accepts, for the part of the
    pattern language the module's two templates and ordinary identifiers
    use: literals, [.], the class escapes, bracketed classes, groups,
    alternation, the quantifiers [*], [+], [?] (greedy or lazy) and the two
    line anchors.  Braced quantifiers, look-around, word boundaries,
    back-references, and the hexadecimal, unicode and control escapes are
    [Unmodelled]. *)

Module RegExp.

Inductive cls : Type :=
  | ClsChar (c : ascii)
  | ClsRange (lo hi : ascii)
  | ClsSpace (neg : bool)    (* \s, \S *)
  | ClsDigit (neg : bool)    (* \d, \D *)
  | ClsWord (neg : bool).    (* \w, \W *)

Inductive regex : Type :=
  | Empty
  | Set_ (neg : bool) (items : list cls)
  | Dot
  | Bol
  | Eol
  | Seq (r1 r2 : regex)
  | Alt (r1 r2 : regex)
  | Star (r : regex)
  | Plus (r : regex)
  | Opt (r : regex).

Definition cls_mem (c : ascii) (k : cls) : bool :=
  match k with
  | ClsChar d => Ascii.eqb c d
  | ClsRange lo hi => in_range (code lo) (code hi) c
  | ClsSpace neg => xorb neg (is_space c)
  | ClsDigit neg => xorb neg (is_digit c)
  | ClsWord neg => xorb neg (is_word c)
  end.

(** *** Matching

    A position in the subject is the character before it (if any) and the
    characters from it on.  [run r st] lists the positions at which a match
    of [r] begun at [st] can end; whether some match exists does not depend
    on the order in which a backtracking matcher tries them. *)

Definition pos : Type := option ascii * list ascii.

Definition at_line_start (st : pos) : bool :=
  match fst st with
  | None => true
  | Some c => is_line_terminator c
  end.

Definition at_line_end (st : pos) : bool :=
  match snd st with
  | [] => true
  | c :: _ => is_line_terminator c
  end.

Definition advance (ok : ascii -> bool) (st : pos) : list pos :=
  match snd st with
  | c :: rest => if ok c then [(Some c, rest)] else []
  | [] => []
  end.

(** Iterations of a starred body that consume nothing add no end position;
    each other one shortens the remainder, so [S (length remainder)] rounds
    reach every end position. *)
Fixpoint iterate (body : pos -> list pos) (fuel : nat) (st : pos) : list pos :=
  match fuel with
  | O => [st]
  | S n =>
      flat_map
        (fun st' =>
           if Nat.ltb (length (snd st')) (length (snd st)) then iterate body n st'
           else [])
        (body st)
      ++ [st]
  end.

Fixpoint run (r : regex) (st : pos) : list pos :=
  match r with
  | Empty => [st]
  | Set_ neg items => advance (fun c => xorb neg (existsb (cls_mem c) items)) st
  | Dot => advance (fun c => negb (is_line_terminator c)) st
  | Bol => if at_line_start st then [st] else []
  | Eol => if at_line_end st then [st] else []
  | Seq r1 r2 => flat_map (run r2) (run r1 st)
  | Alt r1 r2 => run r1 st ++ run r2 st
  | Star r1 => iterate (run r1) (S (length (snd st))) st
  | Plus r1 =>
      flat_map (fun st' => iterate (run r1) (S (length (snd st'))) st')
               (run r1 st)
  | Opt r1 => run r1 st ++ [st]
  end.

Fixpoint search (r : regex) (prev : option ascii) (s : list ascii) : bool :=
  match run r (prev, s) with
  | _ :: _ => true
  | [] =>
      match s with
      | [] => false
      | c :: s' => search r (Some c) s'
      end
  end.

(** [content.match(r)] is truthy. *)
Definition test (r : regex) (content : string) : bool :=
  search r None (chars content).

(** *** Reading a pattern

    One pass over the source text with a stack of open groups. *)

(** The state of the last term of the alternative being read: it can take a
    quantifier, has just taken one (a [?] then makes it lazy), or can take
    none (an anchor, a lazy quantifier, no term at all). *)
Inductive tstate : Type := Quantifiable | Quantified | Closed.

Record frame : Type := {
  alts : list regex;       (* finished alternatives, last first *)
  terms : list regex       (* terms of the current alternative, last first *)
}.

Inductive mode : Type :=
  | Normal
  | Escape                                  (* after a backslash *)
  | GroupOpen                               (* after "(" *)
  | GroupQuestion                           (* after "(?" *)
  | ClassOpen                               (* after "[" *)
  | Class (neg : bool) (items : list cls) (last : option ascii) (dash : bool)
  | ClassEscape (neg : bool) (items : list cls) (last : option ascii)
                (dash : bool).

Record pstate : Type := {
  md : mode;
  top : frame;
  stack : list frame;
  ts : tstate
}.

Definition seq_of (terms_rev : list regex) : regex :=
  fold_left (fun acc t => Seq t acc) terms_rev Empty.

Definition close_frame (f : frame) : regex :=
  fold_left (fun acc a => Alt a acc) (alts f) (seq_of (terms f)).

Definition push_term (t : regex) (q : tstate) (st : pstate) : pstate :=
  {| md := Normal;
     top := {| alts := alts (top st); terms := t :: terms (top st) |};
     stack := stack st;
     ts := q |}.

Definition literal (c : ascii) : regex := Set_ false [ClsChar c].

Definition quantify (q : regex -> regex) (st : pstate) : result pstate :=
  match ts st, terms (top st) with
  | Quantifiable, t :: rest =>
      Ok {| md := Normal;
            top := {| alts := alts (top st); terms := q t :: rest |};
            stack := stack st;
            ts := Quantified |}
  | _, _ => Err SyntaxError      (* nothing to repeat *)
  end.

(** The character a backslash followed by [c] stands for, when it stands
    for one character. *)
Definition escaped_char (c : ascii) : option ascii :=
  if Ascii.eqb c "n" then Some LF
  else if Ascii.eqb c "r" then Some CR
  else if Ascii.eqb c "t" then Some (ascii_of_nat 9)
  else if Ascii.eqb c "v" then Some (ascii_of_nat 11)
  else if Ascii.eqb c "f" then Some (ascii_of_nat 12)
  else if is_alpha c || is_digit c then None
  else Some c.                  (* identity escape *)

Definition escaped_class (c : ascii) : option cls :=
  if Ascii.eqb c "s" then Some (ClsSpace false)
  else if Ascii.eqb c "S" then Some (ClsSpace true)
  else if Ascii.eqb c "d" then Some (ClsDigit false)
  else if Ascii.eqb c "D" then Some (ClsDigit true)
  else if Ascii.eqb c "w" then Some (ClsWord false)
  else if Ascii.eqb c "W" then Some (ClsWord true)
  else None.

Definition with_mode (m : mode) (st : pstate) : pstate :=
  {| md := m; top := top st; stack := stack st; ts := ts st |}.

(** A character read inside brackets, after escapes are resolved. *)
Definition class_char (neg : bool) (items : list cls) (last : option ascii)
    (dash : bool) (c : ascii) (st : pstate) : result pstate :=
  match last, dash with
  | Some l, true =>
      if Nat.ltb (code c) (code l) then Err SyntaxError   (* range out of order *)
      else Ok (with_mode (Class neg (ClsRange l c :: items) None false) st)
  | Some l, false =>
      Ok (with_mode (Class neg (ClsChar l :: items) (Some c) false) st)
  | None, _ =>
      Ok (with_mode (Class neg items (Some c) false) st)
  end.

Definition flush (items : list cls) (last : option ascii) (dash : bool)
  : list cls :=
  match last with
  | Some l =>
      if dash then ClsChar "-" :: ClsChar l :: items else ClsChar l :: items
  | None => items
  end.

(** A character read outside brackets and escapes. *)
Definition step_normal (st : pstate) (c : ascii) : result pstate :=
  if Ascii.eqb c backslash then Ok (with_mode Escape st)
  else if Ascii.eqb c "(" then
    Ok {| md := GroupOpen;
          top := {| alts := []; terms := [] |};
          stack := top st :: stack st;
          ts := Closed |}
  else if Ascii.eqb c ")" then
    match stack st with
    | [] => Err SyntaxError                      (* unmatched ) *)
    | f :: fs =>
        Ok {| md := Normal;
              top := {| alts := alts f;
                        terms := close_frame (top st) :: terms f |};
              stack := fs;
              ts := Quantifiable |}
    end
  else if Ascii.eqb c "[" then Ok (with_mode ClassOpen st)
  else if Ascii.eqb c "|" then
    Ok {| md := Normal;
          top := {| alts := seq_of (terms (top st)) :: alts (top st);
                    terms := [] |};
          stack := stack st;
          ts := Closed |}
  else if Ascii.eqb c "^" then Ok (push_term Bol Closed st)
  else if Ascii.eqb c "$" then Ok (push_term Eol Closed st)
  else if Ascii.eqb c "." then Ok (push_term Dot Quantifiable st)
  else if Ascii.eqb c "*" then quantify Star st
  else if Ascii.eqb c "+" then quantify Plus st
  else if Ascii.eqb c "?" then
    match ts st with
    | Quantified => Ok {| md := Normal; top := top st;
                          stack := stack st; ts := Closed |}
    | _ => quantify Opt st
    end
  else if Ascii.eqb c "{" then Err Unmodelled
  else Ok (push_term (literal c) Quantifiable st).

Definition step (st : pstate) (c : ascii) : result pstate :=
  match md st with
  | Normal => step_normal st c
  | Escape =>
      match escaped_class c with
      | Some k => Ok (push_term (Set_ false [k]) Quantifiable st)
      | None =>
          match escaped_char c with
          | Some d => Ok (push_term (literal d) Quantifiable st)
          | None => Err Unmodelled
          end
      end
  | GroupOpen =>
      if Ascii.eqb c "?" then Ok (with_mode GroupQuestion st)
      else step_normal (with_mode Normal st) c
  | GroupQuestion =>
      if Ascii.eqb c ":" then Ok (with_mode Normal st)
      else Err Unmodelled                        (* look-around, names *)
  | ClassOpen =>
      if Ascii.eqb c "^" then Ok (with_mode (Class true [] None false) st)
      else if Ascii.eqb c "]" then Ok (push_term (Set_ false []) Quantifiable st)
      else if Ascii.eqb c backslash then
        Ok (with_mode (ClassEscape false [] None false) st)
      else Ok (with_mode (Class false [] (Some c) false) st)
  | Class neg items last dash =>
      if Ascii.eqb c "]" then
        Ok (push_term (Set_ neg (rev (flush items last dash))) Quantifiable st)
      else if Ascii.eqb c backslash then
        Ok (with_mode (ClassEscape neg items last dash) st)
      else if Ascii.eqb c "-" then
        match last, dash with
        | Some _, false => Ok (with_mode (Class neg items last true) st)
        | _, _ => class_char neg items last dash c st
        end
      else class_char neg items last dash c st
  | ClassEscape neg items last dash =>
      match escaped_class c with
      | Some k =>
          if dash then Err Unmodelled
          else Ok (with_mode (Class neg (k :: flush items last false) None false) st)
      | None =>
          if Ascii.eqb c "b" then
            class_char neg items last dash (ascii_of_nat 8) st
          else
            match escaped_char c with
            | Some d => class_char neg items last dash d st
            | None => Err Unmodelled
            end
      end
  end.

Fixpoint steps (st : pstate) (s : list ascii) : result pstate :=
  match s with
  | [] => Ok st
  | c :: s' => let* st' := step st c in steps st' s'
  end.

Definition start : pstate :=
  {| md := Normal; top := {| alts := []; terms := [] |}; stack := [];
     ts := Closed |}.

Definition finish (st : pstate) : result regex :=
  match md st, stack st with
  | Normal, [] => Ok (close_frame (top st))
  | _, _ => Err SyntaxError   (* unterminated group or class, lone backslash *)
  end.

(** [new RegExp(source, 'm')] *)
Definition compile (source : string) : result regex :=
  let* st := steps start (chars source) in finish st.

End RegExp.

(** ** The file system seen by the lookups

    The regular files below the working directory, by their path relative
    to it with [/] between segments, in the order a directory walk meets
    them, each with its text.  Directories are not listed: what the code
    does with a path that names a directory (the glob finds a directory
    called [index.md], and reading it fails) is outside this description. *)

Definition FS : Type := list (string * string).

(** [fs.readFile(file, 'utf-8')] on the regular files; a path that is not
    one of them fails, here always with [ENOENT]. *)
Definition readFile (fs : FS) (file : string) : result string :=
  if String.eqb file "" then Err ENOENT
  else
    match find (fun e => String.eqb (fst e) file) fs with
    | Some e => Ok (snd e)
    | None => Err ENOENT
    end.

(** ** Glob patterns

    The patterns of the glob library (a dependency of the module), matched
    case-sensitively against paths relative to the working directory, for
    segments made of literal characters, [*] and [?], and for the segment
    [**]; a pattern with brackets, braces, parentheses, [!], [+], [@], [#]
    or a backslash, or with an empty, [.] or [..] segment (an absolute
    pattern has one), is [Unmodelled]. *)

Module Glob.

Inductive gchar : Type :=
  | Lit (c : ascii)
  | AnyChar                   (* ? *)
  | AnyString.                (* * *)

Inductive gseg : Type :=
  | GlobStar                  (* ** *)
  | Seg (pat : list gchar).

Definition is_magic (c : ascii) : bool :=
  existsb (Ascii.eqb c) (chars ("[]{}()!+@#" ++ str backslash)).

Definition parse_char (c : ascii) : result gchar :=
  if Ascii.eqb c "*" then Ok AnyString
  else if Ascii.eqb c "?" then Ok AnyChar
  else if is_magic c then Err Unmodelled
  else Ok (Lit c).

Definition parse_segment (s : string) : result gseg :=
  if String.eqb s "**" then Ok GlobStar
  else if String.eqb s "" || String.eqb s "." || String.eqb s ".." then
    Err Unmodelled
  else
    let* pat := traverse parse_char (chars s) in
    Ok (Seg pat).

Definition parse (pattern : string) : result (list gseg) :=
  traverse parse_segment (segments pattern).

Fixpoint wild (pat : list gchar) (s : list ascii) : bool :=
  match pat with
  | [] => match s with [] => true | _ :: _ => false end
  | Lit c :: pat' =>
      match s with
      | d :: s' => Ascii.eqb c d && wild pat' s'
      | [] => false
      end
  | AnyChar :: pat' =>
      match s with
      | _ :: s' => wild pat' s'
      | [] => false
      end
  | AnyString :: pat' =>
      (fix skip (s : list ascii) : bool :=
         wild pat' s ||
         match s with
         | _ :: s' => skip s'
         | [] => false
         end) s
  end.

(** Without the [dot] option a wildcard does not match the dot that starts
    a hidden entry, and [**] does not descend into one. *)
Definition hidden (s : string) : bool := String.prefix "." s.

Definition starts_literal_dot (pat : list gchar) : bool :=
  match pat with
  | Lit c :: _ => Ascii.eqb c "."
  | _ => false
  end.

Definition seg_match (dot : bool) (pat : list gchar) (s : string) : bool :=
  (dot || negb (hidden s) || starts_literal_dot pat) && wild pat (chars s).

Fixpoint matches (dot : bool) (pat : list gseg) (p : list string) : bool :=
  match pat with
  | [] => match p with [] => true | _ :: _ => false end
  | Seg sp :: pat' =>
      match p with
      | s :: p' => seg_match dot sp s && matches dot pat' p'
      | [] => false
      end
  | GlobStar :: pat' =>
      (fix descend (p : list string) : bool :=
         matches dot pat' p ||
         match p with
         | s :: p' => (dot || negb (hidden s)) && descend p'
         | [] => false
         end) p
  end.

(** [glob(pattern, { ignore })]: the paths the pattern matches, without those
    the ignore pattern matches (which the library tests with [dot] set).
    Of the paths the library returns these are the regular files. *)
Definition glob (fs : FS) (pattern ignore : string) : result (list string) :=
  let* pat := parse pattern in
  let* ign := parse ignore in
  Ok (List.filter
        (fun p => matches false pat (segments p)
                  && negb (matches true ign (segments p)))
        (map fst fs)).

End Glob.

(** ** The collaborators whose result the module only consumes *)

(** The semver library. *)
Class SemVer : Type := {
  validRange : string -> option string;
  valid : string -> option string;
  satisfies : string -> string -> bool
}.

(** The front matter gray-matter reads off a document: the two fields the
    catalog's front-matter contract requires, as strings.  A document whose
    version is missing or is not a string is outside this description (the
    comparator of [findFileById]'s sort throws when it is called on one). *)
Record Data : Type := { data_id : string; data_version : string }.

Class GrayMatter : Type := {
  matter : string -> Data
}.

(** [a.localeCompare(b)]: negative, zero or positive; the host's collation
    is a total preorder. *)
Class Collator : Type := {
  localeCompare : string -> string -> Z;
  localeCompare_flip :
    forall a b, Z.sgn (localeCompare b a) = (- Z.sgn (localeCompare a b))%Z;
  localeCompare_trans :
    forall a b c,
      (localeCompare a b <= 0)%Z -> (localeCompare b c <= 0)%Z ->
      (localeCompare a c <= 0)%Z
}.

(** ** src/internal/utils.ts *)

(** Truthiness of an optional string: [undefined] and the empty string are
    falsy. *)
Definition truthy (v : option string) : bool :=
  match v with
  | Some s => negb (String.eqb s "")
  | None => false
  end.

(** A template literal prints [undefined] for an absent value. *)
Definition interpolate (v : option string) : string :=
  match v with
  | Some s => s
  | None => "undefined"
  end.

Definition getFiles (fs : FS) (pattern : string) : result (list string) :=
  match Glob.glob fs pattern "node_modules/**" with
  | Ok files => Ok files
  | Err Unmodelled => Err Unmodelled
  | Err _ => Err FileSearchError
  end.

(** The two templates, around the interpolated argument. *)
Definition idRegex_source (id : string) : string :=
  ("^id:\s*(['" ++ str dquote ++ "]|>-)?\s*") ++ id
  ++ ("['" ++ str dquote ++ "]?\s*$").

Definition versionRegex_source (version : option string) : string :=
  ("^version:\s*['" ++ str dquote ++ "]?") ++ interpolate version
  ++ ("['" ++ str dquote ++ "]?\s*$").

(** [matches.filter(Boolean)] on an array of paths and [undefined]s. *)
Definition Boolean (m : option string) : bool := truthy m.

(** [.filter((file) => file !== undefined)], at the type of paths. *)
Definition defined (ms : list (option string)) : list string :=
  flat_map (fun m => match m with Some file => [file] | None => [] end) ms.

Definition searchFilesForId (fs : FS) (files : list string) (id : string)
    (version : option string) : result (list string) :=
  let* idRegex := RegExp.compile (idRegex_source id) in
  let* versionRegex := RegExp.compile (versionRegex_source version) in
  let* matches :=
    traverse
      (fun file =>
         let* content := readFile fs file in
         let hasIdMatch := RegExp.test idRegex content in
         if truthy version && negb (RegExp.test versionRegex content)
         then Ok None
         else if hasIdMatch then Ok (Some file)
         else Ok None)
      files in
  Ok (defined (List.filter Boolean matches)).

Definition versionExists (fs : FS) (catalogDir id version : string)
  : result bool :=
  let* files := getFiles fs (catalogDir ++ "/**/index.md") in
  let* matchedFiles := searchFilesForId fs files id (Some version) in
  Ok (Nat.ltb 0 (length matchedFiles)).

Record Parsed : Type := { version : string; path : string }.

(** [arr.sort(cmp)]: a stable sort, ascending for [cmp]. *)
Fixpoint insert_sorted {A : Type} (cmp : A -> A -> Z) (x : A) (l : list A)
  : list A :=
  match l with
  | [] => [x]
  | y :: l' =>
      if (0 <? cmp x y)%Z then y :: insert_sorted cmp x l' else x :: l
  end.

Fixpoint sort {A : Type} (cmp : A -> A -> Z) (l : list A) : list A :=
  match l with
  | [] => []
  | x :: l' => insert_sorted cmp x (sort cmp l')
  end.

Section FindFileById.
Context `{SemVer} `{GrayMatter} `{Collator}.

Definition findFileById (fs : FS) (catalogDir id : string)
    (version_arg : option string) : result (option string) :=
  let* files := getFiles fs (catalogDir ++ "/**/index.md") in
  let* matchedFiles := searchFilesForId fs files id None in
  let latestVersion :=
    find (fun path => negb (includes "versioned" path)) matchedFiles in
  (* If no version is provided, return the latest version:
     [!version] holds of [undefined] and of the empty string *)
  match version_arg with
  | None => Ok latestVersion
  | Some version_ =>
      if String.eqb version_ "" then Ok latestVersion
      else
        (* map files into gray matter to get versions *)
        let* parsedFiles :=
          traverse
            (fun path =>
               let* content := readFile fs path in
               Ok {| version := data_version (matter content);
                     path := path |})
            matchedFiles in
        let semverRange := validRange version_ in
        match semverRange, truthy semverRange && truthy (valid version_) with
        | Some range, true =>
            let match_ :=
              List.filter (fun c => satisfies (version c) range)
                          parsedFiles in
            Ok (option_map path (head match_))
        | _, _ =>
            (* Order by version *)
            let sorted :=
              sort (fun a b => localeCompare (version a) (version b))
                   parsedFiles in
            (* latest version *)
            Ok (option_map path (last sorted))
        end
  end.

End FindFileById.

Module Message.
Record t : Type := { id : string; version : string }.
End Message.

(** The template literal [id-version]. *)
Definition message_key (message : Message.t) : string :=
  Message.id message ++ "-" ++ Message.version message.

(** [messages.filter(...)], with the set the predicate fills threaded
    through its calls. *)
Fixpoint uniqueMessages_from (uniqueSet : gset string)
    (messages : list Message.t) : list Message.t :=
  match messages with
  | [] => []
  | message :: rest =>
      let key := message_key message in
      if decide (key ∈ uniqueSet)
      then uniqueMessages_from uniqueSet rest
      else message :: uniqueMessages_from ({[key]} ∪ uniqueSet) rest
  end.

Definition uniqueMessages (messages : list Message.t) : list Message.t :=
  uniqueMessages_from ∅ messages.

(** ** Reference collaborators

    Instances of the three interfaces on the inputs the examples below use:
    plain [MAJOR.MINOR.PATCH] versions with exact and caret ranges,
    front matter made of [key: value] lines, and comparison by code unit
    (the host's collation agrees with it on the versions compared below,
    which differ in their first character, a digit or a lower-case
    letter). *)

Module Reference.

Fixpoint digits_value (acc : nat) (s : list ascii) : option nat :=
  match s with
  | [] => Some acc
  | c :: s' =>
      if is_digit c then digits_value (10 * acc + (code c - 48)) s' else None
  end.

(** A numeric identifier: digits, without a leading zero. *)
Definition numeric (s : string) : option nat :=
  match chars s with
  | [] => None
  | [c] => digits_value 0 [c]
  | c :: rest => if Ascii.eqb c "0" then None else digits_value 0 (c :: rest)
  end.

Definition triple (s : string) : option (nat * nat * nat) :=
  match split "." s with
  | [a; b; c] =>
      match numeric a, numeric b, numeric c with
      | Some x, Some y, Some z => Some (x, y, z)
      | _, _, _ => None
      end
  | _ => None
  end.

Definition show (t : nat * nat * nat) : string :=
  let '(x, y, z) := t in pretty x ++ "." ++ pretty y ++ "." ++ pretty z.

Definition triple_ltb (a b : nat * nat * nat) : bool :=
  let '(x, y, z) := a in
  let '(x', y', z') := b in
  Nat.ltb x x' || (Nat.eqb x x' && (Nat.ltb y y' || (Nat.eqb y y' && Nat.ltb z z'))).

Definition triple_eqb (a b : nat * nat * nat) : bool :=
  let '(x, y, z) := a in
  let '(x', y', z') := b in
  Nat.eqb x x' && Nat.eqb y y' && Nat.eqb z z'.

(** The first version a caret range excludes. *)
Definition caret_bound (t : nat * nat * nat) : nat * nat * nat :=
  match t with
  | (0, 0, z) => (0, 0, S z)
  | (0, y, _) => (0, S y, 0)
  | (x, _, _) => (S x, 0, 0)
  end.

Inductive comparator : Type :=
  | Any                                    (* * *)
  | Exactly (t : nat * nat * nat)
  | AtLeast (t : nat * nat * nat)          (* >=t *)
  | Below (t : nat * nat * nat).           (* <t-0 *)

Definition strip_prefix_str (p s : string) : option string :=
  if String.prefix p s
  then Some (String.substring (String.length p) (String.length s - String.length p) s)
  else None.

Definition strip_suffix_str (p s : string) : option string :=
  option_map String.rev (strip_prefix_str (String.rev p) (String.rev s)).

Definition parse_comparator (s : string) : option comparator :=
  match strip_prefix_str ">=" s with
  | Some t => option_map AtLeast (triple t)
  | None =>
      match strip_prefix_str "<" s with
      | Some t =>
          match strip_suffix_str "-0" t with
          | Some t' => option_map Below (triple t')
          | None => None
          end
      | None => option_map Exactly (triple s)
      end
  end.

Fixpoint parse_comparators (ws : list string) : option (list comparator) :=
  match ws with
  | [] => Some []
  | w :: ws' =>
      match parse_comparator w, parse_comparators ws' with
      | Some c, Some cs => Some (c :: cs)
      | _, _ => None
      end
  end.

Definition parse_range (r : string) : option (list comparator) :=
  if String.eqb r "" || String.eqb r "*" then Some [Any]
  else
    match strip_prefix_str "^" r with
    | Some t =>
        option_map (fun t => [AtLeast t; Below (caret_bound t)]) (triple t)
    | None => parse_comparators (split " " r)
    end.

Definition show_comparator (c : comparator) : string :=
  match c with
  | Any => "*"
  | Exactly t => show t
  | AtLeast t => ">=" ++ show t
  | Below t => "<" ++ show t ++ "-0"
  end.

Definition test_comparator (v : nat * nat * nat) (c : comparator) : bool :=
  match c with
  | Any => true
  | Exactly t => triple_eqb v t
  | AtLeast t => negb (triple_ltb v t)
  | Below t => triple_ltb v t
  end.

#[export] Instance semver : SemVer := {|
  validRange r :=
    option_map (fun cs => String.concat " " (map show_comparator cs))
               (parse_range r);
  valid v := option_map show (triple v);
  satisfies v r :=
    match triple v, parse_range r with
    | Some t, Some cs => forallb (test_comparator t) cs
    | _, _ => false
    end
|}.

Fixpoint drop_spaces (s : list ascii) : list ascii :=
  match s with
  | c :: s' => if Ascii.eqb c " " then drop_spaces s' else s
  | [] => []
  end.

Definition is_quote (c : ascii) : bool :=
  Ascii.eqb c squote || Ascii.eqb c dquote.

(** A plain or quoted scalar, without the blanks and the quotes around it. *)
Definition scalar (s : string) : string :=
  let trimmed := rev (drop_spaces (rev (drop_spaces (chars s)))) in
  string_of_list_ascii
    match trimmed with
    | c :: rest =>
        match rev rest with
        | d :: inner => if is_quote c && Ascii.eqb c d then rev inner else trimmed
        | [] => trimmed
        end
    | [] => []
    end.

Definition field (key : string) (content : string) : string :=
  match
    flat_map
      (fun line =>
         match strip_prefix_str (key ++ ":") line with
         | Some v => [scalar v]
         | None => []
         end)
      (split LF content)
  with
  | v :: _ => v
  | [] => ""
  end.

#[export] Instance gray_matter : GrayMatter := {|
  matter content :=
    {| data_id := field "id" content; data_version := field "version" content |}
|}.

Fixpoint code_unit_compare (a b : string) : Z :=
  match a, b with
  | EmptyString, EmptyString => 0
  | EmptyString, String _ _ => -1
  | String _ _, EmptyString => 1
  | String c a', String d b' =>
      if Nat.ltb (code c) (code d) then -1
      else if Nat.ltb (code d) (code c) then 1
      else code_unit_compare a' b'
  end.

#[export] Instance collator : Collator.
Proof.
  refine {| localeCompare := code_unit_compare |}.
  - intros a b. rewrite <- Z.sgn_opp. f_equal.
    revert b; induction a as [|c a IH]; intros [|d b]; simpl;
      try reflexivity.
    destruct (Nat.ltb_spec (code c) (code d)),
      (Nat.ltb_spec (code d) (code c)); try reflexivity; try lia.
    apply IH.
  - intros a; induction a as [|x a IH]; intros [|y b] [|z c]; simpl;
      try lia.
    destruct (Nat.ltb_spec (code x) (code y)),
      (Nat.ltb_spec (code y) (code x)), (Nat.ltb_spec (code y) (code z)),
      (Nat.ltb_spec (code z) (code y)), (Nat.ltb_spec (code x) (code z)),
      (Nat.ltb_spec (code z) (code x)); try lia.
    apply IH.
Defined.

End Reference.

(** ** The file system seen by [copyDir]

    Every entry below the root, by its list of path segments: a regular
    file with its bytes, or a directory.  The root is a directory; there
    are no links. *)

Module Tree.

Inductive node : Type :=
  | File (bytes : string)
  | Dir.

Abbreviation path := (list string).
Abbreviation tree := (gmap (list string) node).

Definition node_at (fs : tree) (p : path) : option node :=
  match p with
  | [] => Some Dir
  | _ :: _ => fs !! p
  end.

Definition is_file (fs : tree) (p : path) : bool :=
  match node_at fs p with
  | Some (File _) => true
  | _ => false
  end.

Definition is_dir (n : node) : bool :=
  match n with
  | Dir => true
  | File _ => false
  end.

Definition same_kind (a b : node) : bool :=
  match a, b with
  | File _, File _ => true
  | Dir, Dir => true
  | _, _ => false
  end.

(** [path.join(dir, name)] and [path.dirname(p)] *)
Definition join (dir : path) (name : string) : path := dir ++ [name].
Definition dirname (p : path) : path := removelast p.

(** The directories on the way to [p], [p] included, the root excluded. *)
Definition chain (p : path) : list path :=
  map (fun n => take n p) (seq 1 (length p)).

(** [fs.mkdir(p, { recursive: true })], fs-extra's [mkdirs]. *)
Definition mkdirs (fs : tree) (p : path) : result tree :=
  if existsb (is_file fs) (chain p) then Err EEXIST
  else Ok (foldr (fun q acc => <[q := Dir]> acc) fs (chain p)).

Definition strip (dir k : path) : option path :=
  if decide (dir `prefix_of` k) then Some (drop (length dir) k) else None.

(** The entries at and below [dir], by their path relative to it. *)
Definition entries_under (fs : tree) (dir : path) : tree :=
  list_to_map
    (omap (fun kn => (fun rel => (rel, kn.2)) <$> strip dir kn.1)
          (map_to_list fs)).

Definition compatible (fs : tree) (dest : path) (e : path * node) : bool :=
  match node_at fs (dest ++ e.1) with
  | Some n => same_kind e.2 n
  | None => true
  end.

(** The filter of a copy, asked with the source and the destination path of
    an entry.  An entry is copied when the filter accepts it and every
    directory above it, from the copied directory down. *)
Definition included (filter : option (path -> path -> bool))
    (src dest rel : path) : bool :=
  match filter with
  | None => true
  | Some accepts =>
      forallb (fun n => accepts (src ++ take n rel) (dest ++ take n rel))
              (seq 0 (S (length rel)))
  end.

(** fs-extra's [copy(src, dest, { overwrite: true, filter })].
    It refuses to copy a tree onto itself or into itself, a directory over
    a regular file and a regular file over a directory, at the top and at
    every entry it copies; otherwise every included entry of [src] is
    written at the same relative path below [dest], over what is there, and
    [dest] keeps its other entries.  A copy that would write into the tree
    it is reading is [Unmodelled]. *)
Definition copy (fs : tree) (src dest : path)
    (filter : option (path -> path -> bool)) : result tree :=
  match node_at fs src with
  | None => Err ENOENT
  | Some srcStat =>
      if decide (src = dest) then Err CopyError
      else if negb (compatible fs dest ([], srcStat)) then Err CopyError
      else if is_dir srcStat && bool_decide (src `prefix_of` dest)
      then Err CopyError
      else if negb (included filter src dest []) then Ok fs
      else
        let* fs1 := mkdirs fs (dirname dest) in
        let moved :=
          match filter with
          | None => entries_under fs1 src
          | Some _ =>
              base.filter
                (fun e : path * node => included filter src dest e.1 = true)
                (entries_under fs1 src)
          end in
        if negb (forallb (compatible fs1 dest) (map_to_list moved))
        then Err CopyError
        else if existsb (fun e => bool_decide (src `prefix_of` dest ++ e.1))
                        (map_to_list moved)
        then Err Unmodelled
        else Ok (kmap (app dest) moved ∪ fs1)
  end.

(** [fs.rm(p, { recursive: true })] *)
Definition rm_recursive (fs : tree) (p : path) : result tree :=
  match node_at fs p with
  | None => Err ENOENT
  | Some _ => Ok (base.filter (fun kn : path * node => ¬ p `prefix_of` kn.1) fs)
  end.

(** [copyDir(catalogDir, source, target, filter)], on the file system it
    runs in, to the file system it leaves. *)
Definition copyDir (fs : tree) (catalogDir source target : path)
    (filter : option (path -> path -> bool)) : result tree :=
  let tmpDirectory := join catalogDir "tmp" in
  let* fs1 := mkdirs fs tmpDirectory in
  (* Copy everything over *)
  let* fs2 := copy fs1 source tmpDirectory filter in
  let* fs3 := copy fs2 tmpDirectory target filter in
  (* Remove the tmp directory *)
  rm_recursive fs3 tmpDirectory.

End Tree.


(** * Vocabulary of the properties *)

(** The specification's words: a message is kept when no message before it
    in the input has its composite key. *)
Fixpoint first_occurrences_after (earlier : list Message.t)
    (messages : list Message.t) : list Message.t :=
  match messages with
  | [] => []
  | message :: rest =>
      if existsb (fun m => String.eqb (message_key m) (message_key message))
                 earlier
      then first_occurrences_after (earlier ++ [message]) rest
      else message :: first_occurrences_after (earlier ++ [message]) rest
  end.

Definition first_occurrences (messages : list Message.t) : list Message.t :=
  first_occurrences_after [] messages.

Definition content_of (fs : FS) (file : string) : string :=
  match readFile fs file with
  | Ok content => content
  | Err _ => ""
  end.

Definition readable (fs : FS) (file : string) : Prop :=
  exists content, readFile fs file = Ok content.

(** The test a file passes to be returned: the id pattern matches its text
    and, when the version argument is truthy, so does the version pattern. *)
Definition selected (fs : FS) (idRegex versionRegex : RegExp.regex)
    (version : option string) (file : string) : bool :=
  RegExp.test idRegex (content_of fs file)
  && (negb (truthy version) || RegExp.test versionRegex (content_of fs file)).

(** The specification's words: the version pattern is applied whenever a
    version argument is supplied. *)
Definition selected_when_supplied (fs : FS)
    (idRegex versionRegex : RegExp.regex) (version : option string)
    (file : string) : bool :=
  RegExp.test idRegex (content_of fs file)
  && match version with
     | Some _ => RegExp.test versionRegex (content_of fs file)
     | None => true
     end.

(** [name] is one of the segments of the path. *)
Definition has_segment (name p : string) : Prop := In name (segments p).

(** The path lies below the directory [name] of the working directory. *)
Definition below_root_dir (name p : string) : Prop :=
  head (segments p) = Some name.

(** [sub] occurs in [s]. *)
Definition contains (sub s : string) : Prop :=
  exists before after : string, s = (before ++ sub ++ after)%string.

(** The front-matter version of the document at a path. *)
Definition version_of `{GrayMatter} (fs : FS) (file : string) : string :=
  data_version (matter (content_of fs file)).

(** The last of the greatest elements: the first element that compares
    above every element after it. *)
Fixpoint latest {A : Type} (cmp : A -> A -> Z) (l : list A) : option A :=
  match l with
  | [] => None
  | x :: l' =>
      if forallb (fun y => (0 <? cmp x y)%Z) l' then Some x
      else latest cmp l'
  end.

(** What [findFileById] reads off a candidate. *)
Definition parsed `{GrayMatter} (fs : FS) (file : string) : Parsed :=
  {| version := version_of fs file; path := file |}.

Definition by_version `{Collator} (a b : Parsed) : Z :=
  localeCompare (version a) (version b).

(** The value of a call that returns, for stating what it returned. *)
Definition regex_of (r : result RegExp.regex) : RegExp.regex :=
  match r with
  | Ok x => x
  | Err _ => RegExp.Empty
  end.

Definition tree_of (r : result Tree.tree) : Tree.tree :=
  match r with
  | Ok t => t
  | Err _ => ∅
  end.

Definition succeeds {A : Type} (r : result A) : bool :=
  match r with
  | Ok _ => true
  | Err _ => false
  end.

(** ** Example catalogs *)

Definition newline : string := str LF.

(** A catalog document with the two front-matter fields. *)
Definition document (id version : string) : string :=
  "---" ++ newline ++ "id: " ++ id ++ newline ++ "version: " ++ version
  ++ newline ++ "---" ++ newline ++ "# Overview" ++ newline.

(** A document whose front matter has no version. *)
Definition unversioned_document (id : string) : string :=
  "---" ++ newline ++ "id: " ++ id ++ newline ++ "---" ++ newline.

(** Version 2.0.0 of [foo] with the snapshot of 1.2.0 below [versioned]. *)
Definition foo_latest : string := "catalog/events/foo/index.md".
Definition foo_snapshot : string :=
  "catalog/events/foo/versioned/1.2.0/index.md".
Definition foo_catalog : FS :=
  [ (foo_snapshot, document "foo" "1.2.0");
    (foo_latest, document "foo" "2.0.0") ].

(** A catalog installed next to its dependencies. *)
Definition nested_dependency : string := "catalog/node_modules/pkg/index.md".
Definition root_dependency : string := "node_modules/pkg/index.md".
Definition project : FS :=
  [ (foo_latest, document "foo" "2.0.0");
    (nested_dependency, document "pkg" "1.0.0");
    (root_dependency, document "pkg" "1.0.0") ].

(** An event whose name contains the word. *)
Definition document_versioned : string :=
  "catalog/events/document-versioned/index.md".
Definition events_catalog : FS :=
  [ (document_versioned, document "document-versioned" "1.0.0") ].

(** Two drafts of [bar], the later one kept below [versioned]. *)
Definition bar_a : string := "catalog/events/bar/index.md".
Definition bar_b : string := "catalog/events/bar/versioned/b-draft/index.md".
Definition drafts_catalog : FS :=
  [ (bar_a, document "bar" "a-draft");
    (bar_b, document "bar" "b-draft") ].

(** A source directory with a file and a sub-directory. *)
Definition source_tree : Tree.tree :=
  list_to_map
    [ (["src"], Tree.Dir);
      (["src"; "a.md"], Tree.File "A");
      (["src"; "sub"], Tree.Dir);
      (["src"; "sub"; "b.md"], Tree.File "B") ].

(** The same, next to a target directory that already holds a file. *)
Definition populated_tree : Tree.tree :=
  <[ ["dst"] := Tree.Dir ]>
    (<[ ["dst"; "old.md"] := Tree.File "O" ]> source_tree).

(** * Further vocabulary *)

(** A character that a pattern reads as a term matching that character: a
    literal or, for the dot, the wildcard.  The eleven others open an
    escape, a group, a class or a braced quantifier, close a group,
    separate alternatives, anchor or repeat. *)
Definition ordinary (c : ascii) : bool :=
  negb (existsb (Ascii.eqb c) (chars ("()[|^$*+?{" ++ str backslash))).

Definition term_of (c : ascii) : RegExp.regex :=
  if Ascii.eqb c "." then RegExp.Dot else RegExp.literal c.

(** The character before the position reached by reading [cs]. *)
Definition previous (prev : option ascii) (cs : list ascii) : option ascii :=
  fold_left (fun _ c => Some c) cs prev.

(** [line] is a whole line of [content], the lines being separated by line
    feeds. *)
Definition has_line (line content : string) : Prop :=
  exists before after : string,
    content = (before ++ line ++ after)%string /\
    (before = "" \/ exists b : string, before = (b ++ str LF)%string) /\
    (after = "" \/ exists a : string, after = String LF a).

(** Some match of [r] begins at the position. *)
Definition accepts (r : RegExp.regex) (st : RegExp.pos) : Prop :=
  exists st', In st' (RegExp.run r st).

(** The white-space term and the quote term of the two templates. *)
Definition spaces_term : RegExp.regex :=
  RegExp.Star (RegExp.Set_ false [RegExp.ClsSpace false]).

Definition quote_term : RegExp.regex :=
  RegExp.Set_ false [RegExp.ClsChar squote; RegExp.ClsChar dquote].

(** White space in the sense of [\s], line terminators included. *)
Definition blank (cs : list ascii) : Prop :=
  Forall (fun c => is_space c = true) cs.

(** Nothing or one quote character. *)
Definition quote_mark (q : list ascii) : Prop :=
  q = [] \/ q = [squote] \/ q = [dquote].

(** [text] is [pattern] up to the characters standing where [pattern] has a
    dot, which can be any character but a line terminator. *)
Definition reads_as (pattern text : list ascii) : Prop :=
  Forall2 (fun c d => d = c \/ c = "."%char /\ is_line_terminator d = false)
          pattern text.

(** What the id pattern of a plain id looks for: at the start of a line,
    [id:], white space, an optional quote or [>-], white space, the id, an
    optional quote and white space up to the end of a line. *)
Definition id_entry (id content : string) : Prop :=
  exists before sp1 q1 sp2 text q2 sp3 after,
    chars content
    = (before ++ chars "id:" ++ sp1 ++ q1 ++ sp2 ++ text ++ q2 ++ sp3
       ++ after)%list /\
    RegExp.at_line_start (previous None before, []) = true /\
    blank sp1 /\ (quote_mark q1 \/ q1 = chars ">-") /\ blank sp2 /\
    reads_as (chars id) text /\ quote_mark q2 /\ blank sp3 /\
    RegExp.at_line_end (None, after) = true.

(** What the version pattern of a plain version looks for. *)
Definition version_entry (version content : string) : Prop :=
  exists before sp1 q1 text q2 sp3 after,
    chars content
    = (before ++ chars "version:" ++ sp1 ++ q1 ++ text ++ q2 ++ sp3
       ++ after)%list /\
    RegExp.at_line_start (previous None before, []) = true /\
    blank sp1 /\ quote_mark q1 /\
    reads_as (chars version) text /\ quote_mark q2 /\ blank sp3 /\
    RegExp.at_line_end (None, after) = true.

(** ** Further example data *)

(** A filter that leaves out everything named [sub]. *)
Definition skip_sub (src dest : list string) : bool :=
  negb (bool_decide (last src = Some "sub")).

(** The source tree next to a staging directory left behind with a file. *)
Definition stale_tree : Tree.tree :=
  <[ ["catalog"] := Tree.Dir ]>
    (<[ ["catalog"; "tmp"] := Tree.Dir ]>
       (<[ ["catalog"; "tmp"; "old.md"] := Tree.File "O" ]> source_tree)).
(** * Properties *)

(** ** uniqueMessages *)

Lemma existsb_key_elem_of (k : string) (earlier : list Message.t) :
  existsb (fun m => String.eqb (message_key m) k) earlier = true <->
  k ∈ map message_key earlier.
Proof.
  rewrite existsb_exists, list_elem_of_In, in_map_iff.
  split; intros (m & H1 & H2).
  - apply String.eqb_eq in H2. eauto.
  - exists m. split; [assumption|]. now apply String.eqb_eq.
Qed.

Lemma uniqueMessages_from_first_occurrences (seen : gset string)
    (earlier messages : list Message.t) :
  (forall k, k ∈ seen <-> k ∈ map message_key earlier) ->
  uniqueMessages_from seen messages = first_occurrences_after earlier messages.
Proof.
  revert seen earlier.
  induction messages as [|m rest IH]; intros seen earlier Hseen; simpl.
  - reflexivity.
  - destruct (decide (message_key m ∈ seen)) as [Hin|Hout].
    + assert (Hex : existsb
        (fun m0 => String.eqb (message_key m0) (message_key m)) earlier = true)
        by now apply existsb_key_elem_of, Hseen.
      rewrite Hex. apply IH. intros k. rewrite map_app, elem_of_app, <- Hseen. simpl.
      rewrite list_elem_of_singleton. split; [tauto|].
      intros [?| ->]; assumption.
    + destruct (existsb _ earlier) eqn:Hex.
      { apply existsb_key_elem_of, Hseen in Hex. contradiction. }
      f_equal. apply IH. intros k.
      rewrite map_app, elem_of_app, elem_of_union, elem_of_singleton, <- Hseen.
      simpl. rewrite list_elem_of_singleton. tauto.
Qed.

Lemma uniqueMessages_from_sublist (seen : gset string)
    (messages : list Message.t) :
  sublist (uniqueMessages_from seen messages) messages.
Proof.
  revert seen; induction messages as [|m rest IH]; intros seen; simpl.
  - constructor.
  - destruct (decide (message_key m ∈ seen)).
    + apply sublist_cons, IH.
    + apply sublist_skip, IH.
Qed.

Lemma uniqueMessages_from_keys (seen : gset string)
    (messages : list Message.t) :
  NoDup (map message_key (uniqueMessages_from seen messages)) /\
  forall k, k ∈ map message_key (uniqueMessages_from seen messages) ->
            k ∉ seen.
Proof.
  revert seen; induction messages as [|m rest IH]; intros seen; simpl.
  - split; [constructor|]. intros k Hk. now apply elem_of_nil in Hk.
  - destruct (decide (message_key m ∈ seen)) as [Hin|Hout]; [apply IH|].
    destruct (IH ({[message_key m]} ∪ seen)) as [Hnd Hfresh].
    simpl. split.
    + constructor; [|assumption]. intros Hk. apply Hfresh in Hk.
      clear IH. set_solver.
    + intros k Hk. apply elem_of_cons in Hk as [->|Hk]; [assumption|].
      apply Hfresh in Hk. clear IH. set_solver.
Qed.

(** C6: [uniqueMessages] keeps exactly the first occurrence of every
    composite key [id-version], in the order of the input; on
    [[x-1; x-1; y-1]] it returns [[x-1; y-1]]. *)
Theorem uniqueMessages_keeps_first_occurrences :
  (forall messages : list Message.t,
     uniqueMessages messages = first_occurrences messages /\
     sublist (uniqueMessages messages) messages /\
     NoDup (map message_key (uniqueMessages messages))) /\
  uniqueMessages
    [ {| Message.id := "x"; Message.version := "1" |};
      {| Message.id := "x"; Message.version := "1" |};
      {| Message.id := "y"; Message.version := "1" |} ]
  = [ {| Message.id := "x"; Message.version := "1" |};
      {| Message.id := "y"; Message.version := "1" |} ].
Proof.
  split; [|reflexivity].
  intros messages. split; [|split].
  - apply uniqueMessages_from_first_occurrences. intros k. simpl.
    rewrite elem_of_nil. set_solver.
  - apply uniqueMessages_from_sublist.
  - apply uniqueMessages_from_keys.
Qed.

(** C10: the composite key does not determine the pair: the messages
    [(a-b, c)] and [(a, b-c)] differ in both fields, share the key [a-b-c],
    and [uniqueMessages] drops the second. *)
Theorem uniqueMessages_key_collision :
  let m1 := {| Message.id := "a-b"; Message.version := "c" |} in
  let m2 := {| Message.id := "a"; Message.version := "b-c" |} in
  (Message.id m1, Message.version m1) <> (Message.id m2, Message.version m2) /\
  message_key m1 = message_key m2 /\
  uniqueMessages [m1; m2] = [m1].
Proof.
  simpl. split; [discriminate|]. split; reflexivity.
Qed.

(** ** searchFilesForId *)

Lemma bind_Ok {A B : Type} (r : result A) (k : A -> result B) (b : B) :
  bind r k = Ok b <-> exists a, r = Ok a /\ k a = Ok b.
Proof.
  destruct r as [a|e]; simpl.
  - split; [eauto|]. now intros (a' & [= ->] & H).
  - split; [discriminate|]. now intros (a' & [=] & _).
Qed.

Lemma traverse_Ok {A B : Type} (f : A -> result B) (xs : list A)
    (g : A -> B) :
  Forall (fun x => f x = Ok (g x)) xs -> traverse f xs = Ok (map g xs).
Proof.
  induction 1 as [|x xs Hx _ IH]; simpl; [reflexivity|].
  now rewrite Hx, IH.
Qed.

Lemma traverse_inv {A B : Type} (f : A -> result B) (xs : list A)
    (ys : list B) :
  traverse f xs = Ok ys -> Forall2 (fun x y => f x = Ok y) xs ys.
Proof.
  revert ys; induction xs as [|x xs IH]; simpl; intros ys H.
  - injection H as <-. constructor.
  - apply bind_Ok in H as (y & Hy & H).
    apply bind_Ok in H as (ys' & Hys & [= <-]).
    constructor; auto.
Qed.

Lemma readFile_nonempty (fs : FS) (file content : string) :
  readFile fs file = Ok content -> file <> "".
Proof.
  unfold readFile. intros H ->. discriminate.
Qed.

Lemma defined_filter_Boolean (keep : string -> bool) (files : list string) :
  Forall (fun file => file <> "") files ->
  defined
    (List.filter Boolean
       (map (fun file => if keep file then Some file else None) files))
  = List.filter keep files.
Proof.
  induction 1 as [|file files Hne _ IH]; simpl; [reflexivity|].
  destruct (keep file); simpl.
  - destruct (String.eqb_spec file ""); [contradiction|]. simpl.
    now rewrite IH.
  - apply IH.
Qed.

(** Over readable files, [searchFilesForId] is a filter of its input. *)
Lemma searchFilesForId_filter (fs : FS) (files : list string)
    (id : string) (version : option string)
    (idRegex versionRegex : RegExp.regex) :
  RegExp.compile (idRegex_source id) = Ok idRegex ->
  RegExp.compile (versionRegex_source version) = Ok versionRegex ->
  Forall (readable fs) files ->
  searchFilesForId fs files id version
  = Ok (List.filter (selected fs idRegex versionRegex version) files).
Proof.
  intros Hid Hversion Hread. unfold searchFilesForId.
  rewrite Hid, Hversion. simpl.
  rewrite (traverse_Ok _ _
    (fun file => if selected fs idRegex versionRegex version file
                 then Some file else None)).
  - simpl. f_equal. apply defined_filter_Boolean.
    eapply Forall_impl; [exact Hread|].
    intros file [content H]. eapply readFile_nonempty, H.
  - eapply Forall_impl; [exact Hread|].
    intros file [content H]. unfold selected, content_of.
    rewrite H. simpl.
    destruct (truthy version), (RegExp.test versionRegex content),
      (RegExp.test idRegex content); reflexivity.
Qed.

Lemma filter_sublist {A : Type} (f : A -> bool) (l : list A) :
  sublist (List.filter f l) l.
Proof.
  induction l as [|x l IH]; simpl; [constructor|].
  destruct (f x); [now apply sublist_skip|now apply sublist_cons].
Qed.

(** C5, as the code has it: over readable files, [searchFilesForId] returns
    the files of the input, in the order of the input, whose text matches
    the id pattern and, when the version argument is a non-empty string,
    the version pattern as well. *)
Theorem searchFilesForId_is_filter (fs : FS) (files : list string)
    (id : string) (version : option string)
    (idRegex versionRegex : RegExp.regex) :
  RegExp.compile (idRegex_source id) = Ok idRegex ->
  RegExp.compile (versionRegex_source version) = Ok versionRegex ->
  Forall (readable fs) files ->
  exists found,
    searchFilesForId fs files id version = Ok found /\
    found = List.filter (selected fs idRegex versionRegex version) files /\
    sublist found files /\
    (forall file,
       In file found <->
       In file files /\
       RegExp.test idRegex (content_of fs file) = true /\
       (truthy version = true ->
        RegExp.test versionRegex (content_of fs file) = true)).
Proof.
  intros Hid Hversion Hread. eexists. split; [|split; [reflexivity|split]].
  - now apply searchFilesForId_filter.
  - apply filter_sublist.
  - intros file. rewrite filter_In. unfold selected.
    rewrite andb_true_iff, orb_true_iff, negb_true_iff.
    destruct (truthy version); intuition congruence.
Qed.

Lemma searchFilesForId_is_filter_witness :
  let files := [foo_snapshot; foo_latest] in
  let idRegex := regex_of (RegExp.compile (idRegex_source "foo")) in
  let versionRegex :=
    regex_of (RegExp.compile (versionRegex_source (Some "1.2.0"))) in
  RegExp.compile (idRegex_source "foo") = Ok idRegex /\
  RegExp.compile (versionRegex_source (Some "1.2.0")) = Ok versionRegex /\
  Forall (readable foo_catalog) files /\
  searchFilesForId foo_catalog files "foo" (Some "1.2.0") = Ok [foo_snapshot] /\
  exists found,
    searchFilesForId foo_catalog files "foo" (Some "1.2.0") = Ok found /\
    found = List.filter
              (selected foo_catalog idRegex versionRegex (Some "1.2.0"))
              files /\
    sublist found files /\
    (forall file,
       In file found <->
       In file files /\
       RegExp.test idRegex (content_of foo_catalog file) = true /\
       (truthy (Some "1.2.0") = true ->
        RegExp.test versionRegex (content_of foo_catalog file) = true)).
Proof.
  assert (H1 : RegExp.compile (idRegex_source "foo")
               = Ok (regex_of (RegExp.compile (idRegex_source "foo"))))
    by (vm_compute; reflexivity).
  assert (H2 : RegExp.compile (versionRegex_source (Some "1.2.0"))
               = Ok (regex_of
                       (RegExp.compile (versionRegex_source (Some "1.2.0")))))
    by (vm_compute; reflexivity).
  assert (H3 : Forall (readable foo_catalog) [foo_snapshot; foo_latest]).
  { repeat constructor; eexists; vm_compute; reflexivity. }
  assert (H4 : searchFilesForId foo_catalog [foo_snapshot; foo_latest] "foo"
                 (Some "1.2.0") = Ok [foo_snapshot])
    by (vm_compute; reflexivity).
  exact (conj H1 (conj H2 (conj H3 (conj H4
    (searchFilesForId_is_filter foo_catalog _ "foo" (Some "1.2.0") _ _
       H1 H2 H3))))).
Defined.

(** The claim of C5 as the specification words it fails when the version
    argument is the empty string: the file has no version line, the version
    pattern does not match it, and the file is returned all the same. *)
Lemma searchFilesForId_empty_version_counterexample :
  let file := "catalog/events/foo/index.md" in
  let fs := [(file, unversioned_document "foo")] in
  let idRegex := regex_of (RegExp.compile (idRegex_source "foo")) in
  let versionRegex :=
    regex_of (RegExp.compile (versionRegex_source (Some ""))) in
  RegExp.compile (idRegex_source "foo") = Ok idRegex /\
  RegExp.compile (versionRegex_source (Some "")) = Ok versionRegex /\
  RegExp.test versionRegex (unversioned_document "foo") = false /\
  List.filter (selected_when_supplied fs idRegex versionRegex (Some "")) [file]
  = [] /\
  searchFilesForId fs [file] "foo" (Some "") = Ok [file].
Proof.
  vm_compute. repeat split.
Qed.

(** C9: the id is spliced into the pattern as it is, so its dot is a
    wildcard: asked for [a.c], [searchFilesForId] returns a document whose
    front-matter id is [abc]. *)
Theorem searchFilesForId_id_is_a_pattern :
  let file := "catalog/events/abc/index.md" in
  let fs := [(file, document "abc" "1.0.0")] in
  (forall id, exists before after : string,
     idRegex_source id = (before ++ id ++ after)%string) /\
  data_id (@matter Reference.gray_matter (document "abc" "1.0.0")) = "abc" /\
  "abc" <> "a.c" /\
  searchFilesForId fs [file] "a.c" None = Ok [file].
Proof.
  intros file fs. split; [|split; [|split]].
  - intros id.
    exists ("^id:\s*(['" ++ str dquote ++ "]|>-)?\s*")%string,
           ("['" ++ str dquote ++ "]?\s*$")%string.
    reflexivity.
  - vm_compute. reflexivity.
  - discriminate.
  - vm_compute. reflexivity.
Qed.

(** ** getFiles *)

Lemma chars_inj (s t : string) : chars s = chars t -> s = t.
Proof.
  unfold chars. intros H.
  rewrite <- (string_of_list_ascii_of_string s),
          <- (string_of_list_ascii_of_string t).
  now rewrite H.
Qed.

Lemma wild_literal (cs l : list ascii) :
  Glob.wild (map Glob.Lit cs) l = true <-> l = cs.
Proof.
  revert l; induction cs as [|c cs IH]; intros [|d l]; simpl;
    try (split; [discriminate|discriminate]); try tauto.
  rewrite andb_true_iff, IH, Ascii.eqb_eq. split.
  - now intros [-> ->].
  - now intros [= -> ->].
Qed.

Lemma matches_globstar_end (p : list string) :
  Glob.matches true [Glob.GlobStar] p = true.
Proof.
  induction p as [|s p IH]; [reflexivity|].
  simpl in *. exact IH.
Qed.

Lemma ignore_node_modules (p : string) :
  Glob.parse "node_modules/**" =
    Ok [Glob.Seg (map Glob.Lit (chars "node_modules")); Glob.GlobStar] /\
  (Glob.matches true
     [Glob.Seg (map Glob.Lit (chars "node_modules")); Glob.GlobStar]
     (segments p) = true <-> below_root_dir "node_modules" p).
Proof.
  split; [reflexivity|].
  unfold below_root_dir. destruct (segments p) as [|s rest].
  - simpl. split; discriminate.
  - cbn [Glob.matches head]. rewrite matches_globstar_end, andb_true_r.
    unfold Glob.seg_match. rewrite orb_true_l, andb_true_l, wild_literal.
    split.
    + intros H. f_equal. now apply chars_inj.
    + now intros [= ->].
Qed.

Lemma seg_match_literal (dot : bool) (name s : string) :
  Glob.seg_match dot (map Glob.Lit (chars name)) s = true -> s = name.
Proof.
  unfold Glob.seg_match. intros H. apply andb_true_iff in H as [_ H].
  apply wild_literal in H. now apply chars_inj.
Qed.

Lemma getFiles_inv (fs : FS) (pattern : string) (files : list string) :
  getFiles fs pattern = Ok files ->
  exists pat,
    Glob.parse pattern = Ok pat /\
    files = List.filter
              (fun p => Glob.matches false pat (segments p)
                        && negb (Glob.matches true
                                   [Glob.Seg (map Glob.Lit (chars "node_modules"));
                                    Glob.GlobStar] (segments p)))
              (map fst fs).
Proof.
  unfold getFiles, Glob.glob.
  destruct (Glob.parse pattern) as [pat|e] eqn:Hpat; cbn [bind].
  - rewrite (proj1 (ignore_node_modules "")). cbn [bind].
    intros [= <-]. now exists pat.
  - destruct e; discriminate.
Qed.




Lemma split_go_app (sep : ascii) (cur a b : string) :
  split_go sep cur (a ++ String sep b)
  = (split_go sep cur a ++ split_go sep EmptyString b)%list.
Proof.
  revert cur; induction a as [|c a IH]; intros cur; simpl.
  - now rewrite Ascii.eqb_refl.
  - destruct (Ascii.eqb c sep); simpl; now rewrite IH.
Qed.

Lemma segments_index_pattern (catalogDir : string) :
  segments (catalogDir ++ "/**/index.md")
  = (segments catalogDir ++ ["**"; "index.md"])%list.
Proof.
  unfold segments, split.
  change "/**/index.md" with (String "/" "**/index.md").
  now rewrite split_go_app.
Qed.

Lemma traverse_app {A B : Type} (f : A -> result B) (xs ys : list A)
    (zs : list B) :
  traverse f (xs ++ ys) = Ok zs ->
  exists zs1 zs2,
    zs = (zs1 ++ zs2)%list /\ traverse f xs = Ok zs1 /\
    traverse f ys = Ok zs2.
Proof.
  revert zs; induction xs as [|x xs IH]; simpl; intros zs H.
  - now exists [], zs.
  - apply bind_Ok in H as (y & Hy & H).
    apply bind_Ok in H as (zs' & Hzs & [= <-]).
    apply IH in Hzs as (zs1 & zs2 & -> & H1 & H2).
    exists (y :: zs1), zs2. rewrite Hy, H1. simpl. auto.
Qed.

Lemma parse_index_pattern (catalogDir : string) (pat : list Glob.gseg) :
  Glob.parse (catalogDir ++ "/**/index.md") = Ok pat ->
  exists dir,
    pat = (dir ++ [Glob.GlobStar; Glob.Seg (map Glob.Lit (chars "index.md"))])
            %list.
Proof.
  unfold Glob.parse. rewrite segments_index_pattern. intros H.
  apply traverse_app in H as (dir & tail & -> & _ & H).
  exists dir. f_equal. now injection H.
Qed.

Lemma matches_last_segment (dot : bool) (dir : list Glob.gseg)
    (sp : list Glob.gchar) (p : list string) :
  Glob.matches dot (dir ++ [Glob.GlobStar; Glob.Seg sp]) p = true ->
  exists p' s, p = (p' ++ [s])%list /\ Glob.seg_match dot sp s = true.
Proof.
  revert p; induction dir as [|[|q] dir IH]; intros p.
  - induction p as [|s p IHp]; cbn; [discriminate|].
    intros H. apply orb_true_iff in H as [H|H].
    + apply andb_true_iff in H as [H1 H2].
      destruct p; [|discriminate]. now exists [], s.
    + apply andb_true_iff in H as [_ H].
      destruct (IHp H) as (p' & s' & -> & Hs). now exists (s :: p'), s'.
  - induction p as [|s p IHp]; cbn [app Glob.matches]; intros H.
    + apply orb_true_iff in H as [H|H]; [|discriminate]. now apply IH.
    + apply orb_true_iff in H as [H|H]; [now apply IH|].
      apply andb_true_iff in H as [_ H].
      destruct (IHp H) as (p' & s' & -> & Hs). now exists (s :: p'), s'.
  - destruct p as [|s p]; cbn [app Glob.matches]; [discriminate|].
    intros H. apply andb_true_iff in H as [_ H].
    destruct (IH _ H) as (p' & s' & -> & Hs). now exists (s :: p'), s'.
Qed.

Lemma readFile_listed (fs : FS) (file : string) :
  In file (map fst fs) -> file <> "" -> readable fs file.
Proof.
  intros Hin Hne. unfold readable, readFile.
  destruct (String.eqb_spec file ""); [contradiction|].
  destruct (find _ fs) as [e|] eqn:Hfind; [eauto|].
  apply in_map_iff in Hin as ([k c] & <- & Hin).
  eapply find_none in Hfind; [|exact Hin]. simpl in Hfind.
  now rewrite String.eqb_refl in Hfind.
Qed.

(** The lookups read documents called [index.md], all of them readable. *)
Lemma getFiles_index_md (fs : FS) (catalogDir : string)
    (files : list string) :
  getFiles fs (catalogDir ++ "/**/index.md") = Ok files ->
  Forall (fun file => last (segments file) = Some "index.md"
                      /\ readable fs file) files.
Proof.
  intros H. apply getFiles_inv in H as (pat & Hpat & ->).
  apply parse_index_pattern in Hpat as (dir & ->).
  apply List.Forall_forall. intros file Hin.
  apply filter_In in Hin as [Hin Hm].
  apply andb_true_iff in Hm as [Hm _].
  apply matches_last_segment in Hm as (p' & s & Hp & Hs).
  apply seg_match_literal in Hs as ->.
  assert (Hlast : last (segments file) = Some "index.md")
    by (rewrite Hp; apply last_snoc).
  split; [assumption|]. apply readFile_listed; [assumption|].
  intros ->. discriminate Hlast.
Qed.

(** ** What a search that returned has done *)

Lemma searchFilesForId_eq (fs : FS) (files : list string) (id : string)
    (version : option string) :
  searchFilesForId fs files id version =
  let* idRegex := RegExp.compile (idRegex_source id) in
  let* versionRegex := RegExp.compile (versionRegex_source version) in
  let* matches :=
    traverse
      (fun file =>
         let* content := readFile fs file in
         let hasIdMatch := RegExp.test idRegex content in
         if truthy version && negb (RegExp.test versionRegex content)
         then Ok None
         else if hasIdMatch then Ok (Some file)
         else Ok None)
      files in
  Ok (defined (List.filter Boolean matches)).
Proof. reflexivity. Qed.

Lemma searchFilesForId_inv (fs : FS) (files : list string) (id : string)
    (version : option string) (found : list string) :
  searchFilesForId fs files id version = Ok found ->
  exists idRegex versionRegex,
    RegExp.compile (idRegex_source id) = Ok idRegex /\
    RegExp.compile (versionRegex_source version) = Ok versionRegex /\
    Forall (readable fs) files /\
    found = List.filter (selected fs idRegex versionRegex version) files.
Proof.
  intros H. pose proof H as H'. rewrite searchFilesForId_eq in H'.
  apply bind_Ok in H' as (idRegex & Hid & H').
  apply bind_Ok in H' as (versionRegex & Hversion & H').
  apply bind_Ok in H' as (ms & Hms & _).
  assert (Hread : Forall (readable fs) files).
  { apply traverse_inv in Hms. clear -Hms.
    induction Hms as [|file m files ms Hfile _ IH]; constructor; [|exact IH].
    apply bind_Ok in Hfile as (content & Hcontent & _). now exists content. }
  exists idRegex, versionRegex. repeat split; try assumption.
  rewrite (searchFilesForId_filter _ _ _ _ _ _ Hid Hversion Hread) in H.
  now injection H.
Qed.

Lemma candidates_readable (fs : FS) (files : list string) (id : string)
    (version : option string) (candidates : list string) :
  searchFilesForId fs files id version = Ok candidates ->
  Forall (readable fs) candidates.
Proof.
  intros H. apply searchFilesForId_inv in H as (r1 & r2 & _ & _ & Hr & ->).
  apply List.Forall_forall. intros file Hin. apply filter_In in Hin as [Hin _].
  eapply List.Forall_forall in Hr; eauto.
Qed.

(** ** versionExists *)

(** C1, as the code has it: whenever the search over the [index.md] files
    found under the catalog returns, [versionExists] is true exactly when
    the text of one of them matches the id pattern and, for a non-empty
    version, the version pattern made of the requested version's text; the
    requested version is not read as a semver range. *)
Theorem versionExists_is_textual (fs : FS) (catalogDir id version : string)
    (files matched : list string) (idRegex versionRegex : RegExp.regex) :
  getFiles fs (catalogDir ++ "/**/index.md") = Ok files ->
  searchFilesForId fs files id (Some version) = Ok matched ->
  RegExp.compile (idRegex_source id) = Ok idRegex ->
  RegExp.compile (versionRegex_source (Some version)) = Ok versionRegex ->
  exists found,
    versionExists fs catalogDir id version = Ok found /\
    (found = true <->
     exists file,
       In file files /\
       RegExp.test idRegex (content_of fs file) = true /\
       (version = "" \/ RegExp.test versionRegex (content_of fs file) = true)).
Proof.
  intros Hfiles Hsearch Hid Hversion. unfold versionExists. rewrite Hfiles.
  cbn [bind].
  pose proof Hsearch as Hinv.
  apply searchFilesForId_inv in Hinv as (r1 & r2 & Hr1 & Hr2 & _ & Hmatched).
  rewrite Hid in Hr1. rewrite Hversion in Hr2.
  injection Hr1 as <-. injection Hr2 as <-.
  rewrite Hsearch. cbn [bind]. eexists. split; [reflexivity|].
  rewrite Hmatched.
  set (keep := selected fs idRegex versionRegex (Some version)).
  assert (Hkeep : forall file, keep file = true <->
    RegExp.test idRegex (content_of fs file) = true /\
    (version = "" \/ RegExp.test versionRegex (content_of fs file) = true)).
  { intros file. unfold keep, selected, truthy.
    rewrite andb_true_iff, orb_true_iff, negb_true_iff, negb_false_iff.
    now rewrite String.eqb_eq. }
  rewrite Nat.ltb_lt. split.
  - intros Hlen. destruct (List.filter keep files) as [|file l] eqn:Hl.
    + simpl in Hlen. lia.
    + exists file. rewrite <- Hkeep. apply filter_In.
      rewrite Hl. now left.
  - intros (file & Hin & Hsel). apply Hkeep in Hsel.
    assert (Hf : In file (List.filter keep files)) by now apply filter_In.
    destruct (List.filter keep files); [destruct Hf|simpl; lia].
Qed.

Lemma versionExists_is_textual_witness :
  let idRegex := regex_of (RegExp.compile (idRegex_source "foo")) in
  let versionRegex :=
    regex_of (RegExp.compile (versionRegex_source (Some "1.2.0"))) in
  getFiles foo_catalog ("catalog" ++ "/**/index.md")
    = Ok [foo_snapshot; foo_latest] /\
  searchFilesForId foo_catalog [foo_snapshot; foo_latest] "foo"
    (Some "1.2.0") = Ok [foo_snapshot] /\
  RegExp.compile (idRegex_source "foo") = Ok idRegex /\
  RegExp.compile (versionRegex_source (Some "1.2.0")) = Ok versionRegex /\
  exists found,
    versionExists foo_catalog "catalog" "foo" "1.2.0" = Ok found /\
    (found = true <->
     exists file,
       In file [foo_snapshot; foo_latest] /\
       RegExp.test idRegex (content_of foo_catalog file) = true /\
       ("1.2.0" = "" \/
        RegExp.test versionRegex (content_of foo_catalog file) = true)).
Proof.
  assert (H0 : getFiles foo_catalog ("catalog" ++ "/**/index.md")
               = Ok [foo_snapshot; foo_latest]) by reflexivity.
  assert (Hs : searchFilesForId foo_catalog [foo_snapshot; foo_latest] "foo"
                 (Some "1.2.0") = Ok [foo_snapshot])
    by (vm_compute; reflexivity).
  assert (H1 : RegExp.compile (idRegex_source "foo")
               = Ok (regex_of (RegExp.compile (idRegex_source "foo"))))
    by (vm_compute; reflexivity).
  assert (H2 : RegExp.compile (versionRegex_source (Some "1.2.0"))
               = Ok (regex_of
                       (RegExp.compile (versionRegex_source (Some "1.2.0")))))
    by (vm_compute; reflexivity).
  exact (conj H0 (conj Hs (conj H1 (conj H2
    (versionExists_is_textual foo_catalog "catalog" "foo" "1.2.0" _ _ _ _
       H0 Hs H1 H2))))).
Defined.

(** The claim of C1 as the specification words it fails for a range: the
    snapshot of [foo] carries the id and the version 1.2.0, which satisfies
    [^1.0.0], and [versionExists] answers false. *)
Lemma versionExists_range_counterexample :
  getFiles foo_catalog "catalog/**/index.md" = Ok [foo_snapshot; foo_latest]
  /\ readFile foo_catalog foo_snapshot = Ok (document "foo" "1.2.0")
  /\ data_id (@matter Reference.gray_matter (document "foo" "1.2.0")) = "foo"
  /\ @satisfies Reference.semver
       (data_version (@matter Reference.gray_matter (document "foo" "1.2.0")))
       "^1.0.0" = true
  /\ versionExists foo_catalog "catalog" "foo" "^1.0.0" = Ok false.
Proof.
  vm_compute. repeat split.
Qed.

(** ** findFileById *)

Lemma string_prefix_app (sub s : string) :
  String.prefix sub s = true <-> exists after, s = (sub ++ after)%string.
Proof.
  revert s; induction sub as [|c sub IH]; intros s.
  - destruct s; simpl; (split; [eauto|reflexivity]).
  - destruct s as [|d s]; simpl.
    + split; [discriminate|]. now intros [after [=]].
    + destruct (ascii_dec c d) as [->|Hne].
      * rewrite IH. split; intros [after Hs]; exists after.
        -- simpl. now rewrite Hs.
        -- now injection Hs.
      * split; [discriminate|]. intros [after [= Hcd _]]. congruence.
Qed.

Lemma includes_contains (sub s : string) :
  includes sub s = true <-> contains sub s.
Proof.
  unfold contains. induction s as [|c s IH]; cbn [includes];
    rewrite orb_true_iff, string_prefix_app.
  - split.
    + intros [[after H]|H]; [|discriminate]. now exists "", after.
    + intros (before & after & H). left.
      destruct before; [now exists after|discriminate].
  - rewrite IH. split.
    + intros [[after H]|(before & after & H)].
      * now exists "", after.
      * exists (String c before), after. simpl. now rewrite H.
    + intros ([|d before] & after & H).
      * left. now exists after.
      * right. injection H as _ H. now exists before, after.
Qed.

Lemma find_first {A : Type} (f : A -> bool) (l : list A) :
  match find f l with
  | Some x =>
      exists before after,
        l = (before ++ x :: after)%list /\ f x = true /\
        Forall (fun y => f y = false) before
  | None => Forall (fun y => f y = false) l
  end.
Proof.
  induction l as [|y l IH]; simpl; [constructor|].
  destruct (f y) eqn:Hy.
  - now exists [], l.
  - destruct (find f l) as [x|].
    + destruct IH as (before & after & -> & Hx & Hbefore).
      exists (y :: before), after. repeat split; auto.
    + now constructor.
Qed.

Lemma forallb_insert_sorted {A : Type} (cmp : A -> A -> Z) (f : A -> bool)
    (x : A) (l : list A) :
  forallb f (insert_sorted cmp x l) = f x && forallb f l.
Proof.
  induction l as [|y l IH]; simpl; [reflexivity|].
  destruct (0 <? cmp x y)%Z; simpl; [|reflexivity].
  rewrite IH. now destruct (f x), (f y).
Qed.

Lemma forallb_sort {A : Type} (cmp : A -> A -> Z) (f : A -> bool)
    (l : list A) :
  forallb f (sort cmp l) = forallb f l.
Proof.
  induction l as [|x l IH]; simpl; [reflexivity|].
  now rewrite forallb_insert_sorted, IH.
Qed.

Lemma last_insert_sorted {A : Type} (cmp : A -> A -> Z) (x : A)
    (l : list A) :
  last (insert_sorted cmp x l)
  = if forallb (fun y => (0 <? cmp x y)%Z) l then Some x else last l.
Proof.
  induction l as [|y l IH]; simpl; [reflexivity|].
  destruct (0 <? cmp x y)%Z; simpl; [|reflexivity].
  destruct (insert_sorted cmp x l) as [|z l'] eqn:Hins.
  { destruct l; simpl in Hins; [discriminate|].
    destruct (0 <? cmp x a)%Z; discriminate. }
  change (last (y :: z :: l')) with (last (z :: l')). rewrite IH.
  destruct (forallb _ l) eqn:Hall; [reflexivity|].
  destruct l; [discriminate|reflexivity].
Qed.

Lemma last_sort {A : Type} (cmp : A -> A -> Z) (l : list A) :
  last (sort cmp l) = latest cmp l.
Proof.
  induction l as [|x l IH]; simpl; [reflexivity|].
  now rewrite last_insert_sorted, forallb_sort, IH.
Qed.

Lemma forallb_false_exists {A : Type} (f : A -> bool) (l : list A) :
  forallb f l = false -> exists y, In y l /\ f y = false.
Proof.
  induction l as [|x l IH]; simpl; [discriminate|].
  destruct (f x) eqn:Hx; simpl.
  - intros Hl. destruct (IH Hl) as (y & Hy & Hfy). eauto.
  - eauto.
Qed.

(** For a total preorder, [latest] is the last of the greatest elements. *)
Lemma latest_greatest {A : Type} (cmp : A -> A -> Z) (l : list A) :
  (forall a b, Z.sgn (cmp b a) = (- Z.sgn (cmp a b))%Z) ->
  (forall a b c, (cmp a b <= 0)%Z -> (cmp b c <= 0)%Z -> (cmp a c <= 0)%Z) ->
  match latest cmp l with
  | Some m =>
      exists before after,
        l = (before ++ m :: after)%list /\
        Forall (fun y => (cmp y m <= 0)%Z) before /\
        Forall (fun y => (cmp y m < 0)%Z) after
  | None => l = []
  end.
Proof.
  intros Hflip Htrans.
  induction l as [|x l IH]; simpl; [reflexivity|].
  destruct (forallb _ l) eqn:Hall.
  - exists [], l. repeat split; [constructor|].
    apply List.Forall_forall. intros y Hy.
    eapply forallb_forall in Hall; [|exact Hy]. apply Z.ltb_lt in Hall.
    specialize (Hflip x y). lia.
  - destruct (latest cmp l) as [m|]; [|subst l; discriminate].
    destruct IH as (before & after & -> & Hbefore & Hafter).
    exists (x :: before), after. repeat split; [|assumption].
    constructor; [|assumption].
    assert (Hle : forall y, In y (before ++ m :: after) -> (cmp y m <= 0)%Z).
    { intros y Hy. apply in_app_or in Hy as [Hy|[<-|Hy]].
      - eapply List.Forall_forall in Hbefore; eauto.
      - specialize (Hflip m m). lia.
      - eapply List.Forall_forall in Hafter; eauto. simpl in Hafter. lia. }
    destruct (forallb_false_exists _ _ Hall) as (y & Hy & Hxy).
    apply Z.ltb_ge in Hxy. eapply Htrans; [exact Hxy|]. now apply Hle.
Qed.

Section FindFileByIdProperties.
Context `{SemVer} `{GrayMatter} `{Collator}.

Lemma findFileById_eq (fs : FS) (catalogDir id : string)
    (version_arg : option string) :
  findFileById fs catalogDir id version_arg =
  let* files := getFiles fs (catalogDir ++ "/**/index.md") in
  let* matchedFiles := searchFilesForId fs files id None in
  let latestVersion :=
    find (fun path => negb (includes "versioned" path)) matchedFiles in
  match version_arg with
  | None => Ok latestVersion
  | Some version_ =>
      if String.eqb version_ "" then Ok latestVersion
      else
        let* parsedFiles :=
          traverse
            (fun path =>
               let* content := readFile fs path in
               Ok {| version := data_version (matter content);
                     path := path |})
            matchedFiles in
        let semverRange := validRange version_ in
        match semverRange, truthy semverRange && truthy (valid version_) with
        | Some range, true =>
            let match_ :=
              List.filter (fun c => satisfies (version c) range)
                          parsedFiles in
            Ok (option_map path (head match_))
        | _, _ =>
            let sorted :=
              sort (fun a b => localeCompare (version a) (version b))
                   parsedFiles in
            Ok (option_map path (last sorted))
        end
  end.
Proof. reflexivity. Qed.

Lemma parsedFiles_Ok (fs : FS) (candidates : list string) :
  Forall (readable fs) candidates ->
  traverse
    (fun path =>
       let* content := readFile fs path in
       Ok {| version := data_version (matter content); path := path |})
    candidates
  = Ok (map (parsed fs) candidates).
Proof.
  intros Hread. apply traverse_Ok.
  eapply List.Forall_impl; [|exact Hread].
  intros file [content Hc]. unfold parsed, version_of, content_of.
  now rewrite Hc.
Qed.

(** A version argument that is not both a range and a concrete version
    selects the last candidate in the order of the versions. *)
Lemma findFileById_fallback (fs : FS) (catalogDir id v : string)
    (files candidates : list string) :
  getFiles fs (catalogDir ++ "/**/index.md") = Ok files ->
  searchFilesForId fs files id None = Ok candidates ->
  v <> "" ->
  truthy (validRange v) && truthy (valid v) = false ->
  findFileById fs catalogDir id (Some v)
  = Ok (option_map path (latest by_version (map (parsed fs) candidates))).
Proof.
  intros Hfiles Hcandidates Hv Hguard. rewrite findFileById_eq, Hfiles.
  cbn [bind]. rewrite Hcandidates. cbn [bind].
  destruct (String.eqb_spec v ""); [contradiction|].
  rewrite (parsedFiles_Ok _ _ (candidates_readable _ _ _ _ _ Hcandidates)).
  cbn [bind].
  change (fun a b : Parsed => localeCompare (version a) (version b))
    with by_version.
  rewrite last_sort.
  destruct (validRange v) as [range|]; [|reflexivity].
  now rewrite Hguard.
Qed.

Lemma map_parsed_split (fs : FS) (candidates : list string)
    (before after : list Parsed) (m : Parsed) :
  map (parsed fs) candidates = (before ++ m :: after)%list ->
  exists cb ca,
    candidates = (cb ++ path m :: ca)%list /\
    before = map (parsed fs) cb /\ after = map (parsed fs) ca /\
    version m = version_of fs (path m).
Proof.
  intros Hmap. apply map_eq_app in Hmap as (cb & rest & -> & <- & Hrest).
  apply map_eq_cons in Hrest as (p & ca & -> & <- & <-).
  now exists cb, ca.
Qed.

(** C3, as the code has it: without a version argument, [findFileById]
    returns the first candidate whose path does not contain the text
    [versioned], and nothing when every candidate's path contains it. *)
Theorem findFileById_without_version (fs : FS) (catalogDir id : string)
    (files candidates : list string) :
  getFiles fs (catalogDir ++ "/**/index.md") = Ok files ->
  searchFilesForId fs files id None = Ok candidates ->
  exists found,
    findFileById fs catalogDir id None = Ok found /\
    match found with
    | Some p =>
        exists before after,
          candidates = (before ++ p :: after)%list /\
          ~ contains "versioned" p /\
          Forall (contains "versioned") before
    | None => Forall (contains "versioned") candidates
    end.
Proof.
  intros Hfiles Hcandidates. rewrite findFileById_eq, Hfiles.
  cbn [bind]. rewrite Hcandidates. cbn [bind].
  eexists. split; [reflexivity|].
  pose proof (find_first (fun path => negb (includes "versioned" path))
                candidates) as Hfind.
  assert (Hall : forall l,
    Forall (fun y => negb (includes "versioned" y) = false) l ->
    Forall (contains "versioned") l).
  { intros l. apply List.Forall_impl. intros p Hp.
    apply includes_contains. now apply negb_false_iff. }
  destruct (find _ candidates) as [p|].
  - destruct Hfind as (before & after & -> & Hp & Hbefore).
    exists before, after. repeat split; [|now apply Hall].
    rewrite <- includes_contains. now apply negb_true_iff in Hp as ->.
  - now apply Hall.
Qed.

(** C4, as the code has it: for a non-empty version argument that is not
    both a valid range and a valid concrete version, and candidates whose
    front matter carries a string version ([version_at q] for the candidate
    [q]), [findFileById] returns the candidate whose version is greatest in
    the collation order, the last of them if several are, and nothing when
    there is no candidate. *)
Theorem findFileById_fallback_is_latest (fs : FS) (catalogDir id v : string)
    (files candidates : list string) (version_at : string -> string) :
  getFiles fs (catalogDir ++ "/**/index.md") = Ok files ->
  searchFilesForId fs files id None = Ok candidates ->
  (forall q, In q candidates -> version_of fs q = version_at q) ->
  v <> "" ->
  truthy (validRange v) && truthy (valid v) = false ->
  exists found,
    findFileById fs catalogDir id (Some v) = Ok found /\
    match found with
    | Some p =>
        exists before after,
          candidates = (before ++ p :: after)%list /\
          Forall (fun q => (localeCompare (version_at q)
                                          (version_at p) <= 0)%Z) before /\
          Forall (fun q => (localeCompare (version_at q)
                                          (version_at p) < 0)%Z) after
    | None => candidates = []
    end.
Proof.
  intros Hfiles Hcandidates Hversions Hv Hguard.
  rewrite (findFileById_fallback _ _ _ _ _ _ Hfiles Hcandidates Hv Hguard).
  eexists. split; [reflexivity|].
  pose proof (latest_greatest by_version (map (parsed fs) candidates)) as Hl.
  destruct (latest by_version (map (parsed fs) candidates)) as [m|]; simpl.
  - destruct Hl as (before & after & Hsplit & Hbefore & Hafter).
    { intros a b. apply localeCompare_flip. }
    { intros a b c. apply localeCompare_trans. }
    apply map_parsed_split in Hsplit as (cb & ca & -> & -> & -> & Hm).
    exists cb, ca. split; [reflexivity|].
    unfold by_version in Hbefore, Hafter. rewrite Hm in Hbefore, Hafter.
    assert (Hp : version_of fs (path m) = version_at (path m)).
    { apply Hversions, in_or_app. right. now left. }
    split; apply List.Forall_forall; intros q Hq.
    + rewrite <- Hp, <- (Hversions q); [|apply in_or_app; now left].
      exact (proj1 (List.Forall_forall _ _) Hbefore (parsed fs q)
                   (in_map _ _ _ Hq)).
    + rewrite <- Hp, <- (Hversions q);
        [|apply in_or_app; right; now right].
      exact (proj1 (List.Forall_forall _ _) Hafter (parsed fs q)
                   (in_map _ _ _ Hq)).
  - destruct candidates; [reflexivity|].
    discriminate Hl; [intros a b; apply localeCompare_flip
                     |intros a b c; apply localeCompare_trans].
Qed.

(** C2, as the code has it: [^1.0.0] is a range but not a concrete version,
    so the range is not applied; of the two candidates the one with version
    2.0.0 comes last in the order of the versions and is returned. *)
Theorem findFileById_caret_range_falls_back (fs : FS)
    (catalogDir id : string) (files candidates : list string)
    (A B : string) :
  getFiles fs (catalogDir ++ "/**/index.md") = Ok files ->
  searchFilesForId fs files id None = Ok candidates ->
  candidates = [A; B] \/ candidates = [B; A] ->
  version_of fs A = "1.2.0" ->
  version_of fs B = "2.0.0" ->
  valid "^1.0.0" = None ->
  (localeCompare "1.2.0" "2.0.0" < 0)%Z ->
  findFileById fs catalogDir id (Some "^1.0.0") = Ok (Some B).
Proof.
  intros Hfiles Hcandidates Horder HA HB Hvalid Hlt.
  rewrite (findFileById_fallback _ _ _ _ _ _ Hfiles Hcandidates).
  2: discriminate.
  2:{ rewrite Hvalid. apply andb_false_r. }
  pose proof (localeCompare_flip "1.2.0" "2.0.0") as Hflip.
  destruct Horder as [-> | ->]; cbn [map latest forallb];
    unfold by_version, parsed; cbn [version]; rewrite HA, HB.
  - destruct (Z.ltb_spec 0 (localeCompare "1.2.0" "2.0.0")); [lia|].
    reflexivity.
  - destruct (Z.ltb_spec 0 (localeCompare "2.0.0" "1.2.0")); [reflexivity|].
    lia.
Qed.

End FindFileByIdProperties.

Lemma findFileById_without_version_witness :
  getFiles foo_catalog ("catalog" ++ "/**/index.md")
    = Ok [foo_snapshot; foo_latest] /\
  searchFilesForId foo_catalog [foo_snapshot; foo_latest] "foo" None
    = Ok [foo_snapshot; foo_latest] /\
  exists found,
    @findFileById Reference.semver Reference.gray_matter Reference.collator
      foo_catalog "catalog" "foo" None = Ok found /\
    match found with
    | Some p =>
        exists before after,
          [foo_snapshot; foo_latest] = (before ++ p :: after)%list /\
          ~ contains "versioned" p /\
          Forall (contains "versioned") before
    | None => Forall (contains "versioned") [foo_snapshot; foo_latest]
    end.
Proof.
  assert (H0 : getFiles foo_catalog ("catalog" ++ "/**/index.md")
               = Ok [foo_snapshot; foo_latest]) by reflexivity.
  assert (H1 : searchFilesForId foo_catalog [foo_snapshot; foo_latest] "foo"
                 None = Ok [foo_snapshot; foo_latest])
    by (vm_compute; reflexivity).
  exact (conj H0 (conj H1
    (@findFileById_without_version Reference.semver Reference.gray_matter
       Reference.collator foo_catalog "catalog" "foo" _ _ H0 H1))).
Defined.

(** The claim of C3 as the specification words it fails for a path that
    contains the word inside a segment: no segment of the only candidate is
    [versioned], and [findFileById] returns nothing. *)
Lemma findFileById_segment_counterexample :
  getFiles events_catalog "catalog/**/index.md" = Ok [document_versioned]
  /\ searchFilesForId events_catalog [document_versioned]
       "document-versioned" None = Ok [document_versioned]
  /\ ~ has_segment "versioned" document_versioned
  /\ @findFileById Reference.semver Reference.gray_matter Reference.collator
       events_catalog "catalog" "document-versioned" None = Ok None.
Proof.
  split; [reflexivity|]. split; [vm_compute; reflexivity|].
  split; [|vm_compute; reflexivity].
  vm_compute. intros [H|[H|[H|[H|[]]]]]; discriminate H.
Qed.

Lemma findFileById_caret_range_falls_back_witness :
  getFiles foo_catalog ("catalog" ++ "/**/index.md")
    = Ok [foo_snapshot; foo_latest] /\
  searchFilesForId foo_catalog [foo_snapshot; foo_latest] "foo" None
    = Ok [foo_snapshot; foo_latest] /\
  ([foo_snapshot; foo_latest] = [foo_snapshot; foo_latest]
   \/ [foo_snapshot; foo_latest] = [foo_latest; foo_snapshot]) /\
  @version_of Reference.gray_matter foo_catalog foo_snapshot = "1.2.0" /\
  @version_of Reference.gray_matter foo_catalog foo_latest = "2.0.0" /\
  @valid Reference.semver "^1.0.0" = None /\
  (@localeCompare Reference.collator "1.2.0" "2.0.0" < 0)%Z /\
  @findFileById Reference.semver Reference.gray_matter Reference.collator
    foo_catalog "catalog" "foo" (Some "^1.0.0") = Ok (Some foo_latest).
Proof.
  assert (H0 : getFiles foo_catalog ("catalog" ++ "/**/index.md")
               = Ok [foo_snapshot; foo_latest]) by reflexivity.
  assert (H1 : searchFilesForId foo_catalog [foo_snapshot; foo_latest] "foo"
                 None = Ok [foo_snapshot; foo_latest])
    by (vm_compute; reflexivity).
  assert (H2 : [foo_snapshot; foo_latest] = [foo_snapshot; foo_latest]
               \/ [foo_snapshot; foo_latest] = [foo_latest; foo_snapshot])
    by (left; reflexivity).
  assert (H3 : @version_of Reference.gray_matter foo_catalog foo_snapshot
               = "1.2.0") by (vm_compute; reflexivity).
  assert (H4 : @version_of Reference.gray_matter foo_catalog foo_latest
               = "2.0.0") by (vm_compute; reflexivity).
  assert (H5 : @valid Reference.semver "^1.0.0" = None)
    by (vm_compute; reflexivity).
  assert (H6 : (@localeCompare Reference.collator "1.2.0" "2.0.0" < 0)%Z)
    by (vm_compute; reflexivity).
  exact (conj H0 (conj H1 (conj H2 (conj H3 (conj H4 (conj H5 (conj H6
    (@findFileById_caret_range_falls_back Reference.semver
       Reference.gray_matter Reference.collator foo_catalog "catalog" "foo"
       _ _ foo_snapshot foo_latest H0 H1 H2 H3 H4 H5 H6)))))))).
Defined.

(** The claim of C2 as the specification words it fails: the candidates are
    the snapshot (1.2.0, which satisfies [^1.0.0]) and the latest document
    (2.0.0, which does not), and [findFileById] returns the latest. *)
Lemma findFileById_caret_range_counterexample :
  searchFilesForId foo_catalog [foo_snapshot; foo_latest] "foo" None
    = Ok [foo_snapshot; foo_latest]
  /\ @version_of Reference.gray_matter foo_catalog foo_snapshot = "1.2.0"
  /\ @version_of Reference.gray_matter foo_catalog foo_latest = "2.0.0"
  /\ @validRange Reference.semver "^1.0.0" = Some ">=1.0.0 <2.0.0-0"
  /\ @satisfies Reference.semver "1.2.0" ">=1.0.0 <2.0.0-0" = true
  /\ @satisfies Reference.semver "2.0.0" ">=1.0.0 <2.0.0-0" = false
  /\ @findFileById Reference.semver Reference.gray_matter Reference.collator
       foo_catalog "catalog" "foo" (Some "^1.0.0") = Ok (Some foo_latest)
  /\ foo_latest <> foo_snapshot.
Proof.
  vm_compute. repeat split. discriminate.
Qed.

Lemma findFileById_fallback_is_latest_witness :
  let version_at :=
    fun q => if String.eqb q bar_a then "a-draft" else "b-draft" in
  getFiles drafts_catalog ("catalog" ++ "/**/index.md")
    = Ok [bar_a; bar_b] /\
  searchFilesForId drafts_catalog [bar_a; bar_b] "bar" None
    = Ok [bar_a; bar_b] /\
  (forall q, In q [bar_a; bar_b] ->
             @version_of Reference.gray_matter drafts_catalog q
             = version_at q) /\
  "latest-draft" <> "" /\
  truthy (@validRange Reference.semver "latest-draft")
  && truthy (@valid Reference.semver "latest-draft") = false /\
  @findFileById Reference.semver Reference.gray_matter Reference.collator
    drafts_catalog "catalog" "bar" (Some "latest-draft") = Ok (Some bar_b) /\
  exists found,
    @findFileById Reference.semver Reference.gray_matter Reference.collator
      drafts_catalog "catalog" "bar" (Some "latest-draft") = Ok found /\
    match found with
    | Some p =>
        exists before after,
          [bar_a; bar_b] = (before ++ p :: after)%list /\
          Forall (fun q =>
                    (@localeCompare Reference.collator
                       (version_at q) (version_at p) <= 0)%Z) before /\
          Forall (fun q =>
                    (@localeCompare Reference.collator
                       (version_at q) (version_at p) < 0)%Z) after
    | None => [bar_a; bar_b] = []
    end.
Proof.
  intros version_at.
  assert (H0 : getFiles drafts_catalog ("catalog" ++ "/**/index.md")
               = Ok [bar_a; bar_b]) by reflexivity.
  assert (H1 : searchFilesForId drafts_catalog [bar_a; bar_b] "bar" None
               = Ok [bar_a; bar_b]) by (vm_compute; reflexivity).
  assert (Hversions : forall q, In q [bar_a; bar_b] ->
             @version_of Reference.gray_matter drafts_catalog q
             = version_at q)
    by (intros q [<-|[<-|[]]]; vm_compute; reflexivity).
  assert (H2 : "latest-draft" <> "") by discriminate.
  assert (H3 : truthy (@validRange Reference.semver "latest-draft")
               && truthy (@valid Reference.semver "latest-draft") = false)
    by (vm_compute; reflexivity).
  assert (H4 : @findFileById Reference.semver Reference.gray_matter
                 Reference.collator drafts_catalog "catalog" "bar"
                 (Some "latest-draft") = Ok (Some bar_b))
    by (vm_compute; reflexivity).
  exact (conj H0 (conj H1 (conj Hversions (conj H2 (conj H3 (conj H4
    (@findFileById_fallback_is_latest Reference.semver Reference.gray_matter
       Reference.collator drafts_catalog "catalog" "bar" "latest-draft"
       _ _ version_at H0 H1 Hversions H2 H3))))))).
Defined.

(** The claim of C4 as the specification words it fails for the empty
    version argument: it is not a concrete version, the greatest version is
    that of the second candidate, and [findFileById] returns the first,
    whose path is the one without [versioned]. *)
Lemma findFileById_empty_version_counterexample :
  searchFilesForId drafts_catalog [bar_a; bar_b] "bar" None
    = Ok [bar_a; bar_b]
  /\ @valid Reference.semver "" = None
  /\ (@localeCompare Reference.collator
        (@version_of Reference.gray_matter drafts_catalog bar_a)
        (@version_of Reference.gray_matter drafts_catalog bar_b) < 0)%Z
  /\ @findFileById Reference.semver Reference.gray_matter Reference.collator
       drafts_catalog "catalog" "bar" (Some "") = Ok (Some bar_a)
  /\ bar_a <> bar_b.
Proof.
  vm_compute. repeat split. discriminate.
Qed.

(** ** copyDir *)

Import Tree.

Lemma elem_of_chain (p q : path) :
  q ∈ chain p <-> q <> [] /\ q `prefix_of` p.
Proof.
  unfold chain. rewrite list_elem_of_fmap. split.
  - intros (n & -> & Hn). apply elem_of_seq in Hn. split.
    + intros Hnil. apply (f_equal length) in Hnil.
      rewrite length_take in Hnil. simpl in Hnil. lia.
    + apply prefix_take.
  - intros [Hne [k ->]]. exists (length q). split.
    + now rewrite take_app_length.
    + apply elem_of_seq. rewrite length_app.
      destruct q; [contradiction|simpl; lia].
Qed.

Lemma lookup_foldr_insert_dir (fs : tree) (l : list path) (k : path) :
  foldr (fun q acc => <[q := Dir]> acc) fs l !! k
  = if decide (k ∈ l) then Some Dir else fs !! k.
Proof.
  induction l as [|q l IH]; simpl.
  - destruct (decide (k ∈ [])) as [Hin|_]; [|reflexivity].
    now apply elem_of_nil in Hin.
  - destruct (decide (q = k)) as [->|Hne].
    + rewrite lookup_insert_eq.
      destruct (decide (k ∈ k :: l)) as [_|Hout]; [reflexivity|].
      destruct Hout. apply elem_of_cons. now left.
    + rewrite lookup_insert_ne, IH by assumption.
      destruct (decide (k ∈ l)) as [Hin|Hout],
               (decide (k ∈ q :: l)) as [Hin'|Hout']; try reflexivity.
      * destruct Hout'. apply elem_of_cons. now right.
      * apply elem_of_cons in Hin' as [->|Hin']; [contradiction|].
        contradiction.
Qed.

(** [mkdirs] adds the missing directories on the way and changes nothing
    else. *)
Lemma mkdirs_lookup (fs fs' : tree) (p k : path) :
  mkdirs fs p = Ok fs' ->
  fs' !! k = Some Dir /\ k <> [] /\ k `prefix_of` p
  \/ fs' !! k = fs !! k /\ (k <> [] -> k `prefix_of` p -> fs !! k = Some Dir).
Proof.
  unfold mkdirs. destruct (existsb (is_file fs) (chain p)) eqn:Hfile;
    [discriminate|]. intros [= <-].
  rewrite lookup_foldr_insert_dir.
  destruct (decide (k ∈ chain p)) as [Hin|Hout].
  - left. apply elem_of_chain in Hin as [Hne Hpre]. auto.
  - right. split; [reflexivity|]. intros Hne Hpre. destruct Hout.
    now apply elem_of_chain.
Qed.

Lemma mkdirs_preserves (fs fs' : tree) (p k : path) (n : node) :
  mkdirs fs p = Ok fs' -> fs !! k = Some n -> fs' !! k = Some n.
Proof.
  intros Hmk Hk. pose proof Hmk as Hmk'. unfold mkdirs in Hmk'.
  destruct (existsb (is_file fs) (chain p)) eqn:Hfile; [discriminate|].
  destruct (mkdirs_lookup _ _ _ k Hmk) as [(Hdir & Hne & Hpre)|[Heq _]].
  - rewrite Hdir. f_equal.
    assert (Hin : In k (chain p))
      by now apply list_elem_of_In, elem_of_chain.
    assert (Hnf : is_file fs k = false).
    { destruct (is_file fs k) eqn:Hf; [|reflexivity].
      rewrite <- Hfile. symmetry. apply existsb_exists. eauto. }
    unfold is_file, node_at in Hnf. destruct k; [contradiction|].
    rewrite Hk in Hnf. now destruct n.
  - now rewrite Heq.
Qed.

Lemma strip_Some (dir k rel : path) :
  strip dir k = Some rel <-> k = dir ++ rel.
Proof.
  unfold strip. destruct (decide (dir `prefix_of` k)) as [[k' ->]|Hn].
  - rewrite drop_app_length. split; [now intros [= ->]|].
    intros Heq. now apply app_inv_head in Heq as ->.
  - split; [discriminate|]. intros ->. destruct Hn. now exists rel.
Qed.

Lemma strip_None (dir k : path) :
  strip dir k = None <-> ~ dir `prefix_of` k.
Proof.
  unfold strip. destruct (decide (dir `prefix_of` k)); split; try tauto;
    try discriminate.
Qed.

Lemma entries_under_lookup (fs : tree) (dir rel : path) :
  entries_under fs dir !! rel = fs !! (dir ++ rel).
Proof.
  unfold entries_under.
  set (g := fun kn : path * node =>
              (fun rel => (rel, kn.2)) <$> strip dir kn.1).
  assert (Hin : forall n,
    (rel, n) ∈ omap g (map_to_list fs) <-> fs !! (dir ++ rel) = Some n).
  { intros n. rewrite list_elem_of_omap. split.
    - intros ([k m] & Hk & Hg). apply elem_of_map_to_list in Hk.
      unfold g in Hg. simpl in Hg.
      destruct (strip dir k) as [rel'|] eqn:Hs; [|discriminate].
      injection Hg as -> ->. apply strip_Some in Hs as ->. exact Hk.
    - intros Hk. exists (dir ++ rel, n). split.
      + now apply elem_of_map_to_list.
      + unfold g. simpl. now rewrite (proj2 (strip_Some dir _ rel) eq_refl). }
  apply option_eq. intros n. rewrite <- Hin.
  symmetry. apply elem_of_list_to_map'.
  intros n' H1 H2. apply Hin in H1, H2. congruence.
Qed.

Lemma rm_recursive_lookup (fs fs' : tree) (p k : path) :
  rm_recursive fs p = Ok fs' ->
  fs' !! k = if decide (p `prefix_of` k) then None else fs !! k.
Proof.
  unfold rm_recursive. destruct (node_at fs p) as [stat|]; [|discriminate].
  intros [= <-]. destruct (decide (p `prefix_of` k)) as [Hp|Hp].
  - apply map_lookup_filter_None. right. intros m _ Hm. now apply Hm.
  - destruct (fs !! k) as [m|] eqn:Hk.
    + now apply map_lookup_filter_Some.
    + apply map_lookup_filter_None. now left.
Qed.

#[local] Instance app_path_inj (dest : path) : Inj (=) (=) (app dest).
Proof. intros x y. apply app_inv_head. Qed.

(** What a successful [copy] checked and what it wrote. *)
Lemma copy_inv (fs fs' : tree) (src dest : path) :
  copy fs src dest None = Ok fs' ->
  exists srcStat fs1,
    node_at fs src = Some srcStat /\
    compatible fs dest ([], srcStat) = true /\
    (is_dir srcStat = true -> ~ src `prefix_of` dest) /\
    mkdirs fs (dirname dest) = Ok fs1 /\
    (forall rel n, fs1 !! (src ++ rel) = Some n ->
                   ~ src `prefix_of` dest ++ rel) /\
    (forall k,
       fs' !! k = match strip dest k with
                  | Some rel =>
                      match fs1 !! (src ++ rel) with
                      | Some n => Some n
                      | None => fs1 !! k
                      end
                  | None => fs1 !! k
                  end).
Proof.
  unfold copy. destruct (node_at fs src) as [srcStat|]; [|discriminate].
  destruct (decide (src = dest)); [discriminate|].
  destruct (compatible fs dest ([], srcStat)) eqn:Hcompat; [|discriminate].
  cbn [negb].
  destruct (is_dir srcStat && bool_decide (src `prefix_of` dest)) eqn:Hsub;
    [discriminate|].
  cbn [included negb].
  destruct (mkdirs fs (dirname dest)) as [fs1|] eqn:Hmk; [|discriminate].
  cbn [bind].
  destruct (forallb _ _); [|discriminate]. cbn [negb].
  destruct (existsb _ _) eqn:Hinter; [discriminate|].
  intros [= <-]. exists srcStat, fs1.
  split; [reflexivity|]. split; [assumption|]. split; [|split; [reflexivity|]].
  { intros Hdir Hpre. rewrite Hdir in Hsub.
    now rewrite (bool_decide_eq_true_2 _ Hpre) in Hsub. }
  split.
  - intros rel m Hrel Hpre.
    rewrite <- entries_under_lookup in Hrel.
    apply elem_of_map_to_list, list_elem_of_In in Hrel.
    assert (Hex : existsb (fun e : path * node =>
                     bool_decide (src `prefix_of` dest ++ e.1))
                    (map_to_list (entries_under fs1 src)) = true).
    { apply existsb_exists. exists (rel, m). split; [exact Hrel|].
      now apply bool_decide_eq_true_2. }
    congruence.
  - intros k. destruct (strip dest k) as [rel|] eqn:Hs.
    + apply strip_Some in Hs as ->.
      pose proof (lookup_kmap (M2 := gmap (list string)) (app dest)
                    (entries_under fs1 src) rel) as Hmoved.
      rewrite entries_under_lookup in Hmoved.
      destruct (fs1 !! (src ++ rel)) as [m|] eqn:Hm.
      * rewrite lookup_union_l'; [exact Hmoved|]. rewrite Hmoved. eauto.
      * now apply lookup_union_r.
    + apply lookup_union_r.
      apply (lookup_kmap_None (M2 := gmap (list string)) (app dest)).
      intros rel ->. apply strip_None in Hs. destruct Hs. now exists rel.
Qed.

Lemma dirname_prefix (p : path) : dirname p `prefix_of` p.
Proof.
  unfold dirname. destruct (decide (p = [])) as [->|Hne].
  - reflexivity.
  - exists [List.last p ""]. now apply app_removelast_last.
Qed.

Lemma dirname_join (dir : path) (name : string) :
  dirname (join dir name) = dir.
Proof. apply removelast_last. Qed.

Lemma join_not_prefix (dir rel : path) (name : string) :
  ~ join dir name ++ rel `prefix_of` dir.
Proof.
  intros Hpre. apply prefix_length in Hpre. unfold join in Hpre.
  rewrite !length_app in Hpre. simpl in Hpre. lia.
Qed.

Lemma below_not_prefix_of_dirname (p rel : path) :
  p ++ rel <> [] -> ~ p ++ rel `prefix_of` dirname p.
Proof.
  intros Hne Hpre. destruct (decide (p = [])) as [->|Hp].
  - apply prefix_nil_inv in Hpre. contradiction.
  - apply prefix_length in Hpre. unfold dirname in Hpre.
    rewrite length_app in Hpre.
    rewrite (app_removelast_last "" Hp) in Hpre at 1.
    rewrite length_app in Hpre. simpl in Hpre. lia.
Qed.

(** After [mkdirs fs p], an entry that is not on the way to [p] is an entry
    of [fs]. *)
Lemma mkdirs_lookup_off (fs fs' : tree) (p k : path) (n : node) :
  mkdirs fs p = Ok fs' -> fs' !! k = Some n -> ~ k `prefix_of` p ->
  fs !! k = Some n.
Proof.
  intros Hmk Hk Hoff.
  destruct (mkdirs_lookup _ _ _ k Hmk) as [(_ & _ & Hpre)|[Heq _]].
  - contradiction.
  - now rewrite <- Heq.
Qed.

Lemma mkdirs_lookup_eq (fs fs' : tree) (p k : path) :
  mkdirs fs p = Ok fs' -> ~ k `prefix_of` p -> fs' !! k = fs !! k.
Proof.
  intros Hmk Hoff.
  destruct (mkdirs_lookup _ _ _ k Hmk) as [(_ & _ & Hpre)|[Heq _]].
  - contradiction.
  - exact Heq.
Qed.

Lemma mkdirs_lookup_dir (fs fs' : tree) (p : path) :
  mkdirs fs p = Ok fs' -> p <> [] -> fs' !! p = Some Dir.
Proof.
  intros Hmk Hne.
  destruct (mkdirs_lookup _ _ _ p Hmk) as [(Hdir & _ & _)|[Heq Hdir]].
  - exact Hdir.
  - rewrite Heq. now apply Hdir.
Qed.

(** The intermediate states of a successful [copyDir]. *)
Lemma copyDir_inv (fs fs' : tree) (catalogDir source target : path) :
  copyDir fs catalogDir source target None = Ok fs' ->
  exists fs1 fs2 fs3,
    mkdirs fs (join catalogDir "tmp") = Ok fs1 /\
    copy fs1 source (join catalogDir "tmp") None = Ok fs2 /\
    copy fs2 (join catalogDir "tmp") target None = Ok fs3 /\
    rm_recursive fs3 (join catalogDir "tmp") = Ok fs'.
Proof.
  unfold copyDir. intros H.
  apply bind_Ok in H as (fs1 & H1 & H).
  apply bind_Ok in H as (fs2 & H2 & H).
  apply bind_Ok in H as (fs3 & H3 & H).
  now exists fs1, fs2, fs3.
Qed.

(** C8, as the code has it: after a successful [copyDir] without a filter
    the staging directory is gone.  When the staging directory is not inside
    the target and the source is not inside the staging directory, every
    entry of the source tree is in the target tree with the same content.
    When neither the target nor the staging directory existed before the
    call, the target tree is the source tree as it was before the call,
    provided the staging directory is not inside the target, and the source
    tree is unchanged, provided the target is not inside the source. *)
Theorem copyDir_outcome (fs fs' : tree) (catalogDir source target : path) :
  copyDir fs catalogDir source target None = Ok fs' ->
  (forall rel, fs' !! (join catalogDir "tmp" ++ rel) = None) /\
  (~ target `prefix_of` join catalogDir "tmp" ->
   ~ join catalogDir "tmp" `prefix_of` source ->
   forall rel n,
     fs !! (source ++ rel) = Some n -> fs' !! (target ++ rel) = Some n) /\
  ((forall rel, fs !! (join catalogDir "tmp" ++ rel) = None) ->
   (forall rel, fs !! (target ++ rel) = None) ->
   (~ target `prefix_of` join catalogDir "tmp" ->
    forall rel, fs' !! (target ++ rel) = fs !! (source ++ rel)) /\
   (~ source `prefix_of` target ->
    forall rel, fs' !! (source ++ rel) = fs !! (source ++ rel))).
Proof.
  intros Hcopy.
  apply copyDir_inv in Hcopy as (fs1 & fs2 & fs3 & Hmk & Hc1 & Hc2 & Hrm).
  set (tmp := join catalogDir "tmp") in *.
  assert (Htmp_ne : tmp <> []) by (unfold tmp, join; now destruct catalogDir).
  apply copy_inv in Hc1
    as (s1 & fs1' & Hsrc1 & Hcompat1 & Hsub1 & Hmk1 & _ & Hlk1).
  apply copy_inv in Hc2
    as (s2 & fs2' & Hsrc2 & _ & Hsub2 & Hmk2 & Hni2 & Hlk2).
  unfold tmp in Hmk1. rewrite dirname_join in Hmk1. fold tmp in Hmk1.
  (* the staging directory is a directory, so the source is one *)
  pose proof (mkdirs_lookup_dir _ _ _ Hmk Htmp_ne) as Htmp1.
  assert (Hs1 : s1 = Dir).
  { unfold compatible, node_at in Hcompat1. simpl in Hcompat1.
    rewrite app_nil_r in Hcompat1. destruct tmp; [contradiction|].
    rewrite Htmp1 in Hcompat1. now destruct s1. }
  subst s1. specialize (Hsub1 eq_refl).
  assert (Hsource_ne : source <> []).
  { intros ->. apply Hsub1, prefix_nil. }
  assert (Hsource1 : fs1 !! source = Some Dir)
    by (destruct source; [contradiction|exact Hsrc1]).
  assert (Hsource : fs !! source = Some Dir).
  { eapply mkdirs_lookup_off; eauto. }
  assert (Htmp2 : fs2 !! tmp = Some Dir).
  { rewrite Hlk1, (proj2 (strip_Some tmp tmp []) (eq_sym (app_nil_r _))).
    rewrite app_nil_r.
    now rewrite (mkdirs_preserves _ _ _ _ _ Hmk1 Hsource1). }
  assert (Hs2 : s2 = Dir).
  { destruct tmp; [contradiction|]. simpl in Hsrc2. congruence. }
  subst s2. specialize (Hsub2 eq_refl).
  (* the entries of the source arrive in the target *)
  assert (Hforward : forall rel n,
    fs !! (source ++ rel) = Some n -> fs' !! (target ++ rel) = Some n).
  { intros rel n Hrel.
    apply (mkdirs_preserves _ _ _ _ _ Hmk) in Hrel.
    apply (mkdirs_preserves _ _ _ _ _ Hmk1) in Hrel.
    assert (H2 : fs2 !! (tmp ++ rel) = Some n).
    { rewrite Hlk1, (proj2 (strip_Some tmp _ rel) eq_refl). now rewrite Hrel. }
    apply (mkdirs_preserves _ _ _ _ _ Hmk2) in H2.
    assert (H3 : fs3 !! (target ++ rel) = Some n).
    { rewrite Hlk2, (proj2 (strip_Some target _ rel) eq_refl).
      now rewrite H2. }
    rewrite (rm_recursive_lookup _ _ _ _ Hrm).
    destruct (decide (tmp `prefix_of` target ++ rel)) as [Hpre|_];
      [|exact H3].
    now apply Hni2 in H2. }
  split; [|split; [intros _ _; exact Hforward|]].
  - intros rel. rewrite (rm_recursive_lookup _ _ _ _ Hrm).
    destruct (decide (tmp `prefix_of` tmp ++ rel)) as [_|Hn]; [reflexivity|].
    destruct Hn. now exists rel.
  - intros Hfresh_tmp Hfresh_target. split.
    2:{ intros Houtside rel.
        rewrite (rm_recursive_lookup _ _ _ _ Hrm).
        destruct (decide (tmp `prefix_of` source ++ rel)) as [[r Hk]|Hoff].
        { now rewrite Hk, Hfresh_tmp. }
        rewrite Hlk2.
        destruct (strip target (source ++ rel)) as [r|] eqn:Hs.
        { exfalso. apply strip_Some in Hs.
          destruct (prefix_weak_total source target (source ++ rel))
            as [Hpre|[x Hx]];
            [now exists rel|rewrite Hs; now exists r|contradiction|].
          rewrite Hx, Hfresh_target in Hsource. discriminate. }
        rewrite (mkdirs_lookup_eq _ _ _ _ Hmk2).
        2:{ intros Hpre. apply Houtside.
            etransitivity; [eapply prefix_app_l, Hpre|].
            apply dirname_prefix. }
        rewrite Hlk1.
        destruct (strip tmp (source ++ rel)) as [r|] eqn:Hs'.
        { apply strip_Some in Hs'. destruct Hoff. rewrite Hs'. now exists r. }
        rewrite (mkdirs_lookup_eq _ _ _ _ Hmk1).
        2:{ intros Hpre. apply Hsub1.
            etransitivity; [eapply prefix_app_l, Hpre|]. now exists ["tmp"]. }
        apply (mkdirs_lookup_eq _ _ _ _ Hmk).
        intros Hpre. apply Hsub1. eapply prefix_app_l, Hpre. }
    intros Hnest rel.
    destruct (fs !! (source ++ rel)) as [n|] eqn:Hrel; [now apply Hforward|].
    destruct (fs' !! (target ++ rel)) as [n|] eqn:Hout; [|reflexivity].
    exfalso.
    rewrite (rm_recursive_lookup _ _ _ _ Hrm) in Hout.
    destruct (decide (tmp `prefix_of` target ++ rel)) as [|Hoff];
      [discriminate|].
    rewrite Hlk2, (proj2 (strip_Some target _ rel) eq_refl) in Hout.
    assert (Hmid : fs1 !! (source ++ rel) = None /\
                   fs1 !! (tmp ++ rel) = None \/ rel = []).
    { destruct rel as [|r rel]; [now right|left]. split.
      - destruct (fs1 !! (source ++ r :: rel)) as [m|] eqn:Hm;
          [|reflexivity].
        apply (mkdirs_lookup_off _ _ _ _ _ Hmk) in Hm; [congruence|].
        intros Hpre. apply Hsub1. eapply prefix_app_l, Hpre.
      - destruct (fs1 !! (tmp ++ r :: rel)) as [m|] eqn:Hm; [|reflexivity].
        apply (mkdirs_lookup_off _ _ _ _ _ Hmk) in Hm.
        + now rewrite Hfresh_tmp in Hm.
        + intros Hpre. apply prefix_length in Hpre.
          rewrite length_app in Hpre. simpl in Hpre. lia. }
    destruct Hmid as [[Hsrc_none Htmp_none]| ->].
    2:{ rewrite app_nil_r in Hrel. congruence. }
    assert (H2 : fs2 !! (tmp ++ rel) = None).
    { rewrite Hlk1, (proj2 (strip_Some tmp _ rel) eq_refl).
      destruct (fs1' !! (source ++ rel)) as [m|] eqn:Hm.
      - apply (mkdirs_lookup_off _ _ _ _ _ Hmk1) in Hm; [congruence|].
        intros Hpre. apply Hsub1.
        etransitivity; [eapply prefix_app_l, Hpre|]. now exists ["tmp"].
      - destruct (fs1' !! (tmp ++ rel)) as [m|] eqn:Hm'; [|reflexivity].
        apply (mkdirs_lookup_off _ _ _ _ _ Hmk1) in Hm'; [congruence|].
        apply join_not_prefix. }
    assert (H2' : fs2' !! (tmp ++ rel) = None).
    { destruct (fs2' !! (tmp ++ rel)) as [m|] eqn:Hm; [|reflexivity].
      apply (mkdirs_lookup_off _ _ _ _ _ Hmk2) in Hm; [congruence|].
      intros Hpre. apply Hsub2.
      etransitivity; [eapply prefix_app_l, Hpre|]. apply dirname_prefix. }
    rewrite H2' in Hout.
    apply (mkdirs_lookup_off _ _ _ _ _ Hmk2) in Hout.
    2:{ apply below_not_prefix_of_dirname. intros Hnil.
        apply app_eq_nil in Hnil as [-> _]. apply Hnest, prefix_nil. }
    rewrite Hlk1 in Hout.
    destruct (strip tmp (target ++ rel)) as [rel'|] eqn:Hs.
    { apply strip_Some in Hs. apply Hoff. rewrite Hs. now exists rel'. }
    apply (mkdirs_lookup_off _ _ _ _ _ Hmk1) in Hout.
    2:{ intros Hpre. apply Hnest.
        etransitivity; [eapply prefix_app_l, Hpre|]. now exists ["tmp"]. }
    apply (mkdirs_lookup_off _ _ _ _ _ Hmk) in Hout.
    2:{ intros Hpre. apply Hnest. eapply prefix_app_l, Hpre. }
    now rewrite Hfresh_target in Hout.
Qed.

Lemma source_tree_entries (k : path) (n : node) :
  source_tree !! k = Some n -> exists rel, k = "src" :: rel.
Proof.
  intros Hk. apply elem_of_map_to_list in Hk.
  assert (Hlist : map_to_list source_tree
                  ≡ₚ [ (["src"], Dir); (["src"; "a.md"], File "A");
                       (["src"; "sub"], Dir);
                       (["src"; "sub"; "b.md"], File "B") ]).
  { apply map_to_list_to_map. vm_compute.
    repeat (constructor; [rewrite ?elem_of_cons, elem_of_nil;
                          intuition discriminate|]).
    constructor. }
  rewrite Hlist in Hk.
  repeat (apply elem_of_cons in Hk as [[= -> _]|Hk]; [eauto|]).
  now apply elem_of_nil in Hk.
Qed.

Lemma succeeds_tree_of (r : result tree) :
  succeeds r = true -> r = Ok (tree_of r).
Proof. destruct r; [reflexivity|discriminate]. Qed.

Lemma copyDir_outcome_witness :
  let fs' := tree_of (copyDir source_tree ["catalog"] ["src"] ["dst"] None) in
  copyDir source_tree ["catalog"] ["src"] ["dst"] None = Ok fs' /\
  (forall rel, source_tree !! (join ["catalog"] "tmp" ++ rel) = None) /\
  (forall rel, source_tree !! (["dst"] ++ rel) = None) /\
  ~ ["dst"] `prefix_of` join ["catalog"] "tmp" /\
  ~ join ["catalog"] "tmp" `prefix_of` ["src"] /\
  (forall rel, fs' !! (join ["catalog"] "tmp" ++ rel) = None) /\
  (forall rel n,
     source_tree !! (["src"] ++ rel) = Some n ->
     fs' !! (["dst"] ++ rel) = Some n) /\
  (forall rel, fs' !! (["dst"] ++ rel) = source_tree !! (["src"] ++ rel)) /\
  ~ ["src"] `prefix_of` ["dst"] /\
  (forall rel, fs' !! (["src"] ++ rel) = source_tree !! (["src"] ++ rel)).
Proof.
  assert (H0 : copyDir source_tree ["catalog"] ["src"] ["dst"] None
               = Ok (tree_of (copyDir source_tree ["catalog"] ["src"] ["dst"] None)))
    by (apply succeeds_tree_of; vm_compute; reflexivity).
  assert (H1 : forall rel,
             source_tree !! (join ["catalog"] "tmp" ++ rel) = None).
  { intros rel. destruct (source_tree !! _) as [n|] eqn:Hk; [|reflexivity].
    apply source_tree_entries in Hk as [rel' Hk]. discriminate Hk. }
  assert (H2 : forall rel, source_tree !! (["dst"] ++ rel) = None).
  { intros rel. destruct (source_tree !! _) as [n|] eqn:Hk; [|reflexivity].
    apply source_tree_entries in Hk as [rel' Hk]. discriminate Hk. }
  assert (H3 : ~ ["dst"] `prefix_of` join ["catalog"] "tmp").
  { intros [k Hk]. discriminate Hk. }
  assert (H4 : ~ ["src"] `prefix_of` ["dst"]).
  { intros [k Hk]. discriminate Hk. }
  assert (H5 : ~ join ["catalog"] "tmp" `prefix_of` ["src"]).
  { intros [k Hk]. discriminate Hk. }
  pose proof (copyDir_outcome source_tree _ ["catalog"] ["src"] ["dst"] H0)
    as (Hgone & Hforward & Hsame).
  destruct (Hsame H1 H2) as [Htarget Hsource].
  exact (conj H0 (conj H1 (conj H2 (conj H3 (conj H5
    (conj Hgone (conj (Hforward H3 H5) (conj (Htarget H3)
      (conj H4 (Hsource H4)))))))))).
Defined.

(** The claim of C8 as the specification words it fails for a target that
    already holds a file: the call succeeds, the file stays in the target
    tree and the source tree has none at that place. *)
Lemma copyDir_populated_target_counterexample :
  let fs' := tree_of (copyDir populated_tree ["catalog"] ["src"] ["dst"] None) in
  copyDir populated_tree ["catalog"] ["src"] ["dst"] None = Ok fs' /\
  fs' !! (["dst"] ++ ["old.md"]) = Some (File "O") /\
  fs' !! (["src"] ++ ["old.md"]) = None /\
  populated_tree !! (["src"] ++ ["old.md"]) = None.
Proof.
  split; [apply succeeds_tree_of; vm_compute; reflexivity|].
  repeat split; vm_compute; reflexivity.
Qed.

(** * Further properties *)

(** ** searchFilesForId: failures and narrowing *)

Lemma readFile_outcome (fs : FS) (file : string) :
  readable fs file \/ readFile fs file = Err ENOENT.
Proof.
  unfold readable, readFile. destruct (String.eqb file ""); [now right|].
  destruct (find _ fs); [left; eauto|now right].
Qed.

Lemma traverse_fails {A B : Type} (f : A -> result B) (xs : list A)
    (e : error) :
  (forall x, In x xs -> f x = Err e \/ exists y, f x = Ok y) ->
  (exists x, In x xs /\ f x = Err e) ->
  traverse f xs = Err e.
Proof.
  induction xs as [|x xs IH]; intros Hall (x0 & Hin & Hx0); [destruct Hin|].
  simpl. destruct (Hall x (or_introl eq_refl)) as [Hx|[y Hx]]; rewrite Hx;
    [reflexivity|]. simpl.
  rewrite IH; [reflexivity| |].
  - intros x' Hx'. apply Hall. now right.
  - destruct Hin as [->|Hin]; [congruence|eauto].
Qed.

(** X1: Once the two patterns are built, one file that cannot be read
    fails the whole search, whatever the other files contain: no partial
    result is returned. *)
Theorem searchFilesForId_unreadable_file (fs : FS) (files : list string)
    (id : string) (version : option string)
    (idRegex versionRegex : RegExp.regex) (file : string) :
  RegExp.compile (idRegex_source id) = Ok idRegex ->
  RegExp.compile (versionRegex_source version) = Ok versionRegex ->
  In file files ->
  ~ readable fs file ->
  exists e, searchFilesForId fs files id version = Err e.
Proof.
  intros Hid Hversion Hin Hunreadable. exists ENOENT.
  rewrite searchFilesForId_eq, Hid, Hversion. cbn [bind].
  rewrite (traverse_fails _ files ENOENT); [reflexivity| |].
  - intros x _. destruct (readFile_outcome fs x) as [[content Hc]|Hc];
      rewrite Hc; cbn [bind]; [right|now left].
    destruct (truthy version && negb (RegExp.test versionRegex content));
      [eauto|]. destruct (RegExp.test idRegex content); eauto.
  - exists file. split; [assumption|].
    destruct (readFile_outcome fs file) as [Hr|Hc]; [contradiction|].
    now rewrite Hc.
Qed.

Lemma searchFilesForId_unreadable_file_witness :
  let idRegex := regex_of (RegExp.compile (idRegex_source "foo")) in
  let versionRegex :=
    regex_of (RegExp.compile (versionRegex_source None)) in
  RegExp.compile (idRegex_source "foo") = Ok idRegex /\
  RegExp.compile (versionRegex_source None) = Ok versionRegex /\
  In "catalog/gone/index.md" [foo_latest; "catalog/gone/index.md"] /\
  ~ readable foo_catalog "catalog/gone/index.md" /\
  exists e,
    searchFilesForId foo_catalog [foo_latest; "catalog/gone/index.md"] "foo"
      None = Err e.
Proof.
  assert (H1 : RegExp.compile (idRegex_source "foo")
               = Ok (regex_of (RegExp.compile (idRegex_source "foo"))))
    by (vm_compute; reflexivity).
  assert (H2 : RegExp.compile (versionRegex_source None)
               = Ok (regex_of (RegExp.compile (versionRegex_source None))))
    by (vm_compute; reflexivity).
  assert (H3 : In "catalog/gone/index.md"
                  [foo_latest; "catalog/gone/index.md"])
    by (right; left; reflexivity).
  assert (H4 : ~ readable foo_catalog "catalog/gone/index.md").
  { intros [content Hc]. vm_compute in Hc. discriminate Hc. }
  exact (conj H1 (conj H2 (conj H3 (conj H4
    (searchFilesForId_unreadable_file foo_catalog _ "foo" None _ _ _
       H1 H2 H3 H4))))).
Defined.

Lemma filter_sublist_impl {A : Type} (f g : A -> bool) (l : list A) :
  (forall x, f x = true -> g x = true) ->
  sublist (List.filter f l) (List.filter g l).
Proof.
  intros Himpl. induction l as [|x l IH]; simpl; [constructor|].
  destruct (f x) eqn:Hf.
  - rewrite (Himpl x Hf). now apply sublist_skip.
  - destruct (g x); [now apply sublist_cons|exact IH].
Qed.

(** X2: A version argument only narrows the search: the files found for an id
    and a version are among the files found for the id alone, in the same
    order. *)
Theorem searchFilesForId_version_narrows (fs : FS) (files : list string)
    (id version : string) (found : list string) :
  searchFilesForId fs files id (Some version) = Ok found ->
  exists candidates,
    searchFilesForId fs files id None = Ok candidates /\
    sublist found candidates /\ sublist candidates files.
Proof.
  intros H.
  apply searchFilesForId_inv in H as (r1 & r2 & Hid & _ & Hread & ->).
  assert (Hnone : RegExp.compile (versionRegex_source None)
                  = Ok (regex_of (RegExp.compile (versionRegex_source None))))
    by (vm_compute; reflexivity).
  eexists. split; [|split].
  - exact (searchFilesForId_filter _ _ _ _ _ _ Hid Hnone Hread).
  - apply filter_sublist_impl. intros file. unfold selected.
    rewrite !andb_true_iff. cbn [truthy negb orb]. tauto.
  - apply filter_sublist.
Qed.

Lemma searchFilesForId_version_narrows_witness :
  searchFilesForId foo_catalog [foo_snapshot; foo_latest] "foo" (Some "1.2.0")
    = Ok [foo_snapshot] /\
  exists candidates,
    searchFilesForId foo_catalog [foo_snapshot; foo_latest] "foo" None
      = Ok candidates /\
    sublist [foo_snapshot] candidates /\
    sublist candidates [foo_snapshot; foo_latest].
Proof.
  assert (H : searchFilesForId foo_catalog [foo_snapshot; foo_latest] "foo"
                (Some "1.2.0") = Ok [foo_snapshot])
    by (vm_compute; reflexivity).
  exact (conj H (searchFilesForId_version_narrows _ _ _ _ _ H)).
Defined.

(** ** findFileById: what is returned, on every branch *)

Lemma latest_In {A : Type} (cmp : A -> A -> Z) (l : list A) (m : A) :
  latest cmp l = Some m -> In m l.
Proof.
  induction l as [|x l IH]; simpl; [discriminate|].
  destruct (forallb _ l); [intros [= ->]; now left|].
  intros Hm. right. now apply IH.
Qed.

Lemma head_filter_find {A : Type} (f : A -> bool) (l : list A) :
  head (List.filter f l) = find f l.
Proof.
  induction l as [|x l IH]; simpl; [reflexivity|].
  destruct (f x); [reflexivity|exact IH].
Qed.

Lemma getFiles_not_below_node_modules (fs : FS) (pattern : string)
    (files : list string) (p : string) :
  getFiles fs pattern = Ok files -> In p files ->
  In p (map fst fs) /\ ~ below_root_dir "node_modules" p.
Proof.
  intros Hfiles Hin.
  apply getFiles_inv in Hfiles as (pat & _ & ->).
  apply filter_In in Hin as [Hlisted Hp].
  apply andb_true_iff in Hp as [_ Hp]. apply negb_true_iff in Hp.
  split; [exact Hlisted|].
  intros Hbelow. apply (ignore_node_modules p) in Hbelow. congruence.
Qed.

Section FindFileByIdFurther.
Context `{SemVer} `{GrayMatter} `{Collator}.

Lemma findFileById_member (fs : FS) (catalogDir id : string)
    (version_arg : option string) (files candidates : list string)
    (p : string) :
  getFiles fs (catalogDir ++ "/**/index.md") = Ok files ->
  searchFilesForId fs files id None = Ok candidates ->
  findFileById fs catalogDir id version_arg = Ok (Some p) ->
  In p candidates.
Proof.
  intros Hfiles Hsearch Hfind.
  pose proof (candidates_readable _ _ _ _ _ Hsearch) as Hread.
  rewrite findFileById_eq in Hfind.
  apply bind_Ok in Hfind as (files' & Hfiles' & Hfind).
  rewrite Hfiles in Hfiles'. injection Hfiles' as <-.
  apply bind_Ok in Hfind as (candidates' & Hsearch' & Hfind).
  rewrite Hsearch in Hsearch'. injection Hsearch' as <-.
  cbv zeta in Hfind.
  assert (Hlatest : forall q,
             find (fun path => negb (includes "versioned" path)) candidates
             = Some q -> In q candidates)
    by (intros q Hq; now apply find_some in Hq).
  destruct version_arg as [v|]; [|injection Hfind as Hfind; auto].
  destruct (String.eqb v ""); [injection Hfind as Hfind; auto|].
  apply bind_Ok in Hfind as (parsedFiles & Hparsed & Hfind).
  rewrite (parsedFiles_Ok _ _ Hread) in Hparsed. injection Hparsed as <-.
  cbv zeta in Hfind.
  assert (Hfallback :
            forall c,
              last (sort (fun a b => localeCompare (version a) (version b))
                         (map (parsed fs) candidates)) = Some c ->
              exists q, c = parsed fs q /\ In q candidates).
  { intros c Hc. rewrite last_sort in Hc. apply latest_In in Hc.
    apply in_map_iff in Hc as (q & <- & Hq). eauto. }
  destruct (validRange v) as [range|].
  - destruct (truthy (Some range) && truthy (valid v)).
    + rewrite head_filter_find in Hfind.
      destruct (find _ _) as [m|] eqn:Hm; [|discriminate].
      apply find_some in Hm as [Hm _].
      apply in_map_iff in Hm as (q & <- & Hq).
      simpl in Hfind. now injection Hfind as <-.
    + destruct (last _) as [m|]; [|discriminate].
      destruct (Hfallback m eq_refl) as (q & -> & Hq).
      simpl in Hfind. now injection Hfind as <-.
  - destruct (last _) as [m|]; [|discriminate].
    destruct (Hfallback m eq_refl) as (q & -> & Hq).
    simpl in Hfind. now injection Hfind as <-.
Qed.

(** X3: Whatever the version argument and whichever branch answers, a returned
    path is one of the candidates: a readable [index.md] found below the
    catalog directory, outside the working directory's [node_modules], whose
    text matches the id pattern. *)
Theorem findFileById_returns_candidate (fs : FS) (catalogDir id : string)
    (version_arg : option string) (p : string) :
  findFileById fs catalogDir id version_arg = Ok (Some p) ->
  exists files candidates idRegex,
    getFiles fs (catalogDir ++ "/**/index.md") = Ok files /\
    searchFilesForId fs files id None = Ok candidates /\
    RegExp.compile (idRegex_source id) = Ok idRegex /\
    In p candidates /\ In p files /\
    last (segments p) = Some "index.md" /\
    readable fs p /\
    ~ below_root_dir "node_modules" p /\
    RegExp.test idRegex (content_of fs p) = true.
Proof.
  intros Hfind. pose proof Hfind as Hfind'.
  rewrite findFileById_eq in Hfind'.
  apply bind_Ok in Hfind' as (files & Hfiles & Hfind').
  apply bind_Ok in Hfind' as (candidates & Hsearch & _).
  pose proof (findFileById_member _ _ _ _ _ _ _ Hfiles Hsearch Hfind) as Hin.
  pose proof Hsearch as Hinv.
  apply searchFilesForId_inv in Hinv as (r1 & r2 & Hid & _ & _ & Hfound).
  rewrite Hfound in Hin. apply filter_In in Hin as [Hin Hsel].
  apply andb_true_iff in Hsel as [Hsel _].
  pose proof (getFiles_index_md _ _ _ Hfiles) as Hindex.
  destruct (proj1 (List.Forall_forall _ _) Hindex p Hin) as [Hlast Hread].
  destruct (getFiles_not_below_node_modules _ _ _ _ Hfiles Hin) as [_ Hout].
  exists files, candidates, r1.
  repeat split; try assumption.
  rewrite Hfound. apply filter_In. split; [assumption|].
  unfold selected. now rewrite Hsel.
Qed.

(** X4: With no candidate for the id, the answer is absent for every version
    argument: no branch fails or invents a path. *)
Theorem findFileById_no_candidates (fs : FS) (catalogDir id : string)
    (files : list string) (version_arg : option string) :
  getFiles fs (catalogDir ++ "/**/index.md") = Ok files ->
  searchFilesForId fs files id None = Ok [] ->
  findFileById fs catalogDir id version_arg = Ok None.
Proof.
  intros Hfiles Hsearch.
  rewrite findFileById_eq, Hfiles. cbn [bind]. rewrite Hsearch. cbn [bind].
  destruct version_arg as [v|]; [|reflexivity].
  destruct (String.eqb v ""); [reflexivity|].
  cbn [traverse bind]. cbv zeta.
  destruct (validRange v) as [range|]; [|reflexivity].
  destruct (truthy (Some range) && truthy (valid v)); reflexivity.
Qed.

(** X5: The exact-version branch: for a non-empty version that the semver
    library accepts both as a range and as a version, the call returns, and
    the answer is the first candidate, in search order, whose front-matter
    version (a string) satisfies the range, and absent when none does. *)
Theorem findFileById_exact_version (fs : FS) (catalogDir id v range : string)
    (files candidates : list string) :
  getFiles fs (catalogDir ++ "/**/index.md") = Ok files ->
  searchFilesForId fs files id None = Ok candidates ->
  v <> "" ->
  validRange v = Some range ->
  truthy (Some range) && truthy (valid v) = true ->
  exists found,
    findFileById fs catalogDir id (Some v) = Ok found /\
    match found with
    | Some p =>
        exists before after,
          candidates = (before ++ p :: after)%list /\
          satisfies (version_of fs p) range = true /\
          Forall (fun q => satisfies (version_of fs q) range = false) before
    | None =>
        Forall (fun q => satisfies (version_of fs q) range = false) candidates
    end.
Proof.
  intros Hfiles Hsearch Hv Hrange Htruthy.
  pose proof (candidates_readable _ _ _ _ _ Hsearch) as Hread.
  rewrite findFileById_eq, Hfiles. cbn [bind]. rewrite Hsearch. cbn [bind].
  apply String.eqb_neq in Hv. rewrite Hv.
  rewrite (parsedFiles_Ok _ _ Hread). cbn [bind]. cbv zeta.
  rewrite Hrange, Htruthy. eexists. split; [reflexivity|].
  rewrite head_filter_find.
  clear. induction candidates as [|q l IH]; [constructor|].
  cbn [map find parsed version].
  destruct (satisfies (version_of fs q) range) eqn:Hq.
  - simpl. exists [], l. repeat split; [exact Hq|constructor].
  - destruct (find _ (map (parsed fs) l)) as [m|].
    + cbn [option_map] in *. destruct IH as (before & after & -> & Hm & Hb).
      exists (q :: before), after. repeat split; [exact Hm|].
      constructor; assumption.
    + cbn [option_map] in *. constructor; assumption.
Qed.

End FindFileByIdFurther.

Lemma findFileById_returns_candidate_witness :
  @findFileById Reference.semver Reference.gray_matter Reference.collator
    foo_catalog "catalog" "foo" (Some "1.2.0") = Ok (Some foo_snapshot) /\
  exists files candidates idRegex,
    getFiles foo_catalog ("catalog" ++ "/**/index.md") = Ok files /\
    searchFilesForId foo_catalog files "foo" None = Ok candidates /\
    RegExp.compile (idRegex_source "foo") = Ok idRegex /\
    In foo_snapshot candidates /\ In foo_snapshot files /\
    last (segments foo_snapshot) = Some "index.md" /\
    readable foo_catalog foo_snapshot /\
    ~ below_root_dir "node_modules" foo_snapshot /\
    RegExp.test idRegex (content_of foo_catalog foo_snapshot) = true.
Proof.
  assert (H : @findFileById Reference.semver Reference.gray_matter
                Reference.collator foo_catalog "catalog" "foo" (Some "1.2.0")
              = Ok (Some foo_snapshot)) by (vm_compute; reflexivity).
  exact (conj H
    (@findFileById_returns_candidate Reference.semver Reference.gray_matter
       Reference.collator foo_catalog "catalog" "foo" (Some "1.2.0")
       foo_snapshot H)).
Defined.

Lemma findFileById_no_candidates_witness :
  getFiles foo_catalog ("catalog" ++ "/**/index.md")
    = Ok [foo_snapshot; foo_latest] /\
  searchFilesForId foo_catalog [foo_snapshot; foo_latest] "bar" None = Ok [] /\
  @findFileById Reference.semver Reference.gray_matter Reference.collator
    foo_catalog "catalog" "bar" (Some "^1.0.0") = Ok None.
Proof.
  assert (H0 : getFiles foo_catalog ("catalog" ++ "/**/index.md")
               = Ok [foo_snapshot; foo_latest]) by reflexivity.
  assert (H1 : searchFilesForId foo_catalog [foo_snapshot; foo_latest] "bar"
                 None = Ok []) by (vm_compute; reflexivity).
  exact (conj H0 (conj H1
    (@findFileById_no_candidates Reference.semver Reference.gray_matter
       Reference.collator foo_catalog "catalog" "bar" _ (Some "^1.0.0")
       H0 H1))).
Defined.

Lemma findFileById_exact_version_witness :
  getFiles foo_catalog ("catalog" ++ "/**/index.md")
    = Ok [foo_snapshot; foo_latest] /\
  searchFilesForId foo_catalog [foo_snapshot; foo_latest] "foo" None
    = Ok [foo_snapshot; foo_latest] /\
  "2.0.0" <> "" /\
  @validRange Reference.semver "2.0.0" = Some "2.0.0" /\
  truthy (Some "2.0.0") && truthy (@valid Reference.semver "2.0.0") = true /\
  exists found,
    @findFileById Reference.semver Reference.gray_matter Reference.collator
      foo_catalog "catalog" "foo" (Some "2.0.0") = Ok found /\
    match found with
    | Some p =>
        exists before after,
          [foo_snapshot; foo_latest] = (before ++ p :: after)%list /\
          @satisfies Reference.semver
            (@version_of Reference.gray_matter foo_catalog p) "2.0.0" = true /\
          Forall (fun q => @satisfies Reference.semver
                             (@version_of Reference.gray_matter foo_catalog q)
                             "2.0.0" = false) before
    | None =>
        Forall (fun q => @satisfies Reference.semver
                           (@version_of Reference.gray_matter foo_catalog q)
                           "2.0.0" = false) [foo_snapshot; foo_latest]
    end.
Proof.
  assert (H0 : getFiles foo_catalog ("catalog" ++ "/**/index.md")
               = Ok [foo_snapshot; foo_latest]) by reflexivity.
  assert (H1 : searchFilesForId foo_catalog [foo_snapshot; foo_latest] "foo"
                 None = Ok [foo_snapshot; foo_latest])
    by (vm_compute; reflexivity).
  assert (H2 : "2.0.0" <> "") by discriminate.
  assert (H3 : @validRange Reference.semver "2.0.0" = Some "2.0.0")
    by (vm_compute; reflexivity).
  assert (H4 : truthy (Some "2.0.0")
               && truthy (@valid Reference.semver "2.0.0") = true)
    by (vm_compute; reflexivity).
  exact (conj H0 (conj H1 (conj H2 (conj H3 (conj H4
    (@findFileById_exact_version Reference.semver Reference.gray_matter
       Reference.collator foo_catalog "catalog" "foo" "2.0.0" "2.0.0" _ _
       H0 H1 H2 H3 H4)))))).
Defined.

(** ** getFiles: which paths the catalog pattern returns *)

Lemma matches_globstar_eq (dot : bool) (pat : list Glob.gseg)
    (p : list string) :
  Glob.matches dot (Glob.GlobStar :: pat) p
  = Glob.matches dot pat p
    || match p with
       | s :: p' =>
           (dot || negb (Glob.hidden s))
           && Glob.matches dot (Glob.GlobStar :: pat) p'
       | [] => false
       end.
Proof. destruct p; reflexivity. Qed.

Lemma matches_app (dot : bool) (a b : list Glob.gseg) (p : list string) :
  Glob.matches dot (a ++ b) p = true <->
  exists pre post,
    p = (pre ++ post)%list /\ Glob.matches dot a pre = true /\
    Glob.matches dot b post = true.
Proof.
  revert p. induction a as [|[|sp] a IH]; intros p.
  - split.
    + intros Hp. now exists [], p.
    + intros (pre & post & -> & Hpre & Hpost).
      destruct pre; [exact Hpost|discriminate].
  - change ((Glob.GlobStar :: a) ++ b)%list
      with (Glob.GlobStar :: (a ++ b))%list.
    split.
    + induction p as [|s p IHp]; rewrite matches_globstar_eq;
        intros Hp; apply orb_true_iff in Hp as [Hp|Hp];
        try discriminate.
      * apply IH in Hp as (pre & post & -> & Hpre & Hpost).
        exists pre, post. repeat split; [|exact Hpost].
        rewrite matches_globstar_eq, Hpre. reflexivity.
      * apply IH in Hp as (pre & post & Heq & Hpre & Hpost).
        exists pre, post. repeat split; [exact Heq| |exact Hpost].
        rewrite matches_globstar_eq, Hpre. reflexivity.
      * apply andb_true_iff in Hp as [Hs Hp].
        apply IHp in Hp as (pre & post & -> & Hpre & Hpost).
        exists (s :: pre), post. repeat split; [|exact Hpost].
        rewrite matches_globstar_eq, Hs, Hpre. apply orb_true_r.
    + intros (pre & post & -> & Hpre & Hpost). revert Hpre.
      induction pre as [|s pre IHpre]; intros Hpre;
        rewrite matches_globstar_eq in Hpre;
        rewrite (matches_globstar_eq dot (a ++ b));
        apply orb_true_iff in Hpre as [Hpre|Hpre]; try discriminate.
      * apply orb_true_iff. left. apply IH. now exists [], post.
      * apply orb_true_iff. left. apply IH. now exists (s :: pre), post.
      * apply andb_true_iff in Hpre as [Hs Hpre].
        apply orb_true_iff. right. cbn [app]. rewrite Hs.
        now apply IHpre.
  - cbn [app Glob.matches]. split.
    + destruct p as [|s p]; [discriminate|]. intros Hp.
      apply andb_true_iff in Hp as [Hs Hp].
      apply IH in Hp as (pre & post & -> & Hpre & Hpost).
      exists (s :: pre), post. repeat split; [|exact Hpost].
      cbn [Glob.matches]. now rewrite Hs.
    + intros (pre & post & -> & Hpre & Hpost).
      destruct pre as [|s pre]; [discriminate|].
      cbn [Glob.matches] in Hpre. apply andb_true_iff in Hpre as [Hs Hpre].
      cbn [app]. rewrite Hs. apply IH. now exists pre, post.
Qed.

Lemma seg_match_literal_iff (dot : bool) (name s : string) :
  Glob.seg_match dot (map Glob.Lit (chars name)) s = true <-> s = name.
Proof.
  split; [apply seg_match_literal|]. intros ->.
  unfold Glob.seg_match. apply andb_true_iff. split.
  - destruct dot; [reflexivity|]. cbn [orb].
    destruct name as [|c name]; [reflexivity|].
    unfold Glob.hidden. cbn [chars map Glob.starts_literal_dot String.prefix].
    destruct (ascii_dec "." c) as [<-|Hc]; [|reflexivity].
    apply orb_true_r.
  - now apply wild_literal.
Qed.

Lemma matches_globstar_name (name : string) (p : list string) :
  Glob.matches false
    [Glob.GlobStar; Glob.Seg (map Glob.Lit (chars name))] p = true <->
  exists mid,
    p = (mid ++ [name])%list /\
    Forall (fun s => Glob.hidden s = false) mid.
Proof.
  assert (Hone : forall q,
             Glob.matches false [Glob.Seg (map Glob.Lit (chars name))] q = true
             <-> q = [name]).
  { intros [|s [|t q]]; cbn [Glob.matches]; split; try discriminate.
    - rewrite andb_true_r. now intros ->%seg_match_literal_iff.
    - intros [= ->]. rewrite andb_true_r. now apply seg_match_literal_iff.
    - now rewrite andb_false_r. }
  induction p as [|s p IH]; rewrite matches_globstar_eq.
  - split; [discriminate|]. intros ([|? ?] & [=] & _).
  - rewrite orb_true_iff, andb_true_iff, IH, Hone. cbn [orb]. split.
    + intros [[= -> ->]|[Hs (mid & -> & Hmid)]].
      * now exists [].
      * exists (s :: mid). split; [reflexivity|].
        constructor; [now apply negb_true_iff|exact Hmid].
    + intros ([|t mid] & Hp & Hmid).
      * left. exact Hp.
      * right. injection Hp as -> ->.
        apply List.Forall_cons_iff in Hmid as [Ht Hmid].
        split; [now apply negb_true_iff|]. now exists mid.
Qed.

Lemma traverse_app_Ok {A B : Type} (f : A -> result B) (xs ys : list A)
    (zs1 zs2 : list B) :
  traverse f xs = Ok zs1 -> traverse f ys = Ok zs2 ->
  traverse f (xs ++ ys) = Ok (zs1 ++ zs2)%list.
Proof.
  revert zs1. induction xs as [|x xs IH]; intros zs1; simpl.
  - now intros [= <-].
  - destruct (f x) as [z|e]; [|discriminate]. simpl.
    destruct (traverse f xs) as [zs|e]; [|discriminate]. simpl.
    intros [= <-] Hys. now rewrite (IH zs eq_refl Hys).
Qed.

Lemma parse_catalog_pattern (catalogDir : string) (dir : list Glob.gseg) :
  Glob.parse catalogDir = Ok dir ->
  Glob.parse (catalogDir ++ "/**/index.md")
  = Ok (dir ++ [Glob.GlobStar; Glob.Seg (map Glob.Lit (chars "index.md"))])
      %list.
Proof.
  intros Hdir. unfold Glob.parse. rewrite segments_index_pattern.
  now apply traverse_app_Ok.
Qed.

(** X6: The documents of a catalog: for a catalog directory written with
    literal segments, [*], [?] and [**], [getFiles] on
    [<catalogDir>/**/index.md] returns, and a regular file of the working
    directory is among the paths returned exactly when its path is made of
    the catalog directory, any number of directories none of which is
    hidden, and [index.md], and is not below the working directory's
    [node_modules]. *)
Theorem getFiles_catalog_documents (fs : FS) (catalogDir : string)
    (dir : list Glob.gseg) :
  Glob.parse catalogDir = Ok dir ->
  exists files,
    getFiles fs (catalogDir ++ "/**/index.md") = Ok files /\
    forall p,
      In p (map fst fs) ->
      (In p files <->
       ~ below_root_dir "node_modules" p /\
       exists pre mid,
         segments p = (pre ++ mid ++ ["index.md"])%list /\
         Glob.matches false dir pre = true /\
         Forall (fun s => Glob.hidden s = false) mid).
Proof.
  intros Hdir. apply parse_catalog_pattern in Hdir as Hpat.
  unfold getFiles, Glob.glob. rewrite Hpat. cbn [bind].
  rewrite (proj1 (ignore_node_modules "")). cbn [bind].
  eexists. split; [reflexivity|].
  intros p Hin. rewrite filter_In, andb_true_iff, negb_true_iff, matches_app.
  pose proof (proj2 (ignore_node_modules p)) as Hign.
  split.
  - intros (_ & (pre & post & Hp & Hpre & Hpost) & Hout).
    apply matches_globstar_name in Hpost as (mid & -> & Hmid).
    split; [|now exists pre, mid].
    intros Hbelow. apply Hign in Hbelow. congruence.
  - intros (Hout & pre & mid & Hp & Hpre & Hmid).
    split; [exact Hin|]. split.
    + exists pre, (mid ++ ["index.md"])%list. repeat split; try assumption.
      apply matches_globstar_name. now exists mid.
    + destruct (Glob.matches true _ (segments p)) eqn:Hm; [|reflexivity].
      exfalso. apply Hout, Hign. reflexivity.
Qed.

Lemma getFiles_catalog_documents_witness :
  Glob.parse "catalog" = Ok [Glob.Seg (map Glob.Lit (chars "catalog"))] /\
  exists files,
    getFiles project ("catalog" ++ "/**/index.md") = Ok files /\
    forall p,
      In p (map fst project) ->
      (In p files <->
       ~ below_root_dir "node_modules" p /\
       exists pre mid,
         segments p = (pre ++ mid ++ ["index.md"])%list /\
         Glob.matches false [Glob.Seg (map Glob.Lit (chars "catalog"))] pre
           = true /\
         Forall (fun s => Glob.hidden s = false) mid).
Proof.
  assert (H : Glob.parse "catalog"
              = Ok [Glob.Seg (map Glob.Lit (chars "catalog"))])
    by reflexivity.
  exact (conj H (getFiles_catalog_documents project "catalog" _ H)).
Defined.

(** ** uniqueMessages: what is kept and what is not *)

Lemma uniqueMessages_from_covers (seen : gset string)
    (messages : list Message.t) (k : string) :
  k ∈ map message_key (uniqueMessages_from seen messages) <->
  k ∈ map message_key messages /\ k ∉ seen.
Proof.
  split.
  - intros Hk. split;
      [|exact (proj2 (uniqueMessages_from_keys seen messages) k Hk)].
    pose proof (uniqueMessages_from_sublist seen messages) as Hsub.
    apply list_elem_of_fmap in Hk as (m & -> & Hm).
    apply list_elem_of_fmap. exists m. split; [reflexivity|].
    eapply elem_of_sublist; eauto.
  - revert seen. induction messages as [|m rest IH]; intros seen [Hk Hseen].
    + exact Hk.
    + cbn [uniqueMessages_from]. cbv zeta.
      cbn [map] in Hk. apply elem_of_cons in Hk.
      destruct (decide (message_key m ∈ seen)) as [Hm|Hm].
      * apply IH. split; [|exact Hseen].
        destruct Hk as [->|Hk]; [contradiction|exact Hk].
      * cbn [map]. apply elem_of_cons.
        destruct (decide (k = message_key m)) as [->|Hne]; [now left|].
        right. apply IH. split; [now destruct Hk|].
        clear IH. set_solver.
Qed.

Lemma uniqueMessages_from_fixed (seen : gset string)
    (messages : list Message.t) :
  uniqueMessages_from seen messages = messages <->
  NoDup (map message_key messages)
  /\ forall k, k ∈ map message_key messages -> k ∉ seen.
Proof.
  split.
  - intros Heq. pose proof (uniqueMessages_from_keys seen messages) as Hk.
    now rewrite Heq in Hk.
  - revert seen. induction messages as [|m rest IH]; intros seen [Hnd Hseen];
      [reflexivity|].
    cbn [uniqueMessages_from]. cbv zeta. cbn [map] in Hnd, Hseen.
    apply NoDup_cons in Hnd as [Hm Hnd].
    destruct (decide (message_key m ∈ seen)) as [Hin|_].
    + exfalso. apply (Hseen (message_key m)); [apply elem_of_cons; now left|].
      exact Hin.
    + f_equal. apply IH. split; [exact Hnd|].
      intros k Hk. specialize (Hseen k (list_elem_of_further _ _ _ Hk)).
      assert (k <> message_key m) by (intros ->; contradiction).
      clear IH. set_solver.
Qed.

(** X7: Nothing is lost but repetitions: a composite key occurs in the result
    exactly when it occurs in the input. *)
Theorem uniqueMessages_keeps_every_key (messages : list Message.t)
    (k : string) :
  k ∈ map message_key (uniqueMessages messages) <->
  k ∈ map message_key messages.
Proof.
  unfold uniqueMessages. rewrite uniqueMessages_from_covers.
  split; [now intros [Hk _]|]. intros Hk. split; [exact Hk|set_solver].
Qed.

(** X8: The input comes back unchanged exactly when no two of its messages share
    a composite key. *)
Theorem uniqueMessages_unchanged_iff (messages : list Message.t) :
  uniqueMessages messages = messages <-> NoDup (map message_key messages).
Proof.
  unfold uniqueMessages. rewrite uniqueMessages_from_fixed.
  split; [now intros [Hnd _]|]. intros Hnd. split; [exact Hnd|set_solver].
Qed.

(** X9: [uniqueMessages] is idempotent: filtering its result again changes
    nothing. *)
Theorem uniqueMessages_idempotent (messages : list Message.t) :
  uniqueMessages (uniqueMessages messages) = uniqueMessages messages.
Proof.
  unfold uniqueMessages at 1. apply uniqueMessages_from_fixed.
  split; [apply uniqueMessages_from_keys|set_solver].
Qed.

(** X10: Messages appended to a list never displace the ones already kept: the
    result for [earlier ++ later] starts with the result for [earlier], and
    what follows are the first occurrences in [later] of the keys that
    [earlier] does not have. *)
Theorem uniqueMessages_app (earlier later : list Message.t) :
  uniqueMessages (earlier ++ later)
  = (uniqueMessages earlier
     ++ uniqueMessages_from (list_to_set (map message_key earlier)) later)
    %list.
Proof.
  unfold uniqueMessages.
  assert (Hgen : forall seen,
             uniqueMessages_from seen (earlier ++ later)
             = (uniqueMessages_from seen earlier
                ++ uniqueMessages_from
                     (list_to_set (map message_key earlier) ∪ seen) later)
               %list).
  { induction earlier as [|m rest IH]; intros seen.
    - cbn [app map list_to_set]. f_equal.
      now rewrite (left_id_L ∅ (∪) seen).
    - cbn [app uniqueMessages_from map list_to_set]. cbv zeta.
      destruct (decide (message_key m ∈ seen)) as [Hin|Hout].
      + rewrite IH. do 2 f_equal. clear IH. set_solver.
      + cbn [app]. rewrite IH. do 3 f_equal. clear IH. set_solver. }
  rewrite Hgen. do 2 f_equal. set_solver.
Qed.

(** ** The two patterns on plain identifiers and versions *)

Lemma chars_app (a b : string) :
  chars (a ++ b) = (chars a ++ chars b)%list.
Proof. induction a as [|c a IH]; simpl; [reflexivity|]. now rewrite <- IH. Qed.

Lemma steps_app (st : RegExp.pstate) (a b : list ascii) :
  RegExp.steps st (a ++ b)
  = let* st' := RegExp.steps st a in RegExp.steps st' b.
Proof.
  revert st. induction a as [|c a IH]; intros st; [reflexivity|].
  cbn [app RegExp.steps]. destruct (RegExp.step st c) as [st'|e];
    [|reflexivity]. cbn [bind]. apply IH.
Qed.

Lemma step_ordinary (st : RegExp.pstate) (c : ascii) :
  RegExp.md st = RegExp.Normal -> ordinary c = true ->
  RegExp.step st c = Ok (RegExp.push_term (term_of c) RegExp.Quantifiable st).
Proof.
  intros Hmd Hc. unfold RegExp.step. rewrite Hmd.
  unfold ordinary in Hc. apply negb_true_iff in Hc.
  cbn [chars list_ascii_of_string String.append str existsb] in Hc.
  repeat (apply orb_false_iff in Hc as [? Hc]).
  unfold RegExp.step_normal, term_of.
  repeat match goal with
         | H : Ascii.eqb c _ = false |- _ => rewrite H; clear H
         end.
  destruct (Ascii.eqb c "."); reflexivity.
Qed.

Lemma steps_ordinary (cs : list ascii) (st : RegExp.pstate) :
  RegExp.md st = RegExp.Normal -> forallb ordinary cs = true ->
  RegExp.steps st cs
  = Ok {| RegExp.md := RegExp.Normal;
          RegExp.top :=
            {| RegExp.alts := RegExp.alts (RegExp.top st);
               RegExp.terms :=
                 (rev (map term_of cs) ++ RegExp.terms (RegExp.top st))
                   %list |};
          RegExp.stack := RegExp.stack st;
          RegExp.ts := match cs with
                       | [] => RegExp.ts st
                       | _ :: _ => RegExp.Quantifiable
                       end |}.
Proof.
  revert st. induction cs as [|c cs IH]; intros st Hmd Hcs.
  - destruct st as [m [a t] s q]. cbn in *. now subst m.
  - cbn [forallb] in Hcs. apply andb_true_iff in Hcs as [Hc Hcs].
    cbn [RegExp.steps]. rewrite (step_ordinary _ _ Hmd Hc). cbn [bind].
    rewrite (IH (RegExp.push_term (term_of c) RegExp.Quantifiable st)
               eq_refl Hcs).
    cbn [RegExp.push_term RegExp.top RegExp.alts RegExp.terms RegExp.stack
         RegExp.ts map rev].
    rewrite <- app_assoc. cbn [app]. now destruct cs.
Qed.

Lemma iterate_self (body : RegExp.pos -> list RegExp.pos) (fuel : nat)
    (st : RegExp.pos) :
  In st (RegExp.iterate body fuel st).
Proof.
  destruct fuel; cbn [RegExp.iterate]; [now left|].
  apply in_or_app. right. now left.
Qed.

Lemma run_Star_zero (r : RegExp.regex) (st : RegExp.pos) :
  In st (RegExp.run (RegExp.Star r) st).
Proof. cbn [RegExp.run]. apply iterate_self. Qed.

Lemma search_eq (r : RegExp.regex) (prev : option ascii) (s : list ascii) :
  RegExp.search r prev s
  = match RegExp.run r (prev, s) with
    | _ :: _ => true
    | [] => match s with
            | [] => false
            | c :: s' => RegExp.search r (Some c) s'
            end
    end.
Proof. destruct s; reflexivity. Qed.

Lemma search_skip (r : RegExp.regex) (before : list ascii)
    (prev : option ascii) (s : list ascii) (st : RegExp.pos) :
  In st (RegExp.run r (previous prev before, s)) ->
  RegExp.search r prev (before ++ s) = true.
Proof.
  revert prev. induction before as [|c before IH]; intros prev Hst;
    rewrite search_eq.
  - cbn [app]. cbn in Hst. destruct (RegExp.run r (prev, s));
      [destruct Hst|reflexivity].
  - cbn [app]. destruct (RegExp.run r (prev, c :: (before ++ s)%list));
      [|reflexivity].
    apply IH. exact Hst.
Qed.

Lemma suffix_steps (T : list RegExp.regex) (q : RegExp.tstate) :
  RegExp.steps
    {| RegExp.md := RegExp.Normal;
       RegExp.top := {| RegExp.alts := []; RegExp.terms := T |};
       RegExp.stack := [];
       RegExp.ts := q |}
    (chars ("['" ++ str dquote ++ "]?\s*$"))
  = Ok {| RegExp.md := RegExp.Normal;
          RegExp.top :=
            {| RegExp.alts := [];
               RegExp.terms :=
                 RegExp.Eol
                 :: RegExp.Star (RegExp.Set_ false [RegExp.ClsSpace false])
                 :: RegExp.Opt (RegExp.Set_ false
                                  [RegExp.ClsChar squote;
                                   RegExp.ClsChar dquote])
                 :: T |};
          RegExp.stack := [];
          RegExp.ts := RegExp.Closed |}.
Proof. reflexivity. Qed.

(** ** What the two patterns accept *)

Lemma accepts_Seq (r R : RegExp.regex) (st : RegExp.pos) :
  accepts (RegExp.Seq r R) st <->
  exists st1, In st1 (RegExp.run r st) /\ accepts R st1.
Proof.
  unfold accepts. cbn [RegExp.run]. split.
  - intros (st' & Hst'). apply in_flat_map in Hst' as (st1 & H1 & H2). eauto.
  - intros (st1 & H1 & st' & H2). exists st'. apply in_flat_map. eauto.
Qed.

Lemma advance_inv (ok : ascii -> bool) (st st1 : RegExp.pos) :
  In st1 (RegExp.advance ok st) <->
  exists c, snd st = c :: snd st1 /\ fst st1 = Some c /\ ok c = true.
Proof.
  unfold RegExp.advance. destruct st as [p [|c tl]]; cbn [snd].
  - split; [intros []|]. now intros (c & [=] & _).
  - destruct (ok c) eqn:Hc; split.
    + intros [<-|[]]. now exists c.
    + intros (d & [= <- Htl] & Hfst & _). left.
      destruct st1 as [p1 tl1]. cbn in *. now subst.
    + intros [].
    + intros (d & [= <- _] & _ & Hd). congruence.
Qed.

Lemma accepts_Seq_Bol (R : RegExp.regex) (st : RegExp.pos) :
  accepts (RegExp.Seq RegExp.Bol R) st <->
  RegExp.at_line_start st = true /\ accepts R st.
Proof.
  rewrite accepts_Seq. cbn [RegExp.run].
  destruct (RegExp.at_line_start st); split.
  - intros (st1 & [<-|[]] & HR). now split.
  - intros [_ HR]. exists st. split; [now left|exact HR].
  - intros (st1 & [] & _).
  - now intros [[=] _].
Qed.

Lemma accepts_Seq_literal (c : ascii) (R : RegExp.regex) (p : option ascii)
    (s : list ascii) :
  accepts (RegExp.Seq (RegExp.literal c) R) (p, s) <->
  exists tl, s = c :: tl /\ accepts R (Some c, tl).
Proof.
  rewrite accepts_Seq. unfold RegExp.literal. cbn [RegExp.run]. split.
  - intros ([p1 tl] & H1 & HR).
    apply advance_inv in H1 as (d & Hs & Hp & Hd). cbn in Hs, Hp, Hd.
    rewrite orb_false_r in Hd. apply Ascii.eqb_eq in Hd. subst.
    now exists tl.
  - intros (tl & -> & HR). exists (Some c, tl). split; [|exact HR].
    apply advance_inv. exists c. cbn. now rewrite Ascii.eqb_refl.
Qed.

Lemma accepts_Seq_Empty (R : RegExp.regex) (st : RegExp.pos) :
  accepts (RegExp.Seq RegExp.Empty R) st <-> accepts R st.
Proof.
  rewrite accepts_Seq. cbn [RegExp.run]. split.
  - now intros (st1 & [<-|[]] & HR).
  - intros HR. exists st. split; [now left|exact HR].
Qed.

Lemma accepts_Seq_Seq (a b R : RegExp.regex) (st : RegExp.pos) :
  accepts (RegExp.Seq (RegExp.Seq a b) R) st <->
  accepts (RegExp.Seq a (RegExp.Seq b R)) st.
Proof.
  rewrite !accepts_Seq. split.
  - intros (st2 & H2 & HR). cbn [RegExp.run] in H2.
    apply in_flat_map in H2 as (st1 & H1 & H2).
    exists st1. split; [exact H1|]. apply accepts_Seq. eauto.
  - intros (st1 & H1 & HR). apply accepts_Seq in HR as (st2 & H2 & HR).
    exists st2. split; [|exact HR]. cbn [RegExp.run]. apply in_flat_map.
    eauto.
Qed.

Lemma accepts_Seq_Alt (a b R : RegExp.regex) (st : RegExp.pos) :
  accepts (RegExp.Seq (RegExp.Alt a b) R) st <->
  accepts (RegExp.Seq a R) st \/ accepts (RegExp.Seq b R) st.
Proof.
  rewrite !accepts_Seq. cbn [RegExp.run]. split.
  - intros (st1 & H1 & HR). apply in_app_or in H1 as [H1|H1]; eauto.
  - intros [(st1 & H1 & HR)|(st1 & H1 & HR)]; exists st1;
      (split; [apply in_or_app; auto|exact HR]).
Qed.

Lemma accepts_Seq_Opt (r R : RegExp.regex) (st : RegExp.pos) :
  accepts (RegExp.Seq (RegExp.Opt r) R) st <->
  accepts (RegExp.Seq r R) st \/ accepts R st.
Proof.
  rewrite !accepts_Seq. cbn [RegExp.run]. split.
  - intros (st1 & H1 & HR).
    apply in_app_or in H1 as [H1|[<-|[]]]; eauto.
  - intros [(st1 & H1 & HR)|HR].
    + exists st1. split; [apply in_or_app; auto|exact HR].
    + exists st. split; [apply in_or_app; right; now left|exact HR].
Qed.

Lemma accepts_Eol (st : RegExp.pos) :
  accepts (RegExp.Seq RegExp.Eol RegExp.Empty) st <->
  RegExp.at_line_end st = true.
Proof.
  rewrite accepts_Seq. cbn [RegExp.run].
  destruct (RegExp.at_line_end st); split.
  - reflexivity.
  - intros _. exists st. split; [now left|]. exists st. now left.
  - intros (st1 & [] & _).
  - discriminate.
Qed.

Lemma previous_app (p : option ascii) (a b : list ascii) :
  previous p (a ++ b) = previous (previous p a) b.
Proof. unfold previous. apply fold_left_app. Qed.

Lemma iterate_mono (body : RegExp.pos -> list RegExp.pos) (n m : nat)
    (st st' : RegExp.pos) :
  In st' (RegExp.iterate body n st) -> n <= m ->
  In st' (RegExp.iterate body m st).
Proof.
  revert m st. induction n as [|n IH]; intros m st Hin Hle.
  - destruct Hin as [<-|[]]. apply iterate_self.
  - destruct m as [|m]; [lia|]. cbn [RegExp.iterate] in *.
    apply in_app_or in Hin as [Hin|Hin]; apply in_or_app; [left|now right].
    apply in_flat_map in Hin as (st1 & H1 & Hin). apply in_flat_map.
    exists st1. split; [exact H1|].
    destruct (Nat.ltb _ _); [|destruct Hin]. apply IH; [exact Hin|lia].
Qed.

Lemma run_Star_step (r : RegExp.regex) (st st1 st2 : RegExp.pos) :
  In st1 (RegExp.run r st) ->
  length (snd st1) < length (snd st) ->
  In st2 (RegExp.run (RegExp.Star r) st1) ->
  In st2 (RegExp.run (RegExp.Star r) st).
Proof.
  intros Hr Hlt Hstar. cbn [RegExp.run] in *. cbn [RegExp.iterate].
  apply in_or_app. left. apply in_flat_map. exists st1.
  split; [exact Hr|]. rewrite (proj2 (Nat.ltb_lt _ _) Hlt).
  eapply iterate_mono; [exact Hstar|lia].
Qed.

Lemma run_spaces (sp : list ascii) (p : option ascii) (tl : list ascii) :
  blank sp ->
  In (previous p sp, tl) (RegExp.run spaces_term (p, (sp ++ tl)%list)).
Proof.
  unfold spaces_term. intros Hsp. revert p.
  induction Hsp as [|c sp Hc _ IH]; intros p; [apply run_Star_zero|].
  apply (run_Star_step _ _ (Some c, (sp ++ tl)%list)).
  - cbn [RegExp.run]. apply advance_inv. exists c. cbn. now rewrite Hc.
  - cbn [snd app length]. lia.
  - apply IH.
Qed.

Lemma iterate_spaces_inv (n : nat) (st st' : RegExp.pos) :
  In st' (RegExp.iterate
            (RegExp.run (RegExp.Set_ false [RegExp.ClsSpace false])) n st) ->
  exists sp,
    snd st = (sp ++ snd st')%list /\ blank sp
    /\ fst st' = previous (fst st) sp.
Proof.
  revert st. induction n as [|n IH]; intros st Hin.
  - destruct Hin as [<-|[]]. exists []. repeat split. constructor.
  - cbn [RegExp.iterate] in Hin. apply in_app_or in Hin as [Hin|[<-|[]]].
    2:{ exists []. repeat split. constructor. }
    apply in_flat_map in Hin as (st1 & H1 & Hin).
    destruct (Nat.ltb _ _); [|destruct Hin].
    apply IH in Hin as (sp & Hsp & Hblank & Hprev).
    cbn [RegExp.run] in H1. apply advance_inv in H1 as (c & Hs & Hp & Hc).
    cbn in Hc. rewrite orb_false_r in Hc.
    exists (c :: sp). split; [|split].
    + rewrite Hs, Hsp. reflexivity.
    + constructor; assumption.
    + rewrite Hprev, Hp. reflexivity.
Qed.

Lemma accepts_Seq_spaces (R : RegExp.regex) (p : option ascii)
    (s : list ascii) :
  accepts (RegExp.Seq spaces_term R) (p, s) <->
  exists sp tl,
    s = (sp ++ tl)%list /\ blank sp /\ accepts R (previous p sp, tl).
Proof.
  rewrite accepts_Seq. split.
  - intros ([p1 tl] & H1 & HR). unfold spaces_term in H1.
    cbn [RegExp.run] in H1.
    apply iterate_spaces_inv in H1 as (sp & Hs & Hblank & Hprev).
    cbn in Hs, Hprev. subst. now exists sp, tl.
  - intros (sp & tl & -> & Hblank & HR).
    exists (previous p sp, tl). split; [now apply run_spaces|exact HR].
Qed.

Lemma accepts_Seq_quote_char (R : RegExp.regex) (p : option ascii)
    (s : list ascii) :
  accepts (RegExp.Seq quote_term R) (p, s) <->
  exists q tl,
    s = q :: tl /\ (q = squote \/ q = dquote) /\ accepts R (Some q, tl).
Proof.
  rewrite accepts_Seq. unfold quote_term. cbn [RegExp.run]. split.
  - intros ([p1 tl] & H1 & HR).
    apply advance_inv in H1 as (q & Hs & Hp & Hq). cbn in Hs, Hp, Hq.
    rewrite orb_false_r in Hq. subst. exists q, tl.
    split; [reflexivity|]. split; [|exact HR].
    apply orb_true_iff in Hq as [Hq|Hq]; apply Ascii.eqb_eq in Hq; auto.
  - intros (q & tl & -> & Hq & HR). exists (Some q, tl). split; [|exact HR].
    apply advance_inv. exists q. cbn.
    destruct Hq as [->| ->]; repeat split; reflexivity.
Qed.

Lemma accepts_Seq_quote (R : RegExp.regex) (p : option ascii)
    (s : list ascii) :
  accepts (RegExp.Seq (RegExp.Opt quote_term) R) (p, s) <->
  exists q tl,
    s = (q ++ tl)%list /\ quote_mark q /\ accepts R (previous p q, tl).
Proof.
  rewrite accepts_Seq_Opt, accepts_Seq_quote_char. unfold quote_mark. split.
  - intros [(q & tl & -> & Hq & HR)|HR].
    + exists [q], tl. split; [reflexivity|]. split; [|exact HR].
      destruct Hq as [->| ->]; auto.
    + exists [], s. auto.
  - intros (q & tl & -> & [->|[->| ->]] & HR).
    + now right.
    + left. exists squote, tl. auto.
    + left. exists dquote, tl. auto.
Qed.

Lemma accepts_Seq_marker (R : RegExp.regex) (p : option ascii)
    (s : list ascii) :
  accepts
    (RegExp.Seq
       (RegExp.Opt
          (RegExp.Alt
             (RegExp.Seq quote_term RegExp.Empty)
             (RegExp.Seq (RegExp.literal ">")
                (RegExp.Seq (RegExp.literal "-") RegExp.Empty))))
       R) (p, s) <->
  exists q tl,
    s = (q ++ tl)%list /\ (quote_mark q \/ q = chars ">-")
    /\ accepts R (previous p q, tl).
Proof.
  rewrite accepts_Seq_Opt, accepts_Seq_Alt, !accepts_Seq_Seq.
  rewrite accepts_Seq_quote_char, accepts_Seq_literal.
  unfold quote_mark. split.
  - intros [ [(q & tl & -> & Hq & HR)|(tl & -> & HR)]|HR].
    + apply (proj1 (accepts_Seq_Empty _ _)) in HR. exists [q], tl.
      split; [reflexivity|]. split; [|exact HR].
      destruct Hq as [->| ->]; auto.
    + apply (proj1 (accepts_Seq_Seq _ _ _ _)) in HR.
      apply (proj1 (accepts_Seq_literal _ _ _ _)) in HR as (tl' & -> & HR).
      apply (proj1 (accepts_Seq_Empty _ _)) in HR.
      exists (chars ">-"), tl'. auto.
    + exists [], s. auto.
  - intros (q & tl & -> & [ [->|[->| ->] ]| ->] & HR).
    + now right.
    + left. left. exists squote, tl. split; [reflexivity|].
      split; [auto|]. now apply accepts_Seq_Empty.
    + left. left. exists dquote, tl. split; [reflexivity|].
      split; [auto|]. now apply accepts_Seq_Empty.
    + left. right. exists ("-"%char :: tl). split; [reflexivity|].
      apply (proj2 (accepts_Seq_Seq _ _ _ _)).
      apply (proj2 (accepts_Seq_literal _ _ _ _)). exists tl.
      split; [reflexivity|]. now apply accepts_Seq_Empty.
Qed.

Lemma run_term_of_iff (c : ascii) (st st1 : RegExp.pos) :
  In st1 (RegExp.run (term_of c) st) <->
  exists d,
    snd st = d :: snd st1 /\ fst st1 = Some d
    /\ (d = c \/ c = "."%char /\ is_line_terminator d = false).
Proof.
  unfold term_of. destruct (Ascii.eqb c ".") eqn:Hc.
  - apply Ascii.eqb_eq in Hc as ->. cbn [RegExp.run].
    rewrite advance_inv. split; intros (d & Hs & Hp & Hd); exists d;
      (split; [exact Hs|]; split; [exact Hp|]).
    + right. split; [reflexivity|]. now apply negb_true_iff.
    + apply negb_true_iff. destruct Hd as [->|[_ Hd]]; [reflexivity|exact Hd].
  - unfold RegExp.literal. cbn [RegExp.run]. rewrite advance_inv.
    split; intros (d & Hs & Hp & Hd); exists d;
      (split; [exact Hs|]; split; [exact Hp|]).
    + cbn in Hd. rewrite orb_false_r in Hd. left. now apply Ascii.eqb_eq.
    + cbn. rewrite orb_false_r. destruct Hd as [->|[-> _]];
        [apply Ascii.eqb_refl|discriminate].
Qed.

Lemma accepts_terms (cs : list ascii) (acc : RegExp.regex)
    (p : option ascii) (s : list ascii) :
  accepts (fold_left (fun acc t => RegExp.Seq t acc) (rev (map term_of cs))
                     acc) (p, s) <->
  exists text tl,
    s = (text ++ tl)%list /\ reads_as cs text
    /\ accepts acc (previous p text, tl).
Proof.
  revert p s. induction cs as [|c cs IH]; intros p s.
  - cbn [map rev fold_left]. split.
    + intros Hacc. exists [], s. repeat split; [constructor|exact Hacc].
    + intros (text & tl & -> & Hreads & Hacc). inversion Hreads. subst.
      exact Hacc.
  - cbn [map rev]. rewrite fold_left_app. cbn [fold_left].
    rewrite accepts_Seq. split.
    + intros ([p1 s1] & H1 & Hacc).
      apply run_term_of_iff in H1 as (d & Hs & Hp & Hd). cbn in Hs, Hp.
      subst. apply IH in Hacc as (text & tl & -> & Hreads & Hacc).
      exists (d :: text), tl. split; [reflexivity|].
      split; [now constructor|exact Hacc].
    + intros (text & tl & -> & Hreads & Hacc).
      inversion Hreads as [|c' d cs' text' Hd Hreads']. subst.
      exists (Some d, (text' ++ tl)%list). split.
      * apply run_term_of_iff. exists d. auto.
      * apply IH. exists text', tl. auto.
Qed.

Lemma search_accepts (r : RegExp.regex) (prev : option ascii)
    (s : list ascii) :
  RegExp.search r prev s = true <->
  exists before after,
    s = (before ++ after)%list /\ accepts r (previous prev before, after).
Proof.
  split.
  - revert prev. induction s as [|c s IH]; intros prev; rewrite search_eq.
    + destruct (RegExp.run r (prev, [])) as [|st l] eqn:Hrun;
        [discriminate|]. intros _. exists [], []. split; [reflexivity|].
      exists st. cbn. rewrite Hrun. now left.
    + destruct (RegExp.run r (prev, c :: s)) as [|st l] eqn:Hrun.
      * intros Hs. apply IH in Hs as (before & after & -> & Hacc).
        now exists (c :: before), after.
      * intros _. exists [], (c :: s). split; [reflexivity|].
        exists st. cbn. rewrite Hrun. now left.
  - intros (before & after & -> & st & Hst). eapply search_skip. exact Hst.
Qed.

Lemma accepts_value (cs : list ascii) (p : option ascii) (s : list ascii) :
  accepts
    (fold_left (fun acc t => RegExp.Seq t acc) (rev (map term_of cs))
       (RegExp.Seq (RegExp.Opt quote_term)
          (RegExp.Seq spaces_term (RegExp.Seq RegExp.Eol RegExp.Empty))))
    (p, s) <->
  exists text q2 sp3 after,
    s = (text ++ q2 ++ sp3 ++ after)%list /\
    reads_as cs text /\ quote_mark q2 /\ blank sp3 /\
    RegExp.at_line_end (None, after) = true.
Proof.
  rewrite accepts_terms. split.
  - intros (text & tl & -> & Hreads & Hacc).
    apply (proj1 (accepts_Seq_quote _ _ _)) in Hacc
      as (q2 & tl2 & -> & Hq & Hacc).
    apply (proj1 (accepts_Seq_spaces _ _ _)) in Hacc
      as (sp3 & after & -> & Hsp & Hacc).
    apply (proj1 (accepts_Eol _)) in Hacc.
    exists text, q2, sp3, after. repeat split; assumption.
  - intros (text & q2 & sp3 & after & -> & Hreads & Hq & Hsp & Hend).
    exists text, (q2 ++ sp3 ++ after)%list.
    split; [reflexivity|]. split; [exact Hreads|].
    apply (proj2 (accepts_Seq_quote _ _ _)).
    exists q2, (sp3 ++ after)%list. split; [reflexivity|].
    split; [exact Hq|].
    apply (proj2 (accepts_Seq_spaces _ _ _)).
    exists sp3, after. split; [reflexivity|]. split; [exact Hsp|].
    apply (proj2 (accepts_Eol _)). exact Hend.
Qed.

(** What the id pattern of a plain id accepts at a position. *)
Lemma idRegex_accepts (id : string) :
  forallb ordinary (chars id) = true ->
  exists r,
    RegExp.compile (idRegex_source id) = Ok r /\
    forall p s,
      accepts r (p, s) <->
      RegExp.at_line_start (p, []) = true /\
      exists sp1 q1 sp2 text q2 sp3 after,
        s = (chars "id:" ++ sp1 ++ q1 ++ sp2 ++ text ++ q2 ++ sp3 ++ after)
              %list /\
        blank sp1 /\ (quote_mark q1 \/ q1 = chars ">-") /\ blank sp2 /\
        reads_as (chars id) text /\ quote_mark q2 /\ blank sp3 /\
        RegExp.at_line_end (None, after) = true.
Proof.
  intros Hid. unfold RegExp.compile, idRegex_source.
  rewrite !chars_app, steps_app.
  match goal with
  | |- context [RegExp.steps RegExp.start ?p] =>
      let v := eval vm_compute in (RegExp.steps RegExp.start p) in
      change (RegExp.steps RegExp.start p) with v
  end.
  cbn [bind]. rewrite steps_app.
  rewrite steps_ordinary; [|reflexivity|exact Hid].
  cbn [bind RegExp.top RegExp.alts RegExp.terms RegExp.stack RegExp.ts].
  rewrite suffix_steps. cbn [bind RegExp.finish RegExp.md RegExp.stack].
  eexists. split; [reflexivity|].
  intros p s.
  unfold RegExp.close_frame, RegExp.seq_of.
  cbn [RegExp.alts RegExp.terms RegExp.top fold_left].
  rewrite fold_left_app. cbn [fold_left].
  match goal with
  | |- accepts ?r _ <-> _ =>
      change r with
            (RegExp.Seq RegExp.Bol
               (RegExp.Seq (RegExp.literal "i")
                  (RegExp.Seq (RegExp.literal "d")
                     (RegExp.Seq (RegExp.literal ":")
                        (RegExp.Seq spaces_term
                           (RegExp.Seq
                              (RegExp.Opt
                                 (RegExp.Alt
                                    (RegExp.Seq quote_term RegExp.Empty)
                                    (RegExp.Seq (RegExp.literal ">")
                                       (RegExp.Seq (RegExp.literal "-")
                                          RegExp.Empty))))
                              (RegExp.Seq spaces_term
                                 (fold_left
                                    (fun acc t => RegExp.Seq t acc)
                                    (rev (map term_of (chars id)))
                                    (RegExp.Seq (RegExp.Opt quote_term)
                                       (RegExp.Seq spaces_term
                                          (RegExp.Seq RegExp.Eol
                                             RegExp.Empty)))))))))))
  end.
  rewrite accepts_Seq_Bol. apply and_iff_compat_l. split.
  - intros Hacc.
    apply (proj1 (accepts_Seq_literal _ _ _ _)) in Hacc as (s1 & -> & Hacc).
    apply (proj1 (accepts_Seq_literal _ _ _ _)) in Hacc as (s2 & -> & Hacc).
    apply (proj1 (accepts_Seq_literal _ _ _ _)) in Hacc as (s3 & -> & Hacc).
    apply (proj1 (accepts_Seq_spaces _ _ _)) in Hacc
      as (sp1 & s4 & -> & Hsp1 & Hacc).
    apply (proj1 (accepts_Seq_marker _ _ _)) in Hacc
      as (q1 & s5 & -> & Hq1 & Hacc).
    apply (proj1 (accepts_Seq_spaces _ _ _)) in Hacc
      as (sp2 & s6 & -> & Hsp2 & Hacc).
    apply (proj1 (accepts_value _ _ _)) in Hacc
      as (text & q2 & sp3 & after & -> & Hreads & Hq2 & Hsp3 & Hend).
    exists sp1, q1, sp2, text, q2, sp3, after. repeat split; assumption.
  - intros (sp1 & q1 & sp2 & text & q2 & sp3 & after & -> & Hsp1 & Hq1
            & Hsp2 & Hreads & Hq2 & Hsp3 & Hend).
    change (chars "id:") with ["i"; "d"; ":"]%char. cbn [app].
    apply (proj2 (accepts_Seq_literal _ _ _ _)).
    eexists. split; [reflexivity|].
    apply (proj2 (accepts_Seq_literal _ _ _ _)).
    eexists. split; [reflexivity|].
    apply (proj2 (accepts_Seq_literal _ _ _ _)).
    eexists. split; [reflexivity|].
    apply (proj2 (accepts_Seq_spaces _ _ _)).
    exists sp1. eexists. split; [reflexivity|]. split; [exact Hsp1|].
    apply (proj2 (accepts_Seq_marker _ _ _)).
    exists q1. eexists. split; [reflexivity|]. split; [exact Hq1|].
    apply (proj2 (accepts_Seq_spaces _ _ _)).
    exists sp2. eexists. split; [reflexivity|]. split; [exact Hsp2|].
    apply (proj2 (accepts_value _ _ _)).
    exists text, q2, sp3, after. repeat split; assumption.
Qed.

(** What the version pattern of a plain version accepts at a position. *)
Lemma versionRegex_accepts (version : string) :
  forallb ordinary (chars version) = true ->
  exists r,
    RegExp.compile (versionRegex_source (Some version)) = Ok r /\
    forall p s,
      accepts r (p, s) <->
      RegExp.at_line_start (p, []) = true /\
      exists sp1 q1 text q2 sp3 after,
        s = (chars "version:" ++ sp1 ++ q1 ++ text ++ q2 ++ sp3 ++ after)
              %list /\
        blank sp1 /\ quote_mark q1 /\
        reads_as (chars version) text /\ quote_mark q2 /\ blank sp3 /\
        RegExp.at_line_end (None, after) = true.
Proof.
  intros Hversion. unfold RegExp.compile, versionRegex_source, interpolate.
  rewrite !chars_app, steps_app.
  match goal with
  | |- context [RegExp.steps RegExp.start ?p] =>
      let v := eval vm_compute in (RegExp.steps RegExp.start p) in
      change (RegExp.steps RegExp.start p) with v
  end.
  cbn [bind]. rewrite steps_app.
  rewrite steps_ordinary; [|reflexivity|exact Hversion].
  cbn [bind RegExp.top RegExp.alts RegExp.terms RegExp.stack RegExp.ts].
  rewrite suffix_steps. cbn [bind RegExp.finish RegExp.md RegExp.stack].
  eexists. split; [reflexivity|].
  intros p s.
  unfold RegExp.close_frame, RegExp.seq_of.
  cbn [RegExp.alts RegExp.terms RegExp.top fold_left].
  rewrite fold_left_app. cbn [fold_left].
  match goal with
  | |- accepts ?r _ <-> _ =>
      change r with
            (RegExp.Seq RegExp.Bol
               (RegExp.Seq (RegExp.literal "v")
               (RegExp.Seq (RegExp.literal "e")
               (RegExp.Seq (RegExp.literal "r")
               (RegExp.Seq (RegExp.literal "s")
               (RegExp.Seq (RegExp.literal "i")
               (RegExp.Seq (RegExp.literal "o")
               (RegExp.Seq (RegExp.literal "n")
               (RegExp.Seq (RegExp.literal ":")
                  (RegExp.Seq spaces_term
                     (RegExp.Seq (RegExp.Opt quote_term)
                        (fold_left
                           (fun acc t => RegExp.Seq t acc)
                           (rev (map term_of (chars version)))
                           (RegExp.Seq (RegExp.Opt quote_term)
                              (RegExp.Seq spaces_term
                                 (RegExp.Seq RegExp.Eol
                                    RegExp.Empty)))))))))))))))
  end.
  rewrite accepts_Seq_Bol. apply and_iff_compat_l. split.
  - intros Hacc.
    do 8 (apply (proj1 (accepts_Seq_literal _ _ _ _)) in Hacc
            as (? & -> & Hacc)).
    apply (proj1 (accepts_Seq_spaces _ _ _)) in Hacc
      as (sp1 & s4 & -> & Hsp1 & Hacc).
    apply (proj1 (accepts_Seq_quote _ _ _)) in Hacc
      as (q1 & s5 & -> & Hq1 & Hacc).
    apply (proj1 (accepts_value _ _ _)) in Hacc
      as (text & q2 & sp3 & after & -> & Hreads & Hq2 & Hsp3 & Hend).
    exists sp1, q1, text, q2, sp3, after. repeat split; assumption.
  - intros (sp1 & q1 & text & q2 & sp3 & after & -> & Hsp1 & Hq1
            & Hreads & Hq2 & Hsp3 & Hend).
    change (chars "version:")
      with ["v"; "e"; "r"; "s"; "i"; "o"; "n"; ":"]%char. cbn [app].
    do 8 (apply (proj2 (accepts_Seq_literal _ _ _ _));
          eexists; split; [reflexivity|]).
    apply (proj2 (accepts_Seq_spaces _ _ _)).
    exists sp1. eexists. split; [reflexivity|]. split; [exact Hsp1|].
    apply (proj2 (accepts_Seq_quote _ _ _)).
    exists q1. eexists. split; [reflexivity|]. split; [exact Hq1|].
    apply (proj2 (accepts_value _ _ _)).
    exists text, q2, sp3, after. repeat split; assumption.
Qed.

Lemma test_id_entry (id : string) (r : RegExp.regex) :
  (forall p s,
     accepts r (p, s) <->
     RegExp.at_line_start (p, []) = true /\
     exists sp1 q1 sp2 text q2 sp3 after,
       s = (chars "id:" ++ sp1 ++ q1 ++ sp2 ++ text ++ q2 ++ sp3 ++ after)
             %list /\
       blank sp1 /\ (quote_mark q1 \/ q1 = chars ">-") /\ blank sp2 /\
       reads_as (chars id) text /\ quote_mark q2 /\ blank sp3 /\
       RegExp.at_line_end (None, after) = true) ->
  forall content, RegExp.test r content = true <-> id_entry id content.
Proof.
  intros Hr content. unfold RegExp.test, id_entry. rewrite search_accepts.
  split.
  - intros (before & rest & Hc & Hacc).
    apply Hr in Hacc
      as (Hstart & sp1 & q1 & sp2 & text & q2 & sp3 & after & -> & Hrest).
    exists before, sp1, q1, sp2, text, q2, sp3, after.
    split; [exact Hc|]. split; [exact Hstart|exact Hrest].
  - intros (before & sp1 & q1 & sp2 & text & q2 & sp3 & after & Hc & Hstart
            & Hrest).
    eexists before, _. split; [exact Hc|]. apply Hr.
    split; [exact Hstart|].
    exists sp1, q1, sp2, text, q2, sp3, after. split; [reflexivity|exact Hrest].
Qed.

Lemma test_version_entry (version : string) (r : RegExp.regex) :
  (forall p s,
     accepts r (p, s) <->
     RegExp.at_line_start (p, []) = true /\
     exists sp1 q1 text q2 sp3 after,
       s = (chars "version:" ++ sp1 ++ q1 ++ text ++ q2 ++ sp3 ++ after)
             %list /\
       blank sp1 /\ quote_mark q1 /\
       reads_as (chars version) text /\ quote_mark q2 /\ blank sp3 /\
       RegExp.at_line_end (None, after) = true) ->
  forall content,
    RegExp.test r content = true <-> version_entry version content.
Proof.
  intros Hr content. unfold RegExp.test, version_entry.
  rewrite search_accepts. split.
  - intros (before & rest & Hc & Hacc).
    apply Hr in Hacc
      as (Hstart & sp1 & q1 & text & q2 & sp3 & after & -> & Hrest).
    exists before, sp1, q1, text, q2, sp3, after.
    split; [exact Hc|]. split; [exact Hstart|exact Hrest].
  - intros (before & sp1 & q1 & text & q2 & sp3 & after & Hc & Hstart
            & Hrest).
    eexists before, _. split; [exact Hc|]. apply Hr.
    split; [exact Hstart|].
    exists sp1, q1, text, q2, sp3, after. split; [reflexivity|exact Hrest].
Qed.

(** The two patterns of plain arguments compile, and what the test of
    [searchFilesForId] then asks of a text. *)
Lemma plain_patterns_exact (id : string) (version : option string) :
  forallb ordinary (chars id) = true ->
  (forall v, version = Some v -> forallb ordinary (chars v) = true) ->
  exists idRegex versionRegex,
    RegExp.compile (idRegex_source id) = Ok idRegex /\
    RegExp.compile (versionRegex_source version) = Ok versionRegex /\
    forall content,
      RegExp.test idRegex content
      && (negb (truthy version) || RegExp.test versionRegex content) = true
      <->
      id_entry id content /\
      (forall v, version = Some v -> v <> "" -> version_entry v content).
Proof.
  intros Hid Hversion.
  destruct (idRegex_accepts id Hid) as (r1 & Hr1 & Hacc1).
  pose proof (test_id_entry id r1 Hacc1) as Htest1.
  assert (Hr2 : exists r2,
             RegExp.compile (versionRegex_source version) = Ok r2 /\
             forall content,
               negb (truthy version) || RegExp.test r2 content = true <->
               (forall v, version = Some v -> v <> "" ->
                          version_entry v content)).
  { destruct version as [v|].
    - destruct (versionRegex_accepts v (Hversion v eq_refl))
        as (r2 & Hr2 & Hacc2).
      pose proof (test_version_entry v r2 Hacc2) as Htest2.
      exists r2. split; [exact Hr2|]. intros content.
      cbn [truthy]. rewrite negb_involutive, orb_true_iff, Htest2.
      split.
      + intros [Hv|Hentry] w [= <-] Hne; [|exact Hentry].
        apply String.eqb_eq in Hv. contradiction.
      + intros Hentry. destruct (String.eqb v "") eqn:Hv; [now left|].
        right. apply (Hentry v eq_refl). now apply String.eqb_neq.
    - eexists. split; [vm_compute; reflexivity|]. intros content.
      split; [discriminate|reflexivity]. }
  destruct Hr2 as (r2 & Hr2 & Htest2).
  exists r1, r2. split; [exact Hr1|]. split; [exact Hr2|].
  intros content. now rewrite andb_true_iff, Htest1, Htest2.
Qed.

(** ** The lines a front matter usually has *)

Lemma reads_as_refl (cs : list ascii) : reads_as cs cs.
Proof. induction cs; constructor; auto. Qed.

Lemma has_line_position (before after : string) :
  (before = "" \/ exists b : string, before = (b ++ str LF)%string) ->
  (after = "" \/ exists a : string, after = String LF a) ->
  RegExp.at_line_start (previous None (chars before), []) = true /\
  RegExp.at_line_end (None, chars after) = true.
Proof.
  intros Hbefore Hafter. split.
  - destruct Hbefore as [->|[b ->]]; [reflexivity|].
    rewrite chars_app, previous_app. reflexivity.
  - destruct Hafter as [->|[a ->]]; reflexivity.
Qed.

Lemma has_line_id_entry (id content : string) :
  has_line ("id: " ++ id) content -> id_entry id content.
Proof.
  intros (before & after & -> & Hbefore & Hafter).
  destruct (has_line_position before after Hbefore Hafter) as [Hstart Hend].
  exists (chars before), [" "%char], [], [], (chars id), [], [],
    (chars after).
  split; [rewrite !chars_app; reflexivity|].
  split; [exact Hstart|]. split; [repeat constructor|].
  split; [left; now left|]. split; [constructor|].
  split; [apply reads_as_refl|]. split; [now left|].
  split; [constructor|exact Hend].
Qed.

Lemma has_line_version_entry (version content : string) :
  has_line ("version: " ++ version) content -> version_entry version content.
Proof.
  intros (before & after & -> & Hbefore & Hafter).
  destruct (has_line_position before after Hbefore Hafter) as [Hstart Hend].
  exists (chars before), [" "%char], [], (chars version), [], [],
    (chars after).
  split; [rewrite !chars_app; reflexivity|].
  split; [exact Hstart|]. split; [repeat constructor|].
  split; [now left|].
  split; [apply reads_as_refl|]. split; [now left|].
  split; [constructor|exact Hend].
Qed.

Lemma find_exists {A : Type} (f : A -> bool) (l : list A) (x : A) :
  In x l -> f x = true -> exists y, find f l = Some y.
Proof.
  intros Hin Hx. destruct (find f l) as [y|] eqn:Hfind; [eauto|].
  pose proof (find_none f l Hfind x Hin). congruence.
Qed.

(** The two patterns of plain arguments compile, and match the texts that
    have the lines. *)
Lemma plain_patterns (id : string) (version : option string) :
  forallb ordinary (chars id) = true ->
  (forall v, version = Some v -> forallb ordinary (chars v) = true) ->
  exists idRegex versionRegex,
    RegExp.compile (idRegex_source id) = Ok idRegex /\
    RegExp.compile (versionRegex_source version) = Ok versionRegex /\
    forall content,
      has_line ("id: " ++ id) content ->
      (forall v, version = Some v -> has_line ("version: " ++ v) content) ->
      RegExp.test idRegex content
      && (negb (truthy version) || RegExp.test versionRegex content) = true.
Proof.
  intros Hid Hversion.
  destruct (idRegex_accepts id Hid) as (r1 & Hr1 & Hacc1).
  pose proof (test_id_entry id r1 Hacc1) as Htest1.
  assert (Hr2 : exists r2,
             RegExp.compile (versionRegex_source version) = Ok r2 /\
             forall content,
               (forall v, version = Some v ->
                          has_line ("version: " ++ v) content) ->
               negb (truthy version) || RegExp.test r2 content = true).
  { destruct version as [v|].
    - destruct (versionRegex_accepts v (Hversion v eq_refl))
        as (r2 & Hr2 & Hacc2).
      exists r2. split; [exact Hr2|]. intros content Hvline.
      rewrite (proj2 (test_version_entry v r2 Hacc2 content)
                 (has_line_version_entry _ _ (Hvline v eq_refl))).
      apply orb_true_r.
    - eexists. split; [vm_compute; reflexivity|reflexivity]. }
  destruct Hr2 as (r2 & Hr2 & Htest2).
  exists r1, r2. split; [exact Hr1|]. split; [exact Hr2|].
  intros content Hline Hvline.
  now rewrite (proj2 (Htest1 content) (has_line_id_entry _ _ Hline)),
              (Htest2 content Hvline).
Qed.

Lemma searchFilesForId_line (fs : FS) (files : list string) (id : string)
    (version : option string) :
  forallb ordinary (chars id) = true ->
  (forall v, version = Some v -> forallb ordinary (chars v) = true) ->
  Forall (readable fs) files ->
  exists found,
    searchFilesForId fs files id version = Ok found /\
    forall file,
      In file files ->
      has_line ("id: " ++ id) (content_of fs file) ->
      (forall v, version = Some v ->
                 has_line ("version: " ++ v) (content_of fs file)) ->
      In file found.
Proof.
  intros Hid Hversion Hread.
  destruct (plain_patterns id version Hid Hversion)
    as (r1 & r2 & Hr1 & Hr2 & Htest).
  rewrite (searchFilesForId_filter _ _ _ _ _ _ Hr1 Hr2 Hread).
  eexists. split; [reflexivity|]. intros file Hin Hline Hvline.
  apply filter_In. split; [exact Hin|]. unfold selected. now apply Htest.
Qed.

(** X11: Completeness of the search on plain arguments: when every file can be
    read, the id is made of ordinary characters (no pattern syntax but the
    dot) and so is the version if one is given, the search succeeds, and it
    returns every file that has the line [id: <id>] and, with a version, the
    line [version: <version>], in the order of the input. *)
Theorem searchFilesForId_finds_lines (fs : FS) (files : list string)
    (id : string) (version : option string) :
  forallb ordinary (chars id) = true ->
  (forall v, version = Some v -> forallb ordinary (chars v) = true) ->
  Forall (readable fs) files ->
  exists found,
    searchFilesForId fs files id version = Ok found /\
    sublist found files /\
    forall file,
      In file files ->
      has_line ("id: " ++ id) (content_of fs file) ->
      (forall v, version = Some v ->
                 has_line ("version: " ++ v) (content_of fs file)) ->
      In file found.
Proof.
  intros Hid Hversion Hread.
  destruct (searchFilesForId_line fs files id version Hid Hversion Hread)
    as (found & Hfound & Hfinds).
  exists found. split; [exact Hfound|]. split; [|exact Hfinds].
  apply searchFilesForId_inv in Hfound as (r1 & r2 & _ & _ & _ & ->).
  apply filter_sublist.
Qed.

(** X12: When every path found under the catalog can be read,
    [versionExists] answers true for a plain id and version as soon as one
    [index.md] of the catalog has the two lines [id: <id>] and
    [version: <version>]. *)
Theorem versionExists_finds_document (fs : FS)
    (catalogDir id version : string) (files : list string) (file : string) :
  forallb ordinary (chars id) = true ->
  forallb ordinary (chars version) = true ->
  getFiles fs (catalogDir ++ "/**/index.md") = Ok files ->
  Forall (readable fs) files ->
  In file files ->
  has_line ("id: " ++ id) (content_of fs file) ->
  has_line ("version: " ++ version) (content_of fs file) ->
  versionExists fs catalogDir id version = Ok true.
Proof.
  intros Hid Hversion Hfiles Hread Hin Hline Hvline.
  destruct (searchFilesForId_line fs files id (Some version) Hid)
    as (found & Hfound & Hfinds);
    [now intros v [= <-]|exact Hread|].
  assert (Hfile : In file found).
  { apply Hfinds; [exact Hin|exact Hline|now intros v [= <-]]. }
  unfold versionExists. rewrite Hfiles. cbn [bind].
  rewrite Hfound. cbn [bind].
  destruct found as [|f found]; [destruct Hfile|reflexivity].
Qed.

Section FindFileByIdFinds.
Context `{SemVer} `{GrayMatter} `{Collator}.

(** X13: When every path found under the catalog can be read, [findFileById]
    without a version returns a document for a plain id as soon as one
    [index.md] of the catalog has the line [id: <id>] and a path that does
    not contain [versioned]; the document returned has no [versioned] in
    its path either. *)
Theorem findFileById_finds_document (fs : FS) (catalogDir id : string)
    (files : list string) (file : string) :
  forallb ordinary (chars id) = true ->
  getFiles fs (catalogDir ++ "/**/index.md") = Ok files ->
  Forall (readable fs) files ->
  In file files ->
  has_line ("id: " ++ id) (content_of fs file) ->
  includes "versioned" file = false ->
  exists p,
    findFileById fs catalogDir id None = Ok (Some p) /\
    includes "versioned" p = false.
Proof.
  intros Hid Hfiles Hread Hin Hline Hfile.
  destruct (searchFilesForId_line fs files id None Hid)
    as (found & Hfound & Hfinds); [discriminate|exact Hread|].
  assert (Hfound_file : In file found).
  { apply Hfinds; [exact Hin|exact Hline|discriminate]. }
  rewrite findFileById_eq, Hfiles. cbn [bind]. rewrite Hfound. cbn [bind].
  destruct (find_exists (fun path => negb (includes "versioned" path))
              found file Hfound_file) as [p Hp];
    [now rewrite Hfile|].
  exists p. rewrite Hp. split; [reflexivity|].
  apply find_some in Hp as [_ Hp]. now apply negb_true_iff in Hp.
Qed.

End FindFileByIdFinds.

Lemma foo_latest_lines :
  has_line ("id: " ++ "foo") (content_of foo_catalog foo_latest) /\
  has_line ("version: " ++ "2.0.0") (content_of foo_catalog foo_latest).
Proof.
  split.
  - exists ("---" ++ str LF)%string,
      (String LF ("version: 2.0.0" ++ str LF ++ "---" ++ str LF
                  ++ "# Overview" ++ str LF)%string).
    split; [vm_compute; reflexivity|].
    split; right; [exists "---"|eexists]; reflexivity.
  - exists ("---" ++ str LF ++ "id: foo" ++ str LF)%string,
      (String LF ("---" ++ str LF ++ "# Overview" ++ str LF)%string).
    split; [vm_compute; reflexivity|].
    split; right; [exists ("---" ++ str LF ++ "id: foo")%string|eexists];
      reflexivity.
Qed.

Lemma foo_catalog_readable :
  Forall (readable foo_catalog) [foo_snapshot; foo_latest].
Proof. repeat constructor; eexists; vm_compute; reflexivity. Qed.

Lemma searchFilesForId_finds_lines_witness :
  forallb ordinary (chars "foo") = true /\
  (forall v, Some "2.0.0" = Some v -> forallb ordinary (chars v) = true) /\
  Forall (readable foo_catalog) [foo_snapshot; foo_latest] /\
  exists found,
    searchFilesForId foo_catalog [foo_snapshot; foo_latest] "foo"
      (Some "2.0.0") = Ok found /\
    sublist found [foo_snapshot; foo_latest] /\
    forall file,
      In file [foo_snapshot; foo_latest] ->
      has_line ("id: " ++ "foo") (content_of foo_catalog file) ->
      (forall v, Some "2.0.0" = Some v ->
                 has_line ("version: " ++ v) (content_of foo_catalog file)) ->
      In file found.
Proof.
  assert (H0 : forallb ordinary (chars "foo") = true) by reflexivity.
  assert (H1 : forall v, Some "2.0.0" = Some v ->
                         forallb ordinary (chars v) = true)
    by (intros v [= <-]; reflexivity).
  exact (conj H0 (conj H1 (conj foo_catalog_readable
    (searchFilesForId_finds_lines foo_catalog _ "foo" (Some "2.0.0")
       H0 H1 foo_catalog_readable)))).
Defined.

Lemma versionExists_finds_document_witness :
  forallb ordinary (chars "foo") = true /\
  forallb ordinary (chars "2.0.0") = true /\
  getFiles foo_catalog ("catalog" ++ "/**/index.md")
    = Ok [foo_snapshot; foo_latest] /\
  Forall (readable foo_catalog) [foo_snapshot; foo_latest] /\
  In foo_latest [foo_snapshot; foo_latest] /\
  has_line ("id: " ++ "foo") (content_of foo_catalog foo_latest) /\
  has_line ("version: " ++ "2.0.0") (content_of foo_catalog foo_latest) /\
  versionExists foo_catalog "catalog" "foo" "2.0.0" = Ok true.
Proof.
  assert (H0 : forallb ordinary (chars "foo") = true) by reflexivity.
  assert (H1 : forallb ordinary (chars "2.0.0") = true) by reflexivity.
  assert (H2 : getFiles foo_catalog ("catalog" ++ "/**/index.md")
               = Ok [foo_snapshot; foo_latest]) by reflexivity.
  assert (H3 : In foo_latest [foo_snapshot; foo_latest])
    by (right; left; reflexivity).
  destruct foo_latest_lines as [H4 H5].
  exact (conj H0 (conj H1 (conj H2 (conj foo_catalog_readable
    (conj H3 (conj H4 (conj H5
      (versionExists_finds_document foo_catalog "catalog" "foo" "2.0.0" _ _
         H0 H1 H2 foo_catalog_readable H3 H4 H5)))))))).
Defined.

Lemma findFileById_finds_document_witness :
  forallb ordinary (chars "foo") = true /\
  getFiles foo_catalog ("catalog" ++ "/**/index.md")
    = Ok [foo_snapshot; foo_latest] /\
  Forall (readable foo_catalog) [foo_snapshot; foo_latest] /\
  In foo_latest [foo_snapshot; foo_latest] /\
  has_line ("id: " ++ "foo") (content_of foo_catalog foo_latest) /\
  includes "versioned" foo_latest = false /\
  exists p,
    @findFileById Reference.semver Reference.gray_matter Reference.collator
      foo_catalog "catalog" "foo" None = Ok (Some p) /\
    includes "versioned" p = false.
Proof.
  assert (H0 : forallb ordinary (chars "foo") = true) by reflexivity.
  assert (H2 : getFiles foo_catalog ("catalog" ++ "/**/index.md")
               = Ok [foo_snapshot; foo_latest]) by reflexivity.
  assert (H3 : In foo_latest [foo_snapshot; foo_latest])
    by (right; left; reflexivity).
  assert (H5 : includes "versioned" foo_latest = false) by reflexivity.
  exact (conj H0 (conj H2 (conj foo_catalog_readable (conj H3
    (conj (proj1 foo_latest_lines) (conj H5
      (@findFileById_finds_document Reference.semver Reference.gray_matter
         Reference.collator foo_catalog "catalog" "foo" _ _
         H0 H2 foo_catalog_readable H3 (proj1 foo_latest_lines) H5))))))).
Defined.

(** X14: The search on plain arguments, exactly: when every file can be read,
    the id is made of ordinary characters and so is the version if one is
    given, the files returned are those whose text has an id entry for the
    id and, for a non-empty version, a version entry for the version.  An
    entry runs from the start of a line to the end of a line, so an id is
    not found inside a longer one; a dot of the argument stands for any
    character. *)
Theorem searchFilesForId_exact (fs : FS) (files : list string) (id : string)
    (version : option string) :
  forallb ordinary (chars id) = true ->
  (forall v, version = Some v -> forallb ordinary (chars v) = true) ->
  Forall (readable fs) files ->
  exists found,
    searchFilesForId fs files id version = Ok found /\
    forall file,
      In file found <->
      In file files /\ id_entry id (content_of fs file) /\
      (forall v, version = Some v -> v <> "" ->
                 version_entry v (content_of fs file)).
Proof.
  intros Hid Hversion Hread.
  destruct (plain_patterns_exact id version Hid Hversion)
    as (r1 & r2 & Hr1 & Hr2 & Htest).
  rewrite (searchFilesForId_filter _ _ _ _ _ _ Hr1 Hr2 Hread).
  eexists. split; [reflexivity|]. intros file.
  rewrite filter_In. unfold selected. now rewrite Htest.
Qed.

Lemma searchFilesForId_exact_witness :
  forallb ordinary (chars "foo") = true /\
  (forall v, Some "2.0.0" = Some v -> forallb ordinary (chars v) = true) /\
  Forall (readable foo_catalog) [foo_snapshot; foo_latest] /\
  exists found,
    searchFilesForId foo_catalog [foo_snapshot; foo_latest] "foo"
      (Some "2.0.0") = Ok found /\
    forall file,
      In file found <->
      In file [foo_snapshot; foo_latest]
      /\ id_entry "foo" (content_of foo_catalog file)
      /\ (forall v, Some "2.0.0" = Some v -> v <> "" ->
                    version_entry v (content_of foo_catalog file)).
Proof.
  assert (H0 : forallb ordinary (chars "foo") = true) by reflexivity.
  assert (H1 : forall v, Some "2.0.0" = Some v ->
                         forallb ordinary (chars v) = true)
    by (intros v [= <-]; reflexivity).
  exact (conj H0 (conj H1 (conj foo_catalog_readable
    (searchFilesForId_exact foo_catalog _ "foo" (Some "2.0.0")
       H0 H1 foo_catalog_readable)))).
Defined.

(** X15: [versionExists] on plain arguments and ASCII text, exactly: when every
    path found under the catalog can be read and the id and the version are
    made of ordinary characters, the call returns, and it returns true
    exactly when some [index.md] of the catalog has an id entry for the id
    and, unless the version is the empty string, a version entry for the
    version.  The version is compared as text: no semver range is
    evaluated. *)
Theorem versionExists_exact (fs : FS) (catalogDir id version : string)
    (files : list string) :
  forallb ordinary (chars id) = true ->
  forallb ordinary (chars version) = true ->
  getFiles fs (catalogDir ++ "/**/index.md") = Ok files ->
  Forall (readable fs) files ->
  exists found,
    versionExists fs catalogDir id version = Ok found /\
    (found = true <->
     exists file,
       In file files /\ id_entry id (content_of fs file) /\
       (version <> "" -> version_entry version (content_of fs file))).
Proof.
  intros Hid Hversion Hfiles Hread.
  destruct (plain_patterns_exact id (Some version) Hid)
    as (r1 & r2 & Hr1 & Hr2 & Htest); [now intros v [= <-]|].
  eexists. split.
  - unfold versionExists. rewrite Hfiles. cbn [bind].
    rewrite (searchFilesForId_filter _ _ _ _ _ _ Hr1 Hr2 Hread).
    cbn [bind]. reflexivity.
  - rewrite Nat.ltb_lt. split.
    + intros Hlen.
      destruct (List.filter _ files) as [|file found] eqn:Hfound;
        [cbn in Hlen; lia|].
      assert (Hin : In file (List.filter
                                (selected fs r1 r2 (Some version)) files))
        by (rewrite Hfound; now left).
      apply filter_In in Hin as [Hin Hsel]. unfold selected in Hsel.
      apply Htest in Hsel as [Hentry Hventry].
      exists file. split; [exact Hin|]. split; [exact Hentry|].
      intros Hne. now apply (Hventry version).
    + intros (file & Hin & Hentry & Hventry).
      assert (Hfile : In file (List.filter
                                 (selected fs r1 r2 (Some version)) files)).
      { apply filter_In. split; [exact Hin|]. unfold selected.
        apply Htest. split; [exact Hentry|]. now intros v [= <-]. }
      destruct (List.filter _ files); [destruct Hfile|cbn; lia].
Qed.

Lemma versionExists_exact_witness :
  forallb ordinary (chars "foo") = true /\
  forallb ordinary (chars "1.2.0") = true /\
  getFiles foo_catalog ("catalog" ++ "/**/index.md")
    = Ok [foo_snapshot; foo_latest] /\
  Forall (readable foo_catalog) [foo_snapshot; foo_latest] /\
  exists found,
    versionExists foo_catalog "catalog" "foo" "1.2.0" = Ok found /\
    (found = true <->
     exists file,
       In file [foo_snapshot; foo_latest]
       /\ id_entry "foo" (content_of foo_catalog file) /\
       ("1.2.0" <> "" ->
        version_entry "1.2.0" (content_of foo_catalog file))).
Proof.
  assert (H1 : forallb ordinary (chars "foo") = true) by reflexivity.
  assert (H2 : forallb ordinary (chars "1.2.0") = true) by reflexivity.
  assert (H3 : getFiles foo_catalog ("catalog" ++ "/**/index.md")
               = Ok [foo_snapshot; foo_latest]) by reflexivity.
  exact (conj H1 (conj H2 (conj H3 (conj foo_catalog_readable
    (versionExists_exact foo_catalog "catalog" "foo" "1.2.0" _
       H1 H2 H3 foo_catalog_readable))))).
Defined.

(** ** findFileById without a version returns *)

Section FindFileByIdReturns.
Context `{SemVer} `{GrayMatter} `{Collator}.

(** X16: Without a version (none or the empty string) [findFileById] returns,
    with a path or with none, whenever every path found under the catalog
    can be read and the id is a pattern the regular-expression model
    accepts: no front matter is read, and the path returned is the first
    one found whose text matches the id pattern and whose path has no
    [versioned] in it. *)
Theorem findFileById_returns_without_version (fs : FS)
    (catalogDir id : string) (version_arg : option string)
    (files : list string) (idRegex : RegExp.regex) :
  truthy version_arg = false ->
  getFiles fs (catalogDir ++ "/**/index.md") = Ok files ->
  Forall (readable fs) files ->
  RegExp.compile (idRegex_source id) = Ok idRegex ->
  exists found,
    findFileById fs catalogDir id version_arg = Ok found /\
    match found with
    | Some p =>
        In p files /\ includes "versioned" p = false
        /\ RegExp.test idRegex (content_of fs p) = true
    | None =>
        forall p, In p files ->
                  RegExp.test idRegex (content_of fs p) = true ->
                  includes "versioned" p = true
    end.
Proof.
  intros Hversion Hfiles Hread Hid.
  assert (Hnone : RegExp.compile (versionRegex_source None)
                  = Ok (regex_of (RegExp.compile (versionRegex_source None))))
    by (vm_compute; reflexivity).
  pose proof (searchFilesForId_filter _ _ _ _ _ _ Hid Hnone Hread) as Hsearch.
  exists (find (fun path => negb (includes "versioned" path))
            (List.filter
               (selected fs idRegex
                  (regex_of (RegExp.compile (versionRegex_source None)))
                  None)
               files)).
  split.
  - rewrite findFileById_eq, Hfiles. cbn [bind]. rewrite Hsearch. cbn [bind].
    destruct version_arg as [v|]; [|reflexivity].
    cbn [truthy] in Hversion. apply negb_false_iff in Hversion.
    now rewrite Hversion.
  - destruct (find _ _) as [p|] eqn:Hfind.
    + apply find_some in Hfind as [Hin Hp].
      apply filter_In in Hin as [Hin Hsel].
      apply andb_true_iff in Hsel as [Hsel _].
      split; [exact Hin|]. split; [now apply negb_true_iff|exact Hsel].
    + intros p Hin Hsel.
      pose proof (find_none _ _ Hfind p) as Hp. cbv beta in Hp.
      apply negb_false_iff, Hp, filter_In. split; [exact Hin|].
      unfold selected. now rewrite Hsel.
Qed.

End FindFileByIdReturns.

Lemma findFileById_returns_without_version_witness :
  truthy (Some "") = false /\
  getFiles foo_catalog ("catalog" ++ "/**/index.md")
    = Ok [foo_snapshot; foo_latest] /\
  Forall (readable foo_catalog) [foo_snapshot; foo_latest] /\
  RegExp.compile (idRegex_source "fo+")
    = Ok (regex_of (RegExp.compile (idRegex_source "fo+"))) /\
  exists found,
    @findFileById Reference.semver Reference.gray_matter Reference.collator
      foo_catalog "catalog" "fo+" (Some "") = Ok found /\
    match found with
    | Some p =>
        In p [foo_snapshot; foo_latest] /\ includes "versioned" p = false
        /\ RegExp.test (regex_of (RegExp.compile (idRegex_source "fo+")))
             (content_of foo_catalog p) = true
    | None =>
        forall p, In p [foo_snapshot; foo_latest] ->
                  RegExp.test
                    (regex_of (RegExp.compile (idRegex_source "fo+")))
                    (content_of foo_catalog p) = true ->
                  includes "versioned" p = true
    end.
Proof.
  assert (Hv : truthy (Some "") = false) by reflexivity.
  assert (H0 : getFiles foo_catalog ("catalog" ++ "/**/index.md")
               = Ok [foo_snapshot; foo_latest]) by reflexivity.
  assert (H1 : RegExp.compile (idRegex_source "fo+")
               = Ok (regex_of (RegExp.compile (idRegex_source "fo+"))))
    by (vm_compute; reflexivity).
  exact (conj Hv (conj H0 (conj foo_catalog_readable (conj H1
    (@findFileById_returns_without_version Reference.semver
       Reference.gray_matter Reference.collator foo_catalog "catalog" "fo+"
       (Some "") _ _ Hv H0 foo_catalog_readable H1))))).
Defined.

(** ** copyDir with any filter *)

Lemma moved_lookup (filter : option (path -> path -> bool)) (fs1 : tree)
    (src dest rel : path) (n : node) :
  match filter with
  | None => entries_under fs1 src
  | Some _ =>
      base.filter
        (fun e : path * node => included filter src dest e.1 = true)
        (entries_under fs1 src)
  end !! rel = Some n <->
  fs1 !! (src ++ rel) = Some n /\ included filter src dest rel = true.
Proof.
  destruct filter as [accepts|].
  - rewrite map_lookup_filter_Some, entries_under_lookup. reflexivity.
  - rewrite entries_under_lookup. cbn [included]. tauto.
Qed.

(** What a successful [copy] checked and what it wrote, with or without a
    filter. *)
Lemma copy_cases (fs fs' : tree) (src dest : path)
    (filter : option (path -> path -> bool)) :
  copy fs src dest filter = Ok fs' ->
  exists srcStat,
    node_at fs src = Some srcStat /\
    src <> dest /\
    compatible fs dest ([], srcStat) = true /\
    (is_dir srcStat = true -> ~ src `prefix_of` dest) /\
    (included filter src dest [] = false /\ fs' = fs
     \/ included filter src dest [] = true /\
        exists (fs1 moved : tree),
          mkdirs fs (dirname dest) = Ok fs1 /\
          (forall rel n,
             moved !! rel = Some n <->
             fs1 !! (src ++ rel) = Some n
             /\ included filter src dest rel = true) /\
          (forall rel n, moved !! rel = Some n ->
                         compatible fs1 dest (rel, n) = true) /\
          (forall rel n, moved !! rel = Some n ->
                         ~ src `prefix_of` dest ++ rel) /\
          (forall k,
             fs' !! k = match strip dest k with
                        | Some rel =>
                            match moved !! rel with
                            | Some n => Some n
                            | None => fs1 !! k
                            end
                        | None => fs1 !! k
                        end)).
Proof.
  unfold copy. destruct (node_at fs src) as [srcStat|]; [|discriminate].
  destruct (decide (src = dest)) as [|Hne]; [discriminate|].
  destruct (compatible fs dest ([], srcStat)) eqn:Hcompat; [|discriminate].
  cbn [negb].
  destruct (is_dir srcStat && bool_decide (src `prefix_of` dest)) eqn:Hsub;
    [discriminate|].
  intros Hcopy. exists srcStat.
  split; [reflexivity|]. split; [assumption|]. split; [assumption|].
  split.
  { intros Hdir Hpre. rewrite Hdir in Hsub.
    now rewrite (bool_decide_eq_true_2 _ Hpre) in Hsub. }
  destruct (included filter src dest []) eqn:Htop; cbn [negb] in Hcopy.
  2:{ left. split; [reflexivity|]. now injection Hcopy. }
  right. split; [reflexivity|].
  destruct (mkdirs fs (dirname dest)) as [fs1|] eqn:Hmk; [|discriminate].
  cbn [bind] in Hcopy. cbv zeta in Hcopy.
  pose proof (moved_lookup filter fs1 src dest) as Hmoved.
  set (moved := match filter with
                | None => entries_under fs1 src
                | Some _ => _
                end) in *.
  destruct (forallb _ _) eqn:Hall; [|discriminate]. cbn [negb] in Hcopy.
  destruct (existsb _ _) eqn:Hinter; [discriminate|].
  injection Hcopy as <-. exists fs1, moved.
  split; [reflexivity|]. split; [exact Hmoved|]. split; [|split].
  - intros rel n Hrel.
    apply elem_of_map_to_list, list_elem_of_In in Hrel.
    exact (proj1 (forallb_forall _ _) Hall (rel, n) Hrel).
  - intros rel n Hrel Hpre.
    apply elem_of_map_to_list, list_elem_of_In in Hrel.
    assert (Hex : existsb (fun e : path * node =>
                     bool_decide (src `prefix_of` dest ++ e.1))
                    (map_to_list moved) = true).
    { apply existsb_exists. exists (rel, n). split; [exact Hrel|].
      now apply bool_decide_eq_true_2. }
    congruence.
  - intros k. destruct (strip dest k) as [rel|] eqn:Hs.
    + apply strip_Some in Hs as ->.
      pose proof (lookup_kmap (M2 := gmap (list string)) (app dest)
                    moved rel) as Hk.
      destruct (moved !! rel) as [m|] eqn:Hm.
      * rewrite lookup_union_l'; [exact Hk|]. rewrite Hk. eauto.
      * now apply lookup_union_r.
    + apply lookup_union_r.
      apply (lookup_kmap_None (M2 := gmap (list string)) (app dest)).
      intros rel ->. apply strip_None in Hs. destruct Hs. now exists rel.
Qed.

Lemma included_top (filter : option (path -> path -> bool))
    (src dest rel : path) :
  included filter src dest rel = true -> included filter src dest [] = true.
Proof.
  destruct filter as [accepts|]; [|reflexivity]. unfold included.
  cbn [length seq forallb take]. intros Hrel.
  apply andb_true_iff in Hrel as [Htop _]. rewrite take_0 in Htop.
  now rewrite Htop.
Qed.

Lemma copy_keeps (fs fs' : tree) (src dest k : path)
    (filter : option (path -> path -> bool)) (n : node) :
  copy fs src dest filter = Ok fs' ->
  fs !! k = Some n -> ~ dest `prefix_of` k -> fs' !! k = Some n.
Proof.
  intros Hcopy Hk Hout.
  apply copy_cases in Hcopy
    as (s & _ & _ & _ & _ & [[_ ->]|(_ & fs1 & moved & Hmk & _ & _ & _ & Hlk)]);
    [exact Hk|].
  rewrite Hlk, (proj2 (strip_None dest k) Hout).
  exact (mkdirs_preserves _ _ _ _ _ Hmk Hk).
Qed.

Lemma copy_keeps_kind (fs fs' : tree) (src dest k : path)
    (filter : option (path -> path -> bool)) (n : node) :
  copy fs src dest filter = Ok fs' ->
  node_at fs k = Some n ->
  exists n', node_at fs' k = Some n' /\ same_kind n' n = true.
Proof.
  intros Hcopy Hk.
  destruct k as [|x k]; [exists n; split; [exact Hk|now destruct n]|].
  cbn [node_at] in *.
  apply copy_cases in Hcopy
    as (s & _ & _ & _ & _
        & [[_ ->]|(_ & fs1 & moved & Hmk & _ & Hc & _ & Hlk)]).
  { exists n. split; [exact Hk|now destruct n]. }
  pose proof (mkdirs_preserves _ _ _ _ _ Hmk Hk) as Hk1.
  rewrite Hlk. destruct (strip dest (x :: k)) as [rel|] eqn:Hs.
  2:{ exists n. split; [exact Hk1|now destruct n]. }
  destruct (moved !! rel) as [m|] eqn:Hm.
  2:{ exists n. split; [exact Hk1|now destruct n]. }
  exists m. split; [reflexivity|].
  apply strip_Some in Hs. specialize (Hc rel m Hm).
  unfold compatible in Hc. cbn [fst snd] in Hc. rewrite <- Hs in Hc.
  cbn [node_at] in Hc. now rewrite Hk1 in Hc.
Qed.

Lemma copy_new (fs fs' : tree) (src dest k : path)
    (filter : option (path -> path -> bool)) (n : node) :
  copy fs src dest filter = Ok fs' ->
  fs' !! k = Some n ->
  fs !! k = Some n \/ dest `prefix_of` k
  \/ n = Dir /\ k <> [] /\ k `prefix_of` dirname dest.
Proof.
  intros Hcopy Hk.
  apply copy_cases in Hcopy
    as (s & _ & _ & _ & _ & [[_ ->]|(_ & fs1 & moved & Hmk & _ & _ & _ & Hlk)]);
    [now left|].
  rewrite Hlk in Hk. destruct (strip dest k) as [rel|] eqn:Hs.
  { right. left. apply strip_Some in Hs. now exists rel. }
  destruct (mkdirs_lookup _ _ _ k Hmk) as [(Hdir & Hne & Hpre)|[Heq _]].
  - right. right. split; [congruence|]. now split.
  - left. congruence.
Qed.

(** The four steps of [copyDir] and what their success tells. *)
Lemma copyDir_steps (fs fs' : tree) (catalogDir source target : path)
    (filter : option (path -> path -> bool)) :
  copyDir fs catalogDir source target filter = Ok fs' ->
  exists fs1 fs2 fs3,
    mkdirs fs (join catalogDir "tmp") = Ok fs1 /\
    copy fs1 source (join catalogDir "tmp") filter = Ok fs2 /\
    copy fs2 (join catalogDir "tmp") target filter = Ok fs3 /\
    rm_recursive fs3 (join catalogDir "tmp") = Ok fs' /\
    fs !! source = Some Dir /\ source <> [] /\
    ~ source `prefix_of` join catalogDir "tmp" /\
    fs2 !! join catalogDir "tmp" = Some Dir /\
    ~ join catalogDir "tmp" `prefix_of` target.
Proof.
  unfold copyDir. intros H.
  apply bind_Ok in H as (fs1 & Hmk & H).
  apply bind_Ok in H as (fs2 & Hc1 & H).
  apply bind_Ok in H as (fs3 & Hc2 & Hrm).
  exists fs1, fs2, fs3.
  set (tmp := join catalogDir "tmp") in *.
  assert (Htmp_ne : tmp <> []) by (unfold tmp, join; now destruct catalogDir).
  pose proof (mkdirs_lookup_dir _ _ _ Hmk Htmp_ne) as Htmp1.
  pose proof Hc1 as Hc1'. pose proof Hc2 as Hc2'.
  apply copy_cases in Hc1' as (s1 & Hsrc1 & _ & Hcompat1 & Hsub1 & _).
  assert (Hs1 : s1 = Dir).
  { unfold compatible, node_at in Hcompat1. simpl in Hcompat1.
    rewrite app_nil_r in Hcompat1. destruct tmp; [contradiction|].
    rewrite Htmp1 in Hcompat1. now destruct s1. }
  subst s1. specialize (Hsub1 eq_refl).
  assert (Hsource_ne : source <> []).
  { intros ->. apply Hsub1, prefix_nil. }
  assert (Hsource1 : fs1 !! source = Some Dir)
    by (destruct source; [contradiction|exact Hsrc1]).
  assert (Hsource : fs !! source = Some Dir).
  { eapply mkdirs_lookup_off; eauto. }
  assert (Htmp2 : fs2 !! tmp = Some Dir).
  { destruct (copy_keeps_kind _ _ _ _ tmp _ Dir Hc1) as (n' & Hn' & Hkind).
    - destruct tmp; [contradiction|exact Htmp1].
    - destruct tmp; [contradiction|]. cbn [node_at] in Hn'.
      now destruct n'. }
  apply copy_cases in Hc2' as (s2 & Hsrc2 & _ & _ & Hsub2 & _).
  assert (Hs2 : s2 = Dir).
  { destruct tmp; [contradiction|]. simpl in Hsrc2. congruence. }
  subst s2. specialize (Hsub2 eq_refl).
  repeat split; assumption.
Qed.

(** X17: [copyDir] succeeds only when the source is an existing directory that
    does not contain the staging directory [catalogDir/tmp], the target is
    not the staging directory nor inside it, the target is not a regular
    file, and no regular file lies on the way to the staging directory.
    This holds with or without a filter. *)
Theorem copyDir_requires (fs fs' : tree) (catalogDir source target : path)
    (filter : option (path -> path -> bool)) :
  copyDir fs catalogDir source target filter = Ok fs' ->
  node_at fs source = Some Dir /\
  ~ source `prefix_of` join catalogDir "tmp" /\
  ~ join catalogDir "tmp" `prefix_of` target /\
  is_file fs target = false /\
  forall q, q `prefix_of` join catalogDir "tmp" -> is_file fs q = false.
Proof.
  intros Hcopy.
  apply copyDir_steps in Hcopy
    as (fs1 & fs2 & fs3 & Hmk & Hc1 & Hc2 & Hrm & Hsource & Hsource_ne
        & Hsub1 & Htmp2 & Hsub2).
  split; [destruct source; [contradiction|exact Hsource]|].
  split; [exact Hsub1|]. split; [exact Hsub2|]. split.
  - unfold is_file. destruct (node_at fs target) as [[b|]|] eqn:Ht;
      [|reflexivity..].
    exfalso. destruct target as [|x target]; [discriminate|].
    cbn [node_at] in Ht.
    apply (mkdirs_preserves _ _ _ _ _ Hmk) in Ht.
    apply (copy_keeps _ _ _ _ _ _ _ Hc1) in Ht; [|exact Hsub2].
    apply copy_cases in Hc2 as (s2 & Hsrc2 & _ & Hcompat2 & _).
    unfold compatible in Hcompat2. cbn [fst snd] in Hcompat2.
    rewrite app_nil_r in Hcompat2. cbn [node_at] in Hcompat2.
    rewrite Ht in Hcompat2.
    destruct (join catalogDir "tmp") eqn:Htmp;
      [unfold join in Htmp; now destruct catalogDir|].
    cbn [node_at] in Hsrc2. rewrite Htmp2 in Hsrc2.
    injection Hsrc2 as <-. discriminate.
  - intros q Hq. destruct q as [|x q]; [reflexivity|].
    unfold mkdirs in Hmk.
    destruct (existsb (is_file fs) (chain (join catalogDir "tmp"))) eqn:Hex;
      [discriminate|].
    destruct (is_file fs (x :: q)) eqn:Hfile; [|reflexivity].
    assert (Hex' : existsb (is_file fs) (chain (join catalogDir "tmp"))
                   = true).
    { apply existsb_exists. exists (x :: q). split; [|exact Hfile].
      apply list_elem_of_In, elem_of_chain. now split. }
    congruence.
Qed.

Lemma copyDir_requires_witness :
  let fs' :=
    tree_of (copyDir source_tree ["catalog"] ["src"] ["dst"] (Some skip_sub)) in
  copyDir source_tree ["catalog"] ["src"] ["dst"] (Some skip_sub) = Ok fs' /\
  node_at source_tree ["src"] = Some Dir /\
  ~ ["src"] `prefix_of` join ["catalog"] "tmp" /\
  ~ join ["catalog"] "tmp" `prefix_of` ["dst"] /\
  is_file source_tree ["dst"] = false /\
  forall q, q `prefix_of` join ["catalog"] "tmp" ->
            is_file source_tree q = false.
Proof.
  assert (H0 : copyDir source_tree ["catalog"] ["src"] ["dst"] (Some skip_sub)
               = Ok (tree_of (copyDir source_tree ["catalog"] ["src"] ["dst"]
                                (Some skip_sub))))
    by (apply succeeds_tree_of; vm_compute; reflexivity).
  exact (conj H0
    (copyDir_requires source_tree _ ["catalog"] ["src"] ["dst"] _ H0)).
Defined.

Lemma prefix_join_inv (k dir : path) (name : string) :
  k `prefix_of` join dir name -> k = join dir name \/ k `prefix_of` dir.
Proof.
  unfold join. intros [r Hr]. destruct r as [|y r _] using rev_ind.
  - left. now rewrite app_nil_r in Hr.
  - right. rewrite app_assoc in Hr. apply app_inj_tail in Hr as [-> _].
    now exists r.
Qed.

Lemma same_kind_trans (a b c : node) :
  same_kind a b = true -> same_kind b c = true -> same_kind a c = true.
Proof. now destruct a, b, c. Qed.

(** X18: [copyDir] only adds, with or without a filter: after a successful call
    the staging directory is gone with whatever it held; an entry outside
    the target and the staging directory is exactly as it was; an entry
    outside the staging directory is still there and of the same kind; and
    an entry that was not there before is in the target tree, or is a
    directory on the way to the target or to the staging directory. *)
Theorem copyDir_only_adds (fs fs' : tree) (catalogDir source target : path)
    (filter : option (path -> path -> bool)) :
  copyDir fs catalogDir source target filter = Ok fs' ->
  (forall rel, fs' !! (join catalogDir "tmp" ++ rel) = None) /\
  (forall k n,
     fs !! k = Some n ->
     ~ join catalogDir "tmp" `prefix_of` k -> ~ target `prefix_of` k ->
     fs' !! k = Some n) /\
  (forall k n,
     node_at fs k = Some n -> ~ join catalogDir "tmp" `prefix_of` k ->
     exists n', node_at fs' k = Some n' /\ same_kind n' n = true) /\
  (forall k n,
     fs' !! k = Some n ->
     fs !! k = Some n \/ target `prefix_of` k
     \/ n = Dir /\ k <> []
        /\ (k `prefix_of` catalogDir \/ k `prefix_of` dirname target)).
Proof.
  intros Hcopy.
  apply copyDir_steps in Hcopy
    as (fs1 & fs2 & fs3 & Hmk & Hc1 & Hc2 & Hrm & _).
  set (tmp := join catalogDir "tmp") in *.
  split; [|split; [|split]].
  - intros rel. rewrite (rm_recursive_lookup _ _ _ _ Hrm).
    destruct (decide (tmp `prefix_of` tmp ++ rel)) as [_|Hn]; [reflexivity|].
    destruct Hn. now exists rel.
  - intros k n Hk Htmp Htarget.
    apply (mkdirs_preserves _ _ _ _ _ Hmk) in Hk.
    apply (copy_keeps _ _ _ _ _ _ _ Hc1) in Hk; [|exact Htmp].
    apply (copy_keeps _ _ _ _ _ _ _ Hc2) in Hk; [|exact Htarget].
    rewrite (rm_recursive_lookup _ _ _ _ Hrm).
    destruct (decide (tmp `prefix_of` k)); [contradiction|exact Hk].
  - intros k n Hk Htmp.
    assert (Hk1 : node_at fs1 k = Some n).
    { destruct k as [|x k]; [exact Hk|]. cbn [node_at] in *.
      exact (mkdirs_preserves _ _ _ _ _ Hmk Hk). }
    destruct (copy_keeps_kind _ _ _ _ _ _ _ Hc1 Hk1) as (n2 & Hk2 & Hkind2).
    destruct (copy_keeps_kind _ _ _ _ _ _ _ Hc2 Hk2) as (n3 & Hk3 & Hkind3).
    exists n3. split; [|exact (same_kind_trans _ _ _ Hkind3 Hkind2)].
    destruct k as [|x k]; [exact Hk3|]. cbn [node_at] in *.
    rewrite (rm_recursive_lookup _ _ _ _ Hrm).
    destruct (decide (tmp `prefix_of` x :: k)); [contradiction|exact Hk3].
  - intros k n Hk.
    rewrite (rm_recursive_lookup _ _ _ _ Hrm) in Hk.
    destruct (decide (tmp `prefix_of` k)) as [|Htmp]; [discriminate|].
    apply (copy_new _ _ _ _ _ _ _ Hc2) in Hk
      as [Hk|[Hk|(-> & Hne & Hk)]]; [|now right; left|now right; right; auto].
    apply (copy_new _ _ _ _ _ _ _ Hc1) in Hk
      as [Hk|[Hk|(-> & Hne & Hk)]]; [|contradiction|].
    2:{ unfold tmp in Hk. rewrite dirname_join in Hk.
        right; right; auto. }
    destruct (mkdirs_lookup _ _ _ k Hmk) as [(Hdir & Hne & Hpre)|[Heq _]].
    + right; right. split; [congruence|]. split; [exact Hne|]. left.
      apply prefix_join_inv in Hpre as [->|Hpre]; [|exact Hpre].
      now destruct Htmp.
    + left. congruence.
Qed.

Lemma copyDir_only_adds_witness :
  let fs' :=
    tree_of (copyDir populated_tree ["catalog"] ["src"] ["dst"]
               (Some skip_sub)) in
  copyDir populated_tree ["catalog"] ["src"] ["dst"] (Some skip_sub)
    = Ok fs' /\
  (forall rel, fs' !! (join ["catalog"] "tmp" ++ rel) = None) /\
  (forall k n,
     populated_tree !! k = Some n ->
     ~ join ["catalog"] "tmp" `prefix_of` k -> ~ ["dst"] `prefix_of` k ->
     fs' !! k = Some n) /\
  (forall k n,
     node_at populated_tree k = Some n ->
     ~ join ["catalog"] "tmp" `prefix_of` k ->
     exists n', node_at fs' k = Some n' /\ same_kind n' n = true) /\
  (forall k n,
     fs' !! k = Some n ->
     populated_tree !! k = Some n \/ ["dst"] `prefix_of` k
     \/ n = Dir /\ k <> []
        /\ (k `prefix_of` ["catalog"] \/ k `prefix_of` dirname ["dst"])).
Proof.
  assert (H0 : copyDir populated_tree ["catalog"] ["src"] ["dst"]
                 (Some skip_sub)
               = Ok (tree_of (copyDir populated_tree ["catalog"] ["src"]
                                ["dst"] (Some skip_sub))))
    by (apply succeeds_tree_of; vm_compute; reflexivity).
  exact (conj H0
    (copyDir_only_adds populated_tree _ ["catalog"] ["src"] ["dst"] _ H0)).
Defined.

Lemma below_not_prefix (p rel : path) : rel <> [] -> ~ p ++ rel `prefix_of` p.
Proof.
  intros Hrel Hpre. apply prefix_length in Hpre. rewrite length_app in Hpre.
  destruct rel; [contradiction|]. simpl in Hpre. lia.
Qed.

(** X19: The filter is asked twice.  When neither the target nor the staging
    directory existed before the call and the staging directory is not
    inside the target, a successful [copyDir] leaves below the target
    exactly the source entries that the filter accepts, with every
    directory above them, both at their path below the source (paired with
    the staging path) and at their path below the staging directory (paired
    with the target path).  The target directory itself is created exactly
    when the filter accepts the staging directory. *)
Theorem copyDir_filtered (fs fs' : tree) (catalogDir source target : path)
    (filter : option (path -> path -> bool)) :
  copyDir fs catalogDir source target filter = Ok fs' ->
  (forall rel, fs !! (join catalogDir "tmp" ++ rel) = None) ->
  (forall rel, fs !! (target ++ rel) = None) ->
  ~ target `prefix_of` join catalogDir "tmp" ->
  fs' !! target
  = (if included filter (join catalogDir "tmp") target [] then Some Dir
     else None) /\
  forall rel,
    rel <> [] ->
    fs' !! (target ++ rel)
    = if included filter source (join catalogDir "tmp") rel
         && included filter (join catalogDir "tmp") target rel
      then fs !! (source ++ rel)
      else None.
Proof.
  intros Hcopy Hfresh_tmp Hfresh_target Hnest.
  apply copyDir_steps in Hcopy
    as (fs1 & fs2 & fs3 & Hmk & Hc1 & Hc2 & Hrm & Hsource & Hsource_ne
        & Hsub1 & Htmp2 & Hsub2).
  set (tmp := join catalogDir "tmp") in *.
  assert (Hdir : dirname tmp = catalogDir) by apply dirname_join.
  assert (Hdisjoint : forall rel, ~ tmp `prefix_of` target ++ rel).
  { intros rel Hpre.
    destruct (prefix_weak_total tmp target (target ++ rel)) as [Hp|Hp];
      [exact Hpre|now exists rel|exact (Hsub2 Hp)|exact (Hnest Hp)]. }
  (* nothing is below the target before the second copy *)
  assert (Hfresh2 : forall rel, fs2 !! (target ++ rel) = None).
  { intros rel.
    destruct (fs2 !! (target ++ rel)) as [n|] eqn:Hk; [|reflexivity].
    exfalso.
    apply (copy_new _ _ _ _ _ _ _ Hc1) in Hk
      as [Hk|[Hk|(_ & _ & Hk)]]; [|now apply Hdisjoint in Hk|].
    - destruct (mkdirs_lookup _ _ _ (target ++ rel) Hmk)
        as [(_ & _ & Hpre)|[Heq _]].
      + apply Hnest. etransitivity; [|exact Hpre]. now exists rel.
      + rewrite Heq, Hfresh_target in Hk. discriminate.
    - apply Hnest. etransitivity; [now exists rel|].
      etransitivity; [exact Hk|]. rewrite Hdir. now exists ["tmp"]. }
  (* what is below the staging directory after the first copy *)
  assert (Hstaged : forall rel n,
             rel <> [] ->
             fs2 !! (tmp ++ rel) = Some n <->
             fs !! (source ++ rel) = Some n
             /\ included filter source tmp rel = true).
  { intros rel n Hrel.
    assert (Hoff1 : fs1 !! (tmp ++ rel) = None).
    { rewrite (mkdirs_lookup_eq _ _ _ _ Hmk); [apply Hfresh_tmp|].
      now apply below_not_prefix. }
    assert (Hsrc1 : fs1 !! (source ++ rel) = fs !! (source ++ rel)).
    { apply (mkdirs_lookup_eq _ _ _ _ Hmk). intros Hpre. apply Hsub1.
      etransitivity; [|exact Hpre]. now exists rel. }
    pose proof Hc1 as Hc1'.
    apply copy_cases in Hc1'
      as (s & _ & _ & _ & _
          & [[Htop ->]|(_ & fs1' & moved & Hmk1 & Hmoved & _ & _ & Hlk)]).
    { rewrite Hoff1. split; [discriminate|]. intros [_ Hinc].
      apply included_top in Hinc. congruence. }
    rewrite Hdir in Hmk1.
    rewrite Hlk, (proj2 (strip_Some tmp _ rel) eq_refl).
    assert (Hoff1' : fs1' !! (tmp ++ rel) = None).
    { rewrite (mkdirs_lookup_eq _ _ _ _ Hmk1); [exact Hoff1|].
      apply join_not_prefix. }
    assert (Hsrc1' : fs1' !! (source ++ rel) = fs !! (source ++ rel)).
    { rewrite <- Hsrc1. apply (mkdirs_lookup_eq _ _ _ _ Hmk1).
      intros Hpre. apply Hsub1. etransitivity; [now exists rel|].
      etransitivity; [exact Hpre|]. now exists ["tmp"]. }
    destruct (moved !! rel) as [m|] eqn:Hm.
    - apply Hmoved in Hm as [Hm Hinc]. rewrite Hsrc1' in Hm.
      split; [intros [= <-]; now split|]. intros [Hn _]. congruence.
    - rewrite Hoff1'. split; [discriminate|]. intros [Hn Hinc].
      rewrite <- Hsrc1' in Hn.
      pose proof (proj2 (Hmoved rel n) (conj Hn Hinc)). congruence. }
  pose proof Hc2 as Hc2'.
  apply copy_cases in Hc2'
    as (s & _ & _ & _ & _
        & [[Htop ->]|(Htop & fs2' & moved & Hmk2 & Hmoved & _ & _ & Hlk)]).
  { (* the filter rejects the staging directory: nothing is copied *)
    rewrite Htop. split.
    - rewrite (rm_recursive_lookup _ _ _ _ Hrm).
      destruct (decide (tmp `prefix_of` target)); [reflexivity|].
      rewrite <- (app_nil_r target). apply Hfresh2.
    - intros rel Hrel.
      assert (Hinc : included filter tmp target rel = false).
      { destruct (included filter tmp target rel) eqn:Hinc; [|reflexivity].
        apply included_top in Hinc. congruence. }
      rewrite Hinc, andb_false_r.
      rewrite (rm_recursive_lookup _ _ _ _ Hrm).
      destruct (decide (tmp `prefix_of` target ++ rel)); [reflexivity|].
      apply Hfresh2. }
  rewrite Htop.
  assert (Hstaged' : forall rel n,
             rel <> [] ->
             moved !! rel = Some n <->
             fs !! (source ++ rel) = Some n
             /\ included filter source tmp rel = true
             /\ included filter tmp target rel = true).
  { intros rel n Hrel. rewrite Hmoved.
    rewrite (mkdirs_lookup_eq _ _ _ _ Hmk2).
    2:{ intros Hpre. apply Hsub2. etransitivity; [now exists rel|].
        etransitivity; [exact Hpre|]. apply dirname_prefix. }
    rewrite (Hstaged rel n Hrel). tauto. }
  split.
  - rewrite (rm_recursive_lookup _ _ _ _ Hrm).
    destruct (decide (tmp `prefix_of` target)); [contradiction|].
    rewrite Hlk, (proj2 (strip_Some target target []) (eq_sym (app_nil_r _))).
    assert (Hm : moved !! [] = Some Dir).
    { apply Hmoved. rewrite app_nil_r. split; [|exact Htop].
      exact (mkdirs_preserves _ _ _ _ _ Hmk2 Htmp2). }
    now rewrite Hm.
  - intros rel Hrel.
    assert (Htarget_ne : target ++ rel <> []).
    { intros Hnil. apply app_eq_nil in Hnil as [_ ->]. contradiction. }
    rewrite (rm_recursive_lookup _ _ _ _ Hrm).
    destruct (decide (tmp `prefix_of` target ++ rel)) as [Hpre|_];
      [now apply Hdisjoint in Hpre|].
    rewrite Hlk, (proj2 (strip_Some target _ rel) eq_refl).
    destruct (moved !! rel) as [m|] eqn:Hm.
    + apply Hstaged' in Hm as (Hn & -> & ->); [|exact Hrel].
      now rewrite Hn.
    + rewrite (mkdirs_lookup_eq _ _ _ _ Hmk2);
        [|now apply below_not_prefix_of_dirname].
      rewrite Hfresh2.
      destruct (included filter source tmp rel
                && included filter tmp target rel) eqn:Hinc; [|reflexivity].
      apply andb_true_iff in Hinc as [Hinc1 Hinc2].
      destruct (fs !! (source ++ rel)) as [n|] eqn:Hn; [|reflexivity].
      pose proof (proj2 (Hstaged' rel n Hrel) (conj Hn (conj Hinc1 Hinc2))).
      congruence.
Qed.

Lemma copyDir_filtered_witness :
  let fs' :=
    tree_of (copyDir source_tree ["catalog"] ["src"] ["dst"] (Some skip_sub)) in
  copyDir source_tree ["catalog"] ["src"] ["dst"] (Some skip_sub) = Ok fs' /\
  (forall rel, source_tree !! (join ["catalog"] "tmp" ++ rel) = None) /\
  (forall rel, source_tree !! (["dst"] ++ rel) = None) /\
  ~ ["dst"] `prefix_of` join ["catalog"] "tmp" /\
  fs' !! ["dst"]
  = (if included (Some skip_sub) (join ["catalog"] "tmp") ["dst"] []
     then Some Dir else None) /\
  forall rel,
    rel <> [] ->
    fs' !! (["dst"] ++ rel)
    = if included (Some skip_sub) ["src"] (join ["catalog"] "tmp") rel
         && included (Some skip_sub) (join ["catalog"] "tmp") ["dst"] rel
      then source_tree !! (["src"] ++ rel)
      else None.
Proof.
  assert (H0 : copyDir source_tree ["catalog"] ["src"] ["dst"] (Some skip_sub)
               = Ok (tree_of (copyDir source_tree ["catalog"] ["src"] ["dst"]
                                (Some skip_sub))))
    by (apply succeeds_tree_of; vm_compute; reflexivity).
  assert (H1 : forall rel,
             source_tree !! (join ["catalog"] "tmp" ++ rel) = None).
  { intros rel. destruct (source_tree !! _) as [n|] eqn:Hk; [|reflexivity].
    apply source_tree_entries in Hk as [rel' Hk]. discriminate Hk. }
  assert (H2 : forall rel, source_tree !! (["dst"] ++ rel) = None).
  { intros rel. destruct (source_tree !! _) as [n|] eqn:Hk; [|reflexivity].
    apply source_tree_entries in Hk as [rel' Hk]. discriminate Hk. }
  assert (H3 : ~ ["dst"] `prefix_of` join ["catalog"] "tmp").
  { intros [k Hk]. discriminate Hk. }
  exact (conj H0 (conj H1 (conj H2 (conj H3
    (copyDir_filtered source_tree _ ["catalog"] ["src"] ["dst"] _
       H0 H1 H2 H3))))).
Defined.

(** ** copyDir succeeds *)

Lemma mkdirs_Ok (fs : tree) (p : path) :
  (forall q, q <> [] -> q `prefix_of` p -> is_file fs q = false) ->
  exists fs', mkdirs fs p = Ok fs'.
Proof.
  intros Hfree. unfold mkdirs.
  destruct (existsb (is_file fs) (chain p)) eqn:Hex; [|eauto].
  apply existsb_exists in Hex as (q & Hq & Hfile).
  apply list_elem_of_In, elem_of_chain in Hq as [Hne Hpre].
  rewrite (Hfree q Hne Hpre) in Hfile. discriminate.
Qed.

Lemma copy_Ok (fs fs1 : tree) (src dest : path)
    (filter : option (path -> path -> bool)) (s : node) :
  node_at fs src = Some s ->
  src <> dest ->
  compatible fs dest ([], s) = true ->
  (is_dir s = true -> ~ src `prefix_of` dest) ->
  mkdirs fs (dirname dest) = Ok fs1 ->
  (forall rel n,
     fs1 !! (src ++ rel) = Some n ->
     compatible fs1 dest (rel, n) = true /\ ~ src `prefix_of` dest ++ rel) ->
  exists fs', copy fs src dest filter = Ok fs'.
Proof.
  intros Hsrc Hne Hcompat Hsub Hmk Hentries. unfold copy. rewrite Hsrc.
  destruct (decide (src = dest)) as [|_]; [contradiction|].
  rewrite Hcompat. cbn [negb].
  assert (Hin : is_dir s && bool_decide (src `prefix_of` dest) = false).
  { destruct (is_dir s); [|reflexivity].
    now rewrite (bool_decide_eq_false_2 _ (Hsub eq_refl)). }
  rewrite Hin.
  destruct (included filter src dest []); cbn [negb]; [|eauto].
  rewrite Hmk. cbn [bind]. cbv zeta.
  pose proof (moved_lookup filter fs1 src dest) as Hmoved.
  set (moved := match filter with
                | None => entries_under fs1 src
                | Some _ => _
                end) in *.
  assert (Hall : forallb (compatible fs1 dest) (map_to_list moved) = true).
  { apply forallb_forall. intros [rel n] He.
    apply list_elem_of_In, elem_of_map_to_list, Hmoved in He as [He _].
    now apply Hentries. }
  assert (Hex : existsb (fun e : path * node =>
                           bool_decide (src `prefix_of` dest ++ e.1))
                        (map_to_list moved) = false).
  { destruct (existsb _ _) eqn:Hex; [|reflexivity].
    apply existsb_exists in Hex as ([rel n] & He & Hpre).
    apply list_elem_of_In, elem_of_map_to_list, Hmoved in He as [He _].
    apply bool_decide_eq_true_1 in Hpre.
    now apply Hentries in He as [_ He]. }
  rewrite Hall, Hex. cbn [negb]. eauto.
Qed.

(** X20: [copyDir] succeeds, with any filter, when the source is a directory
    that does not contain the staging directory, nothing exists at or below
    the staging directory and the target, neither of these two contains the
    other, and no regular file lies on the way to them. *)
Theorem copyDir_succeeds (fs : tree) (catalogDir source target : path)
    (filter : option (path -> path -> bool)) :
  fs !! source = Some Dir ->
  ~ source `prefix_of` join catalogDir "tmp" ->
  ~ join catalogDir "tmp" `prefix_of` target ->
  ~ target `prefix_of` join catalogDir "tmp" ->
  (forall rel, fs !! (join catalogDir "tmp" ++ rel) = None) ->
  (forall rel, fs !! (target ++ rel) = None) ->
  (forall q, q `prefix_of` catalogDir -> is_file fs q = false) ->
  (forall q, q `prefix_of` dirname target -> is_file fs q = false) ->
  exists fs', copyDir fs catalogDir source target filter = Ok fs'.
Proof.
  intros Hsource Hsub1 Hsub2 Hnest Hfresh_tmp Hfresh_target Hway_tmp
         Hway_target.
  unfold copyDir. cbv zeta. set (tmp := join catalogDir "tmp") in *.
  assert (Htmp_ne : tmp <> []) by (unfold tmp, join; now destruct catalogDir).
  assert (Hdir : dirname tmp = catalogDir) by apply dirname_join.
  assert (Hsource_ne : source <> []).
  { intros ->. apply Hsub1, prefix_nil. }
  assert (Htarget_ne : target <> []).
  { intros ->. specialize (Hfresh_target source). cbn in Hfresh_target.
    congruence. }
  assert (Hdisjoint : forall rel, ~ tmp `prefix_of` target ++ rel).
  { intros rel Hpre.
    destruct (prefix_weak_total tmp target (target ++ rel)) as [Hp|Hp];
      [exact Hpre|now exists rel|exact (Hsub2 Hp)|exact (Hnest Hp)]. }
  assert (Hnot_file : forall (t : tree) q,
             t !! q = None -> is_file t q = false).
  { intros t q Hq. unfold is_file, node_at. destruct q; [reflexivity|].
    now rewrite Hq. }
  (* the staging directory is made *)
  destruct (mkdirs_Ok fs tmp) as [fs1 Hmk].
  { intros q _ Hq. apply prefix_join_inv in Hq as [->|Hq]; [|auto].
    apply Hnot_file. fold tmp. rewrite <- (app_nil_r tmp).
    apply Hfresh_tmp. }
  rewrite Hmk. cbn [bind].
  pose proof (mkdirs_lookup_dir _ _ _ Hmk Htmp_ne) as Htmp1.
  pose proof (mkdirs_preserves _ _ _ _ _ Hmk Hsource) as Hsource1.
  assert (Hfresh1 : forall rel, rel <> [] -> fs1 !! (tmp ++ rel) = None).
  { intros rel Hrel. rewrite (mkdirs_lookup_eq _ _ _ _ Hmk);
      [apply Hfresh_tmp|now apply below_not_prefix]. }
  (* the copy into the staging directory *)
  destruct (mkdirs_Ok fs1 (dirname tmp)) as [fs1' Hmk1].
  { intros q Hne Hq. rewrite Hdir in Hq.
    unfold is_file. destruct q as [|x q]; [contradiction|].
    cbn [node_at].
    destruct (mkdirs_lookup _ _ _ (x :: q) Hmk) as [(Hd & _)|[Heq Hd]].
    - now rewrite Hd.
    - rewrite Heq, Hd; [reflexivity|discriminate|].
      etransitivity; [exact Hq|]. now exists ["tmp"]. }
  destruct (copy_Ok fs1 fs1' source tmp filter Dir) as [fs2 Hc1];
    try assumption.
  { destruct source; [contradiction|exact Hsource1]. }
  { intros ->. now apply Hsub1. }
  { unfold compatible. cbn [fst snd]. rewrite app_nil_r.
    destruct tmp; [contradiction|]. cbn [node_at]. now rewrite Htmp1. }
  { intros _. exact Hsub1. }
  { intros rel n Hrel. split.
    - unfold compatible. cbn [fst snd]. destruct rel as [|r rel].
      + rewrite app_nil_r in *.
        rewrite (mkdirs_preserves _ _ _ _ _ Hmk1 Hsource1) in Hrel.
        injection Hrel as <-.
        destruct tmp; [contradiction|]. cbn [node_at].
        now rewrite (mkdirs_preserves _ _ _ _ _ Hmk1 Htmp1).
      + assert (Hnone : fs1' !! (tmp ++ r :: rel) = None).
        { rewrite (mkdirs_lookup_eq _ _ _ _ Hmk1);
            [now apply Hfresh1|]. rewrite Hdir. apply join_not_prefix. }
        destruct (tmp ++ r :: rel) eqn:Hk;
          [apply app_eq_nil in Hk as [_ Hk]; discriminate|].
        cbn [node_at]. now rewrite Hnone.
    - intros Hpre.
      destruct (prefix_weak_total source tmp (tmp ++ rel)) as [Hp|[r Hr]];
        [exact Hpre|now exists rel|exact (Hsub1 Hp)|].
      rewrite Hr, Hfresh_tmp in Hsource. discriminate. }
  rewrite Hc1. cbn [bind].
  (* the copy out of the staging directory *)
  assert (Htmp2 : fs2 !! tmp = Some Dir).
  { destruct (copy_keeps_kind _ _ _ _ tmp _ Dir Hc1) as (n' & Hn' & Hkind).
    - destruct tmp; [contradiction|exact Htmp1].
    - destruct tmp; [contradiction|]. cbn [node_at] in Hn'.
      now destruct n'. }
  assert (Hfresh2 : forall rel, fs2 !! (target ++ rel) = None).
  { intros rel.
    destruct (fs2 !! (target ++ rel)) as [n|] eqn:Hk; [|reflexivity].
    exfalso.
    apply (copy_new _ _ _ _ _ _ _ Hc1) in Hk
      as [Hk|[Hk|(_ & _ & Hk)]]; [|now apply Hdisjoint in Hk|].
    - destruct (mkdirs_lookup _ _ _ (target ++ rel) Hmk)
        as [(_ & _ & Hpre)|[Heq _]].
      + apply Hnest. etransitivity; [|exact Hpre]. now exists rel.
      + rewrite Heq, Hfresh_target in Hk. discriminate.
    - apply Hnest. etransitivity; [now exists rel|].
      etransitivity; [exact Hk|]. rewrite Hdir. now exists ["tmp"]. }
  destruct (mkdirs_Ok fs2 (dirname target)) as [fs2' Hmk2].
  { intros q Hne Hq. unfold is_file.
    destruct q as [|x q]; [contradiction|]. cbn [node_at].
    destruct (fs2 !! (x :: q)) as [[b|]|] eqn:Hk; [|reflexivity..].
    exfalso.
    apply (copy_new _ _ _ _ _ _ _ Hc1) in Hk
      as [Hk|[Hk|([=] & _)]].
    - destruct (mkdirs_lookup _ _ _ (x :: q) Hmk) as [(Hd & _)|[Heq _]];
        [congruence|].
      rewrite Heq in Hk. specialize (Hway_target (x :: q) Hq).
      unfold is_file in Hway_target. cbn [node_at] in Hway_target.
      now rewrite Hk in Hway_target.
    - apply Hsub2. etransitivity; [exact Hk|].
      etransitivity; [exact Hq|]. apply dirname_prefix. }
  destruct (copy_Ok fs2 fs2' tmp target filter Dir) as [fs3 Hc2];
    try assumption.
  { destruct tmp; [contradiction|exact Htmp2]. }
  { intros Heq. apply Hsub2. now rewrite Heq. }
  { unfold compatible. cbn [fst snd]. rewrite app_nil_r.
    destruct target as [|x target]; [contradiction|]. cbn [node_at].
    specialize (Hfresh2 []). rewrite app_nil_r in Hfresh2.
    now rewrite Hfresh2. }
  { intros _. exact Hsub2. }
  { intros rel n Hrel. split; [|apply Hdisjoint].
    assert (Hnone : fs2' !! (target ++ rel) = None).
    { destruct rel as [|r rel].
      - rewrite app_nil_r.
        destruct (mkdirs_lookup _ _ _ target Hmk2)
          as [(_ & _ & Hpre)|[Heq _]].
        + exfalso. revert Hpre. rewrite <- (app_nil_r target) at 1.
          apply below_not_prefix_of_dirname. now rewrite app_nil_r.
        + rewrite Heq. specialize (Hfresh2 []).
          now rewrite app_nil_r in Hfresh2.
      - rewrite (mkdirs_lookup_eq _ _ _ _ Hmk2); [apply Hfresh2|].
        apply below_not_prefix_of_dirname. now destruct target. }
    unfold compatible. cbn [fst snd].
    destruct (target ++ rel) eqn:Hk;
      [apply app_eq_nil in Hk as [-> _]; contradiction|].
    cbn [node_at]. now rewrite Hnone. }
  rewrite Hc2. cbn [bind].
  (* the staging directory is removed *)
  unfold rm_recursive.
  destruct (copy_keeps_kind _ _ _ _ tmp _ Dir Hc2) as (n' & Hn' & _).
  { destruct tmp; [contradiction|exact Htmp2]. }
  rewrite Hn'. eauto.
Qed.

Lemma source_tree_no_file_above (dir q : path) :
  dir = ["catalog"] \/ dir = [] ->
  q `prefix_of` dir -> is_file source_tree q = false.
Proof.
  intros Hdir [r Hr].
  destruct Hdir as [-> | ->]; destruct q as [|x [|y q]]; try discriminate;
    try reflexivity.
  injection Hr as <- _. vm_compute. reflexivity.
Qed.

Lemma copyDir_succeeds_witness :
  source_tree !! ["src"] = Some Dir /\
  ~ ["src"] `prefix_of` join ["catalog"] "tmp" /\
  ~ join ["catalog"] "tmp" `prefix_of` ["dst"] /\
  ~ ["dst"] `prefix_of` join ["catalog"] "tmp" /\
  (forall rel, source_tree !! (join ["catalog"] "tmp" ++ rel) = None) /\
  (forall rel, source_tree !! (["dst"] ++ rel) = None) /\
  (forall q, q `prefix_of` ["catalog"] -> is_file source_tree q = false) /\
  (forall q, q `prefix_of` dirname ["dst"] -> is_file source_tree q = false) /\
  exists fs',
    copyDir source_tree ["catalog"] ["src"] ["dst"] (Some skip_sub) = Ok fs'.
Proof.
  assert (H0 : source_tree !! ["src"] = Some Dir)
    by (vm_compute; reflexivity).
  assert (H1 : ~ ["src"] `prefix_of` join ["catalog"] "tmp").
  { intros [k Hk]. discriminate Hk. }
  assert (H2 : ~ join ["catalog"] "tmp" `prefix_of` ["dst"]).
  { intros [k Hk]. discriminate Hk. }
  assert (H3 : ~ ["dst"] `prefix_of` join ["catalog"] "tmp").
  { intros [k Hk]. discriminate Hk. }
  assert (H4 : forall rel,
             source_tree !! (join ["catalog"] "tmp" ++ rel) = None).
  { intros rel.
    destruct (source_tree !! (join ["catalog"] "tmp" ++ rel)) as [n|] eqn:Hk;
      [|reflexivity].
    apply source_tree_entries in Hk as [rel' Hk]. discriminate Hk. }
  assert (H5 : forall rel, source_tree !! (["dst"] ++ rel) = None).
  { intros rel.
    destruct (source_tree !! (["dst"] ++ rel)) as [n|] eqn:Hk; [|reflexivity].
    apply source_tree_entries in Hk as [rel' Hk]. discriminate Hk. }
  assert (H6 : forall q, q `prefix_of` ["catalog"] ->
                         is_file source_tree q = false)
    by (intros q; apply source_tree_no_file_above; now left).
  assert (H7 : forall q, q `prefix_of` dirname ["dst"] ->
                         is_file source_tree q = false)
    by (intros q; apply source_tree_no_file_above; now right).
  exact (conj H0 (conj H1 (conj H2 (conj H3 (conj H4 (conj H5 (conj H6
    (conj H7
       (copyDir_succeeds source_tree ["catalog"] ["src"] ["dst"]
          (Some skip_sub) H0 H1 H2 H3 H4 H5 H6 H7))))))))).
Defined.

(** ** copyDir and what the staging directory held *)

(** X21: What the staging directory held before the call is copied to the
    target too: when the staging directory is not inside the target and the
    source is not inside the staging directory, after a successful
    [copyDir] an entry that was at [catalogDir/tmp/rel] is at [target/rel]
    (and gone from the staging directory), unless a source entry accepted
    by the filter takes its place, provided the filter accepts it on its
    way from the staging directory to the target. *)
Theorem copyDir_stale_staging (fs fs' : tree)
    (catalogDir source target rel : path)
    (filter : option (path -> path -> bool)) (n : node) :
  copyDir fs catalogDir source target filter = Ok fs' ->
  ~ target `prefix_of` join catalogDir "tmp" ->
  ~ join catalogDir "tmp" `prefix_of` source ->
  fs !! (join catalogDir "tmp" ++ rel) = Some n ->
  fs !! (source ++ rel) = None
  \/ included filter source (join catalogDir "tmp") rel = false ->
  included filter (join catalogDir "tmp") target rel = true ->
  fs' !! (target ++ rel) = Some n
  /\ fs' !! (join catalogDir "tmp" ++ rel) = None.
Proof.
  intros Hcopy _ _ Hstale Hsource_rel Hinc2.
  apply copyDir_steps in Hcopy
    as (fs1 & fs2 & fs3 & Hmk & Hc1 & Hc2 & Hrm & Hsource & Hsource_ne
        & Hsub1 & Htmp2 & Hsub2).
  set (tmp := join catalogDir "tmp") in *.
  assert (Hdir : dirname tmp = catalogDir) by apply dirname_join.
  pose proof (mkdirs_preserves _ _ _ _ _ Hmk Hstale) as Hstale1.
  (* the first copy leaves the entry in the staging directory *)
  assert (Hstale2 : fs2 !! (tmp ++ rel) = Some n).
  { pose proof Hc1 as Hc1'.
    apply copy_cases in Hc1'
      as (s & _ & _ & _ & _
          & [[_ ->]|(_ & fs1' & moved & Hmk1 & Hmoved & _ & _ & Hlk)]);
      [exact Hstale1|].
    rewrite Hlk, (proj2 (strip_Some tmp _ rel) eq_refl).
    destruct (moved !! rel) as [m|] eqn:Hm;
      [|exact (mkdirs_preserves _ _ _ _ _ Hmk1 Hstale1)].
    exfalso. apply Hmoved in Hm as [Hm Hinc1].
    destruct Hsource_rel as [Hnone|Hrej]; [|congruence].
    rewrite Hdir in Hmk1.
    apply (mkdirs_lookup_off _ _ _ _ _ Hmk1) in Hm.
    2:{ intros Hpre. apply Hsub1. etransitivity; [now exists rel|].
        etransitivity; [exact Hpre|]. now exists ["tmp"]. }
    apply (mkdirs_lookup_off _ _ _ _ _ Hmk) in Hm; [congruence|].
    intros Hpre. apply Hsub1. etransitivity; [|exact Hpre]. now exists rel. }
  (* the second copy takes it to the target *)
  apply copy_cases in Hc2
    as (s & _ & _ & _ & _
        & [[Htop _]|(_ & fs2' & moved & Hmk2 & Hmoved & _ & Hni & Hlk)]).
  { apply included_top in Hinc2. congruence. }
  assert (Hm : moved !! rel = Some n).
  { apply Hmoved. split; [|exact Hinc2].
    exact (mkdirs_preserves _ _ _ _ _ Hmk2 Hstale2). }
  split.
  - rewrite (rm_recursive_lookup _ _ _ _ Hrm).
    destruct (decide (tmp `prefix_of` target ++ rel)) as [Hpre|_];
      [now apply Hni in Hm|].
    now rewrite Hlk, (proj2 (strip_Some target _ rel) eq_refl), Hm.
  - rewrite (rm_recursive_lookup _ _ _ _ Hrm).
    destruct (decide (tmp `prefix_of` tmp ++ rel)) as [_|Hn]; [reflexivity|].
    destruct Hn. now exists rel.
Qed.

Lemma copyDir_stale_staging_witness :
  let fs' := tree_of (copyDir stale_tree ["catalog"] ["src"] ["dst"] None) in
  copyDir stale_tree ["catalog"] ["src"] ["dst"] None = Ok fs' /\
  ~ ["dst"] `prefix_of` join ["catalog"] "tmp" /\
  ~ join ["catalog"] "tmp" `prefix_of` ["src"] /\
  stale_tree !! (join ["catalog"] "tmp" ++ ["old.md"]) = Some (File "O") /\
  (stale_tree !! (["src"] ++ ["old.md"]) = None
   \/ included None ["src"] (join ["catalog"] "tmp") ["old.md"] = false) /\
  included None (join ["catalog"] "tmp") ["dst"] ["old.md"] = true /\
  fs' !! (["dst"] ++ ["old.md"]) = Some (File "O") /\
  fs' !! (join ["catalog"] "tmp" ++ ["old.md"]) = None.
Proof.
  assert (H0 : copyDir stale_tree ["catalog"] ["src"] ["dst"] None
               = Ok (tree_of (copyDir stale_tree ["catalog"] ["src"] ["dst"]
                                None)))
    by (apply succeeds_tree_of; vm_compute; reflexivity).
  assert (Ha : ~ ["dst"] `prefix_of` join ["catalog"] "tmp").
  { intros [k Hk]. discriminate Hk. }
  assert (Hb : ~ join ["catalog"] "tmp" `prefix_of` ["src"]).
  { intros [k Hk]. discriminate Hk. }
  assert (H1 : stale_tree !! (join ["catalog"] "tmp" ++ ["old.md"])
               = Some (File "O")) by (vm_compute; reflexivity).
  assert (H2 : stale_tree !! (["src"] ++ ["old.md"]) = None
               \/ included None ["src"] (join ["catalog"] "tmp") ["old.md"]
                  = false) by (left; vm_compute; reflexivity).
  assert (H3 : included None (join ["catalog"] "tmp") ["dst"] ["old.md"]
               = true) by reflexivity.
  exact (conj H0 (conj Ha (conj Hb (conj H1 (conj H2 (conj H3
    (copyDir_stale_staging stale_tree _ ["catalog"] ["src"] ["dst"]
       ["old.md"] None (File "O") H0 Ha Hb H1 H2 H3))))))).
Defined.
